(** * Entropic Regression model structure selection (sysidentpy, class [ER])

    Shallow embedding of
    [sysidentpy/model_structure_selection/entropic_regression.py].

    Numbers: a NumPy float is modelled as an extended rational
    ([NaN], [-inf], a finite rational, [+inf]) with exact arithmetic on the
    finite part; rounding is not modelled.  Library calls whose result the
    source does not determine (least-squares projection through [pinv],
    [scipy.special.psi], [np.argpartition], the Minkowski distance of order
    [p], the random generator, the coefficient estimator) are Section
    variables; concrete instances are given for evaluation. *)

From Stdlib Require Import List Bool Arith ZArith QArith Lia.
From Stdlib Require Import Qabs Qround Lqa Sorting.Sorted Permutation.
From Stdlib Require String.
Import ListNotations.

Open Scope nat_scope.

Set Implicit Arguments.

(** ** Floats with the IEEE special values *)

Inductive float64 : Type :=
| NaN
| NegInf
| Fin (q : Q)
| PosInf.

Module F.

Definition isnan (x : float64) : bool :=
  match x with NaN => true | _ => false end.

Definition isfinite (x : float64) : bool :=
  match x with Fin _ => true | _ => false end.

(** [x <= y]; every comparison with NaN is false. *)
Definition leb (x y : float64) : bool :=
  match x, y with
  | NaN, _ | _, NaN => false
  | NegInf, _ => true
  | _, PosInf => true
  | Fin a, Fin b => Qle_bool a b
  | _, _ => false
  end.

(** [x < y]; every comparison with NaN is false. *)
Definition ltb (x y : float64) : bool :=
  match x, y with
  | NaN, _ | _, NaN => false
  | NegInf, NegInf => false
  | NegInf, _ => true
  | PosInf, _ => false
  | Fin a, Fin b => negb (Qle_bool b a)
  | Fin _, PosInf => true
  | Fin _, NegInf => false
  end.

Definition opp (x : float64) : float64 :=
  match x with
  | NaN => NaN
  | NegInf => PosInf
  | PosInf => NegInf
  | Fin a => Fin (- a)%Q
  end.

Definition add (x y : float64) : float64 :=
  match x, y with
  | NaN, _ | _, NaN => NaN
  | PosInf, NegInf | NegInf, PosInf => NaN
  | PosInf, _ | _, PosInf => PosInf
  | NegInf, _ | _, NegInf => NegInf
  | Fin a, Fin b => Fin (Qred (a + b)%Q)
  end.

Definition sub (x y : float64) : float64 := add x (opp y).

Definition abs (x : float64) : float64 :=
  match x with
  | NaN => NaN
  | NegInf | PosInf => PosInf
  | Fin a => Fin (Qabs a)
  end.

(** [x != 0] *)
Definition nonzero (x : float64) : bool :=
  match x with
  | Fin a => negb (Qeq_bool a 0)
  | _ => true
  end.

End F.

(** ** NumPy index helpers *)

(** [np.argmin] of a flat array: the first NaN if there is one, else the
    first occurrence of the minimum.  [best] is the running winner. *)
Fixpoint argmin_from (pos best : nat) (bv : float64) (l : list float64) : nat :=
  match l with
  | [] => best
  | x :: r =>
      if F.isnan bv then best
      else if F.isnan x || F.ltb x bv
           then argmin_from (S pos) pos x r
           else argmin_from (S pos) best bv r
  end.

Definition argmin (l : list float64) : option nat :=
  match l with
  | [] => None
  | x :: r => Some (argmin_from 1 0 x r)
  end.

(** [np.delete(a, ix)] for an in-range index. *)
Fixpoint delete_at {A : Type} (ix : nat) (l : list A) : list A :=
  match l, ix with
  | [], _ => []
  | _ :: r, O => r
  | x :: r, S i => x :: delete_at i r
  end.

(** Insertion of [x] into a strictly increasing list, dropping duplicates. *)
Fixpoint insert_unique (x : nat) (l : list nat) : list nat :=
  match l with
  | [] => [x]
  | y :: r =>
      if x <? y then x :: l
      else if x =? y then l
      else y :: insert_unique x r
  end.

(** [np.unique]: sorted, without duplicates. *)
Definition unique (l : list nat) : list nat :=
  fold_right insert_unique [] l.

(** [np.setdiff1d(piv, x)] for a scalar [x]: the sorted unique values of
    [piv] that differ from [x]. *)
Definition setdiff1d (piv : list nat) (x : nat) : list nat :=
  unique (filter (fun v => negb (v =? x)) piv).

(** ** Python control flow: normal return, exception, or loop budget spent *)

Inductive exn : Type :=
| ValueError
| TypeError
| IndexError
| AttributeError.

Inductive outcome (A : Type) : Type :=
| Return (a : A)
| Raise (e : exn)
| Timeout.

Arguments Return {A} a.
Arguments Raise {A} e.
Arguments Timeout {A}.

Definition bind {A B : Type} (m : outcome A) (f : A -> outcome B) : outcome B :=
  match m with
  | Return a => f a
  | Raise e => Raise e
  | Timeout => Timeout
  end.

Notation "x <- m ;; k" := (bind m (fun x => k))
  (at level 61, m at next level, right associativity).

(** Sequencing of a list of computations, left to right (a [for] loop that
    fills an array). *)
Fixpoint sequence {A : Type} (l : list (outcome A)) : outcome (list A) :=
  match l with
  | [] => Return []
  | m :: r => x <- m ;; xs <- sequence r ;; Return (x :: xs)
  end.

(** ** Arrays of rationals *)

Fixpoint insert_sorted (x : Q) (l : list Q) : list Q :=
  match l with
  | [] => [x]
  | y :: r => if Qle_bool x y then x :: l else y :: insert_sorted x r
  end.

(** [np.sort] of one row, ascending. *)
Definition sort_row (l : list Q) : list Q := fold_right insert_sorted [] l.

Definition Qsum (l : list Q) : Q := fold_right Qplus 0%Q l.

Definition Qltb (a b : Q) : bool := negb (Qle_bool b a).

(** [np.concatenate(cols, axis=1)] of n-by-1 columns: row [i] holds entry
    [i] of every column; columns of different lengths raise. *)
Definition concatenate (cols : list (list Q)) : outcome (list (list Q)) :=
  match cols with
  | [] => Raise ValueError
  | c :: r =>
      if forallb (fun d => length d =? length c) r
      then Return (map (fun i => map (fun d => nth i d 0%Q) cols)
                       (seq 0 (length c)))
      else Raise ValueError
  end.

(** [M.T] for a matrix kept as the list of its rows. *)
Definition transpose (M : list (list Q)) : list (list Q) :=
  match M with
  | [] => []
  | r :: _ => map (fun j => map (fun row => nth j row 0%Q) M) (seq 0 (length r))
  end.

(** A column vector seen as an n-by-1 array: one coordinate per row. *)
Definition as_rows (y : list Q) : list (list Q) := map (fun v => [v]) y.

Section KSG.

(** Minkowski distance of order [self.p] between two rows. *)
Variable minkowski : list Q -> list Q -> Q.
(** [np.argpartition(a, kth)]. *)
Variable argpartition : list Q -> nat -> list nat.
(** [scipy.special.psi] on the integers that occur. *)
Variable psi : Z -> float64.
(** [self.k] *)
Variable k : nat.

(** [cdist(X, X, "minkowski", p=self.p)]: entry [(i, j)] is the distance
    from point [i] to point [j]. *)
Definition cdist (X : list (list Q)) : list (list Q) :=
  map (fun a => map (fun b => minkowski a b) X) X.

(** [np.sort(cdist(X, X).T)]: every row of the transposed distance matrix
    in ascending order. *)
Definition sorted_distances (X : list (list Q)) : list (list Q) :=
  map sort_row (transpose (cdist X)).

(** The radius vector:
    [idx = np.argpartition(smallest_distance[-1, :], k + 1)[: k + 1]],
    [epsilon = smallest_distance[:, idx][:, -1]]. *)
Definition epsilon (X : list (list Q)) : outcome (list Q) :=
  let sd := sorted_distances X in
  match sd with
  | [] => Raise IndexError
  | _ =>
      let last_row := last sd [] in
      if (k + 1 <? length last_row) then
        let idx := firstn (k + 1) (argpartition last_row (k + 1)) in
        let col := last idx O in
        Return (map (fun row => nth col row 0%Q) sd)
      else Raise ValueError
  end.

(** [np.sum((cdist(X, X) < epsilon).astype(int), axis=1) - 1]: row [i] of
    the distance matrix is compared with the radius of point [i]. *)
Definition neighbours_minus_one (X : list (list Q)) (eps : list Q) : list Z :=
  map (fun re : list Q * Q =>
         (Z.of_nat (length (filter (fun d => Qltb d (snd re)) (fst re))) - 1)%Z)
      (combine (cdist X) eps).

(** [np.nanmean(arr[np.isfinite(arr)])]: the mean of the finite entries,
    NaN when there is none. *)
Definition finite_values (arr : list float64) : list Q :=
  flat_map (fun x => match x with Fin q => [q] | _ => [] end) arr.

Definition nanmean_finite (arr : list float64) : float64 :=
  match finite_values arr with
  | [] => NaN
  | vs => Fin (Qred (Qsum vs / inject_Z (Z.of_nat (length vs)))%Q)
  end.

Definition mutual_information_knn (y y_perm : list Q) : outcome float64 :=
  joint_space <- concatenate [y; y_perm] ;;
  eps <- epsilon joint_space ;;
  let nx := neighbours_minus_one (as_rows y) eps in
  let ny := neighbours_minus_one (as_rows y_perm) eps in
  let arr := map (fun ab : Z * Z =>
                    let (a, b) := ab in F.add (psi (a + 1)) (psi (b + 1)))
                 (combine nx ny) in
  Return (F.sub (F.add (psi (Z.of_nat k)) (psi (Z.of_nat (length y))))
                (nanmean_finite arr)).

Definition cmi_terms (y_f2 f1_f2 f2_f2 : list Z) : list float64 :=
  map (fun abc : Z * (Z * Z) =>
         let '(a, (b, c)) := abc in
         F.sub (F.add (psi (a + 1)) (psi (b + 1))) (psi (c + 1)))
      (combine y_f2 (combine f1_f2 f2_f2)).

Definition conditional_mutual_information (y f1 f2 : list Q)
  : outcome float64 :=
  joint_space <- concatenate [y; f1; f2] ;;
  eps <- epsilon joint_space ;;
  sp_y_f2 <- concatenate [y; f2] ;;
  let y_f2 := neighbours_minus_one sp_y_f2 eps in
  sp_f1_f2 <- concatenate [f1; f2] ;;
  let f1_f2 := neighbours_minus_one sp_f1_f2 eps in
  let f2_f2 := neighbours_minus_one (as_rows f2) eps in
  let arr := cmi_terms y_f2 f1_f2 f2_f2 in
  Return (F.sub (psi (Z.of_nat k)) (nanmean_finite arr)).

(** *** The estimate as the specification words it *)

(** Number of points other than point [i] that lie strictly within
    [e] of point [i]. *)
Definition others_within (X : list (list Q)) (i : nat) (e : Q) : Z :=
  let a := nth i X [] in
  Z.of_nat
    (length (filter (fun jb : nat * list Q =>
                       negb (fst jb =? i) && Qltb (minkowski a (snd jb)) e)
                    (combine (seq 0 (length X)) X))).

Definition others_counts (X : list (list Q)) (eps : list Q) : list Z :=
  map (fun ie : nat * Q => others_within X (fst ie) (snd ie))
      (combine (seq 0 (length X)) eps).

(** The count the code arrives at: the number of other points where the
    radius is positive, and [-1] where it is zero. *)
Definition radius_counts (X : list (list Q)) (eps : list Q) : list Z :=
  map (fun ie : nat * Q =>
         if Qltb 0 (snd ie) then others_within X (fst ie) (snd ie) else (-1)%Z)
      (combine (seq 0 (length X)) eps).

(** digamma(k) minus the mean over the finite terms of
    digamma(y_f2+1) + digamma(f1_f2+1) - digamma(f2_f2+1), for a given way
    of counting neighbours within the joint-space radius. *)
Definition cmi_formula (counts : list (list Q) -> list Q -> list Z)
           (y f1 f2 : list Q) : outcome float64 :=
  joint_space <- concatenate [y; f1; f2] ;;
  eps <- epsilon joint_space ;;
  sp_y_f2 <- concatenate [y; f2] ;;
  sp_f1_f2 <- concatenate [f1; f2] ;;
  let arr := cmi_terms (counts sp_y_f2 eps) (counts sp_f1_f2 eps)
                       (counts (as_rows f2) eps) in
  Return (F.sub (psi (Z.of_nat k)) (nanmean_finite arr)).

(** The estimate as the specification words it: the three counts are
    counts of other points. *)
Definition cmi_spec : list Q -> list Q -> list Q -> outcome float64 :=
  cmi_formula others_counts.

(** The largest entry of a non-empty array. *)
Definition Qmaximum (l : list Q) : Q :=
  match l with
  | [] => 0%Q
  | x :: r => fold_left (fun m v => if Qle_bool m v then v else m) r x
  end.

(** The k-th nearest neighbour distance of every point, itself excluded,
    as the specification words it: the largest of the [k+1] smallest
    entries of its row of the distance matrix. *)
Definition kth_neighbour_distance (X : list (list Q)) : list Q :=
  map (fun a =>
         Qmaximum (firstn (k + 1) (sort_row (map (fun b => minkowski a b) X))))
      X.

End KSG.

(** What NumPy documents of [idx = np.argpartition(a, kth)]: a permutation
    of the indices that puts at position [kth] the entry a full sort would
    put there, no larger entry before it and no smaller one behind it; the
    order inside the two parts is not specified. *)
Definition partition_contract (a : list Q) (kth : nat) (idx : list nat)
  : Prop :=
  Permutation idx (seq 0 (length a))
  /\ (forall i, i < kth ->
                (nth (nth i idx O) a 0 <= nth (nth kth idx O) a 0)%Q)
  /\ (forall i, kth < i -> i < length a ->
                (nth (nth kth idx O) a 0 <= nth (nth i idx O) a 0)%Q).

(** ** More float and index helpers *)

Module FOps.

(** IEEE product: anything times NaN, and zero times infinity, are NaN. *)
Definition mul (x y : float64) : float64 :=
  match x, y with
  | NaN, _ | _, NaN => NaN
  | Fin a, Fin b => Fin (Qred (a * b)%Q)
  | Fin a, PosInf | PosInf, Fin a =>
      if Qeq_bool a 0 then NaN else if Qle_bool 0 a then PosInf else NegInf
  | Fin a, NegInf | NegInf, Fin a =>
      if Qeq_bool a 0 then NaN else if Qle_bool 0 a then NegInf else PosInf
  | PosInf, PosInf | NegInf, NegInf => PosInf
  | PosInf, NegInf | NegInf, PosInf => NegInf
  end.

Fixpoint insert (x : float64) (l : list float64) : list float64 :=
  match l with
  | [] => [x]
  | y :: r => if F.leb x y then x :: l else y :: insert x r
  end.

(** Ascending sort of an array without NaN. *)
Definition sort (l : list float64) : list float64 := fold_right insert [] l.

End FOps.

Definition finite (x : float64) : Prop := F.isfinite x = true.


(** [np.quantile(a, q)] with the default linear method: with [n] entries
    sorted ascending, the virtual index is [(n - 1) * q], and the result
    interpolates linearly between the two order statistics around it.  A
    NaN entry makes the result NaN; a [q] outside [0, 1] raises. *)
Definition quantile (a : list float64) (q : float64) : outcome float64 :=
  match q with
  | Fin qv =>
      if Qle_bool 0 qv && Qle_bool qv 1 then
        if existsb F.isnan a then Return NaN
        else
          match a with
          | [] => Return NaN
          | _ =>
              let s := FOps.sort a in
              let h := (inject_Z (Z.of_nat (length a - 1)) * qv)%Q in
              let lo := Z.to_nat (Qfloor h) in
              let hi := Nat.min (lo + 1) (length a - 1) in
              let g := (h - inject_Z (Qfloor h))%Q in
              let x := nth lo s NaN in
              let z := nth hi s NaN in
              Return (F.add x (FOps.mul (F.sub z x) (Fin g)))
          end
      else Raise ValueError
  | _ => Raise ValueError
  end.

(** [np.nanargmax] of a flat array: raises on an empty or all-NaN array;
    otherwise NaN counts as [-inf] and the first maximum wins. *)
Definition nan_to_neginf (x : float64) : float64 :=
  match x with NaN => NegInf | _ => x end.

Fixpoint argmax_from (pos best : nat) (bv : float64) (l : list float64) : nat :=
  match l with
  | [] => best
  | x :: r =>
      if F.ltb bv (nan_to_neginf x)
      then argmax_from (S pos) pos (nan_to_neginf x) r
      else argmax_from (S pos) best bv r
  end.

Definition nanargmax (l : list float64) : outcome nat :=
  if forallb F.isnan l then Raise ValueError
  else
    match l with
    | [] => Raise ValueError
    | x :: r => Return (argmax_from 1 0 (nan_to_neginf x) r)
    end.

(** [reg_matrix[:, cols]] for a matrix kept as the list of its columns. *)
Definition columns (reg_matrix : list (list Q)) (cols : list nat)
  : list (list Q) :=
  map (fun j => nth j reg_matrix []) cols.

Definition zeros_like (y : list Q) : list Q := map (fun _ => 0%Q) y.

(** ** The selection algorithm *)

(** The fields of the instance that [fit] and the selectors write:
    [self.tol] and the generator [self.rng]. *)
Record er_state (rng : Type) : Type := mk_state {
  tol : float64;
  gen : rng
}.

Arguments mk_state {rng} tol gen.
Arguments tol {rng} e.
Arguments gen {rng} e.

(** What [fit] leaves on the instance. *)
Record fitted (rng code : Type) : Type := mk_fitted {
  final_model : list code;
  theta : list float64;
  n_terms : nat;
  pivv : list nat;
  estimated_tolerance : float64;
  state : er_state rng
}.

Arguments mk_fitted {rng code}.
Arguments final_model {rng code} f.
Arguments theta {rng code} f.
Arguments n_terms {rng code} f.
Arguments pivv {rng code} f.
Arguments estimated_tolerance {rng code} f.
Arguments state {rng code} f.

(** [len(selected_terms) > np.max([8, n_regressors / 2])] *)
Definition over_limit (len n_regressors : nat) : bool :=
  let half := (inject_Z (Z.of_nat n_regressors) / 2)%Q in
  let bound := if Qle_bool 8 half then half else 8%Q in
  Qltb bound (inject_Z (Z.of_nat len)).

Section Selection.

Variables (rng code : Type).
(** [self.rng.permutation] *)
Variable permutation : rng -> list Q -> list Q * rng.
(** the method named by [self.mutual_information_estimator] *)
Variable mutual_information : list Q -> list Q -> outcome float64.
(** [self.conditional_mutual_information] *)
Variable cmi : list Q -> list Q -> list Q -> outcome float64.
(** [A @ LA.pinv(A) @ y], the matrix given by its columns *)
Variable pinv_project : list (list Q) -> list Q -> list Q.
(** the method named by [self.estimator] *)
Variable estimator : list (list Q) -> list Q -> list float64.
Variables (n_perm : nat) (q h : float64) (skip_forward : bool).

(** The loop [for i in range(self.n_perm)]: one permutation draw and one
    estimate per round. *)
Fixpoint permutation_estimates (n : nat) (g : rng) (y : list Q)
  : outcome (list float64 * rng) :=
  match n with
  | O => Return ([], g)
  | S m =>
      let (y_perm, g1) := permutation g y in
      v <- mutual_information y y_perm ;;
      r <- permutation_estimates m g1 y ;;
      Return (v :: fst r, snd r)
  end.

Definition tolerance_estimator (g : rng) (y : list Q)
  : outcome (float64 * rng) :=
  r <- permutation_estimates n_perm g y ;;
  t <- quantile (fst r) q ;;
  Return (t, snd r).

(** One round of the elimination loop: the array of gains. *)
Definition backward_gains (reg_matrix : list (list Q)) (y : list Q)
           (piv : list nat) : outcome (list float64) :=
  sequence
    (map (fun i =>
            let rem := setdiff1d piv (nth i piv O) in
            let f1 := pinv_project (columns reg_matrix piv) y in
            let f2 := pinv_project (columns reg_matrix rem) y in
            cmi y f1 f2)
         (seq 0 (length piv))).

Fixpoint backward_loop (fuel : nat) (t : float64) (reg_matrix : list (list Q))
         (y : list Q) (min_value : float64) (piv : list nat)
  : outcome (list nat) :=
  if F.leb min_value t && (1 <? length piv) then
    match fuel with
    | O => Timeout
    | S f =>
        initial_array <- backward_gains reg_matrix y piv ;;
        match argmin initial_array with
        | None => Raise ValueError
        | Some ix =>
            backward_loop f t reg_matrix y (nth ix initial_array NaN)
                          (delete_at ix piv)
        end
    end
  else Return piv.

(** [entropic_regression_backward]; it reads [self.tol]. *)
Definition entropic_regression_backward (st : er_state rng)
           (reg_matrix : list (list Q)) (y : list Q) (piv : list nat)
  : outcome (list nat) :=
  backward_loop (length piv) (tol st) reg_matrix y NegInf piv.

(** The estimate against the projection on the selected columns, or
    against the zero predictor when nothing is selected. *)
Definition ksg_local_of (reg_matrix : list (list Q)) (y : list Q)
           (selected_terms : list nat) : outcome float64 :=
  match selected_terms with
  | [] => mutual_information y (zeros_like y)
  | _ =>
      mutual_information y (pinv_project (columns reg_matrix selected_terms) y)
  end.

(** The gain of adding column [i] to the selected ones. *)
Definition candidate_gain (reg_matrix : list (list Q)) (y : list Q)
           (selected_terms : list nat) (i : nat) : outcome float64 :=
  let f1 := pinv_project (columns reg_matrix (selected_terms ++ [i])) y in
  let f2 := match selected_terms with
            | [] => zeros_like y
            | _ => pinv_project (columns reg_matrix selected_terms) y
            end in
  cmi y f1 f2.

(** The array of gains of one forward round; [-inf] where the column is
    already selected. *)
Definition forward_gains (reg_matrix : list (list Q)) (y : list Q)
           (selected_terms : list nat) : outcome (list float64) :=
  sequence
    (map (fun i =>
            if existsb (Nat.eqb i) selected_terms then Return NegInf
            else candidate_gain reg_matrix y selected_terms i)
         (seq 0 (length reg_matrix))).

(** What one round of the forward loop decides. *)
Inductive decision : Type :=
| Stop (success : bool)
| Continue (ix : nat).

Definition forward_decide (t ksg_max ksg_local max_value : float64)
           (len n_regressors ix : nat) : decision :=
  if F.leb (F.sub ksg_max ksg_local) t || F.leb max_value t then Stop true
  else if over_limit len n_regressors then Stop false
  else Continue ix.

Definition forward_round (t ksg_max : float64) (reg_matrix : list (list Q))
           (y : list Q) (selected_terms : list nat) : outcome decision :=
  ksg_local <- ksg_local_of reg_matrix y selected_terms ;;
  initial_vector <- forward_gains reg_matrix y selected_terms ;;
  ix <- nanargmax initial_vector ;;
  let max_value := nth ix initial_vector NaN in
  Return (forward_decide t ksg_max ksg_local max_value
                         (length selected_terms) (length reg_matrix) ix).

(** What the rule of one round says of its decision [d], given the round's
    [ksg_local], array of gains and [nanargmax] index: success exactly on a
    stop test that holds; failure, the stop test failing, exactly over the
    size limit; and a column that goes on to be added is the [nanargmax]
    index, which for a tolerance that is not NaN is a column not selected
    yet whose gain no other candidate exceeds and no earlier candidate
    equals. *)
Definition round_rule (t ksg_max : float64) (reg_matrix : list (list Q))
           (y : list Q) (selected_terms : list nat) (d : decision) : Prop :=
  exists ksg_local initial_vector ix,
    ksg_local_of reg_matrix y selected_terms = Return ksg_local
    /\ forward_gains reg_matrix y selected_terms = Return initial_vector
    /\ nanargmax initial_vector = Return ix
    /\ let max_value := nth ix initial_vector NaN in
       let stop := F.leb (F.sub ksg_max ksg_local) t || F.leb max_value t in
       (d = Stop true <-> stop = true)
       /\ (stop = false ->
           (d = Stop false <->
            8 < length selected_terms
            /\ length reg_matrix < 2 * length selected_terms))
       /\ (forall i, d = Continue i ->
             i = ix
             /\ (t <> NaN ->
                 ~ In i selected_terms
                 /\ i < length reg_matrix
                 /\ candidate_gain reg_matrix y selected_terms i
                    = Return max_value
                 /\ (forall j v,
                       j < length reg_matrix -> ~ In j selected_terms ->
                       candidate_gain reg_matrix y selected_terms j
                       = Return v ->
                       F.ltb max_value v = false)
                 /\ (forall j v,
                       j < i -> ~ In j selected_terms ->
                       candidate_gain reg_matrix y selected_terms j
                       = Return v ->
                       v = NaN \/ F.ltb v max_value = true))).

(** The [while stop_criteria is False] loop; [ix] is [None] for the
    initial empty list [ix = []], which appends nothing. *)
Fixpoint forward_loop (fuel : nat) (t ksg_max : float64)
         (reg_matrix : list (list Q)) (y : list Q)
         (selected_terms : list nat) (ix : option nat)
  : outcome (list nat * bool) :=
  match fuel with
  | O => Timeout
  | S f =>
      let selected_terms :=
        selected_terms ++ match ix with None => [] | Some i => [i] end in
      d <- forward_round t ksg_max reg_matrix y selected_terms ;;
      match d with
      | Stop success => Return (selected_terms, success)
      | Continue i =>
          forward_loop f t ksg_max reg_matrix y selected_terms (Some i)
      end
  end.

(** [entropic_regression_forward]; it overwrites [self.tol] and advances
    the generator. *)
Definition entropic_regression_forward (st : er_state rng)
           (reg_matrix : list (list Q)) (y : list Q)
  : outcome (list nat * bool * er_state rng) :=
  tg <- tolerance_estimator (gen st) y ;;
  let st1 := mk_state (fst tg) (snd tg) in
  ksg_max <- mutual_information y (pinv_project reg_matrix y) ;;
  r <- forward_loop (length reg_matrix + 11) (tol st1) ksg_max reg_matrix y
                    [] None ;;
  Return (r, st1).

(** [selected_terms[selected_terms_backward]].  The eliminator returns
    [np.array(piv)]; for an empty [piv] that is an empty array of floats,
    which NumPy refuses as an index. *)
Definition index_by (selected_terms kept : list nat) : outcome (list nat) :=
  match kept with
  | [] => Raise IndexError
  | _ => Return (map (fun j => nth j selected_terms O) kept)
  end.

(** [if 0 not in final_model: final_model = np.array([0, *final_model])] *)
Definition recheck_constant (final : list nat) : list nat :=
  if existsb (Nat.eqb 0) final then final else 0 :: final.

(** [regressor_code[final_model, :]]; an index past the table raises. *)
Definition code_rows (regressor_code : list code) (final : list nat)
  : outcome (list code) :=
  sequence (map (fun j => match nth_error regressor_code j with
                          | Some c => Return c
                          | None => Raise IndexError
                          end) final).

(** The condition of the last [if] of [fit]. *)
Definition prune_condition (th : list float64) : outcome bool :=
  match th with
  | [] => Raise IndexError
  | t0 :: _ =>
      Return (F.ltb (F.abs t0) h
              && (1 <? length (filter F.nonzero th)))
  end.

(** [fit] from the design matrix on.  [reg_matrix] is the result of the
    basis function, [regressor_code] the table that line 636, 645 or 653
    indexes, [y_full] the target and [max_lag] the number of warm-up
    samples. *)
Definition fit (st : er_state rng) (reg_matrix : list (list Q))
           (regressor_code : list code) (y_full : option (list Q))
           (max_lag : nat) : outcome (fitted rng code) :=
  match y_full with
  | None => Raise ValueError
  | Some y_full =>
      let y := skipn max_lag y_full in
      r <- permutation_estimates n_perm (gen st) y ;;
      t <- quantile (fst r) q ;;
      let st1 := mk_state t (snd r) in
      let est_tol := tol st1 in
      fw <- (if negb skip_forward
             then entropic_regression_forward st1 reg_matrix y
             else Return ([], false, st1)) ;;
      let '(selected0, success, st2) := fw in
      let selected_terms :=
        if negb success || skip_forward
        then seq 0 (length reg_matrix) else selected0 in
      selected_terms_backward <-
        entropic_regression_backward st2 (columns reg_matrix selected_terms) y
                                     (seq 0 (length selected_terms)) ;;
      final0 <- index_by selected_terms selected_terms_backward ;;
      let final := recheck_constant final0 in
      fm <- code_rows regressor_code final ;;
      let th := estimator (columns reg_matrix final) y_full in
      p <- prune_condition th ;;
      let '(th, fm, final) :=
        if p then (tl th, tl fm, tl final) else (th, fm, final) in
      Return (mk_fitted fm th (length th) final est_tol st2)
  end.

End Selection.

(** ** The generator *)

Section Draws.

Variable rng : Type.
Variable permutation : rng -> list Q -> list Q * rng.

(** The generator after [n] calls of [self.rng.permutation(y)]. *)
Fixpoint draws (n : nat) (g : rng) (y : list Q) : rng :=
  match n with
  | O => g
  | S m => draws m (snd (permutation g y)) y
  end.

(** The permutations that [n] successive calls of
    [self.rng.permutation(y)] deliver. *)
Fixpoint drawn (n : nat) (g : rng) (y : list Q) : list (list Q) :=
  match n with
  | O => []
  | S m => fst (permutation g y) :: drawn m (snd (permutation g y)) y
  end.

End Draws.

(** What a caller reads off a fitted instance: every field that [fit]
    writes, the state of the generator apart. *)
Definition fitted_values {rng code : Type} (r : fitted rng code)
  : list code * list float64 * nat * list nat * float64 * float64 :=
  (final_model r, theta r, n_terms r, pivv r, estimated_tolerance r,
   tol (state r)).

Definition map_outcome {A B : Type} (f : A -> B) (m : outcome A) : outcome B :=
  match m with
  | Return a => Return (f a)
  | Raise e => Raise e
  | Timeout => Timeout
  end.

(** ** Construction and parameter validation *)

Inductive pyval : Type :=
| PyNone
| PyBool (b : bool)
| PyInt (z : Z)
| PyFloat (x : float64)
| PyStr (s : String.string)
| PyList (l : list Z).

Module Py.

Import String.

(** [isinstance(v, int)]: [bool] is a subclass of [int]. *)
Definition is_int (v : pyval) : bool :=
  match v with PyInt _ | PyBool _ => true | _ => false end.

Definition is_float (v : pyval) : bool :=
  match v with PyFloat _ => true | _ => false end.

Definition is_bool (v : pyval) : bool :=
  match v with PyBool _ => true | _ => false end.

Definition is_int_or_list (v : pyval) : bool :=
  match v with PyInt _ | PyBool _ | PyList _ => true | _ => false end.

(** The number a numeric value stands for in a comparison. *)
Definition number (v : pyval) : option float64 :=
  match v with
  | PyInt z => Some (Fin (inject_Z z))
  | PyBool b => Some (Fin (if b then 1 else 0)%Q)
  | PyFloat x => Some x
  | _ => None
  end.

(** [v < c], [v > c] and [v <= c] against an integer literal, for a
    numeric [v]. *)
Definition lt_lit (v : pyval) (c : Z) : bool :=
  match number v with Some x => F.ltb x (Fin (inject_Z c)) | None => false end.

Definition gt_lit (v : pyval) (c : Z) : bool :=
  match number v with Some x => F.ltb (Fin (inject_Z c)) x | None => false end.

Definition le_lit (v : pyval) (c : Z) : bool :=
  match number v with Some x => F.leb x (Fin (inject_Z c)) | None => false end.

(** [raise E("... %f" % v)]: formatting a value that is not a number
    raises [TypeError] before [E] is built. *)
Definition raise_f {A : Type} (e : exn) (v : pyval) : outcome A :=
  match number v with
  | Some _ => Raise e
  | None => Raise TypeError
  end.

(** Membership of [v] in the list of the three supported model types. *)
Definition is_model_type (v : pyval) : bool :=
  match v with
  | PyStr s =>
      String.eqb s "NARMAX"%string || String.eqb s "NAR"%string
      || String.eqb s "NFIR"%string
  | _ => false
  end.

End Py.

Module Config.

Import String.

Record er_params : Type := mk_params {
  ylag : pyval;
  xlag : pyval;
  k : pyval;
  n_perm : pyval;
  q : pyval;
  skip_forward : pyval;
  extended_least_squares : pyval;
  model_type : pyval
}.

(** [if c: raise ...] followed by the rest. *)
Definition guard (c : bool) (e : outcome unit) (rest : outcome unit)
  : outcome unit :=
  if c then e else rest.

Definition _validate_params (s : er_params) : outcome unit :=
  guard (Py.is_int (ylag s) && Py.lt_lit (ylag s) 1)
        (Py.raise_f ValueError (ylag s))
  (guard (Py.is_int (xlag s) && Py.lt_lit (xlag s) 1)
        (Py.raise_f ValueError (xlag s))
  (guard (negb (Py.is_int_or_list (xlag s)))
        (Py.raise_f ValueError (xlag s))
  (guard (negb (Py.is_int_or_list (ylag s)))
        (Py.raise_f ValueError (ylag s))
  (guard (negb (Py.is_int (k s)) || Py.lt_lit (k s) 1)
        (Py.raise_f ValueError (k s))
  (guard (negb (Py.is_int (n_perm s)) || Py.lt_lit (n_perm s) 1)
        (Py.raise_f ValueError (n_perm s))
  (guard (negb (Py.is_float (q s)) || Py.gt_lit (q s) 1 || Py.le_lit (q s) 0)
        (Py.raise_f ValueError (q s))
  (guard (negb (Py.is_bool (skip_forward s)))
        (Raise TypeError)
  (guard (negb (Py.is_bool (extended_least_squares s)))
        (Raise TypeError)
  (guard (negb (Py.is_model_type (model_type s)))
        (Raise ValueError)
  (Return tt)))))))))).

(** [__init__]: [before] stands for the statements ahead of the validation
    (reading [basis_function.degree], [_get_max_lag], [check_random_state])
    and [after] for the call of the parent constructor; the instance exists
    only when all three return. *)
Definition __init__ (before after : outcome unit) (s : er_params)
  : outcome er_params :=
  _ <- before ;;
  _ <- _validate_params s ;;
  _ <- after ;;
  Return s.

(** The defaults of the constructor. *)
Definition default_params : er_params :=
  mk_params (PyInt 2) (PyInt 2) (PyInt 2) (PyInt 200)
            (PyFloat (Fin (99 # 100))) (PyBool false) (PyBool false)
            (PyStr "NARMAX"%string).

(** The defaults with another quantile level. *)
Definition with_q (v : pyval) : er_params :=
  mk_params (ylag default_params) (xlag default_params) (k default_params)
            (n_perm default_params) v (skip_forward default_params)
            (extended_least_squares default_params)
            (model_type default_params).

(** The configuration as the documentation words it. *)
Definition positive_integer (v : pyval) : Prop :=
  match v with
  | PyInt z => (1 <= z)%Z
  | PyBool b => b = true
  | _ => False
  end.

Definition float_in_unit_interval (v : pyval) : Prop :=
  match v with
  | PyFloat (Fin x) => (0 < x)%Q /\ (x <= 1)%Q
  | _ => False
  end.

Definition boolean (v : pyval) : Prop :=
  match v with PyBool _ => True | _ => False end.

Definition supported_model_type (v : pyval) : Prop :=
  v = PyStr "NARMAX"%string \/ v = PyStr "NAR"%string
  \/ v = PyStr "NFIR"%string.

(** The defaults with another number of neighbours. *)
Definition with_k (v : pyval) : er_params :=
  mk_params (ylag default_params) (xlag default_params) v
            (n_perm default_params) (q default_params)
            (skip_forward default_params)
            (extended_least_squares default_params)
            (model_type default_params).

(** A call with a string for [k]. *)
Definition k_as_text : er_params := with_k (PyStr "two"%string).

(** A lag parameter that the validation lets through: a positive integer,
    or a list, whose entries are not looked at. *)
Definition lag (v : pyval) : Prop :=
  match v with
  | PyInt z => (1 <= z)%Z
  | PyBool b => b = true
  | PyList _ => True
  | _ => False
  end.

(** A quantile level that the validation lets through. *)
Definition quantile_level (v : pyval) : Prop :=
  match v with
  | PyFloat NaN => True
  | PyFloat (Fin x) => (0 < x)%Q /\ (x <= 1)%Q
  | _ => False
  end.

(** All that the validation asks of the parameters. *)
Definition accepted (s : er_params) : Prop :=
  lag (ylag s) /\ lag (xlag s)
  /\ positive_integer (k s) /\ positive_integer (n_perm s)
  /\ quantile_level (q s)
  /\ boolean (skip_forward s) /\ boolean (extended_least_squares s)
  /\ supported_model_type (model_type s).

End Config.

(** ** Concrete instances, for evaluation *)

Module Instances.

(** Chebyshev distance, the Minkowski distance of the default order
    [p = inf]. *)
Fixpoint chebyshev (a b : list Q) : Q :=
  match a, b with
  | x :: a', y :: b' =>
      let d := Qabs (x - y) in
      let r := chebyshev a' b' in
      if Qle_bool d r then r else d
  | _, _ => 0%Q
  end.

Fixpoint insert_index (a : list Q) (i : nat) (l : list nat) : list nat :=
  match l with
  | [] => [i]
  | j :: r =>
      if Qle_bool (nth i a 0%Q) (nth j a 0%Q) then i :: l
      else j :: insert_index a i r
  end.

(** A stable argsort; a full sort is one admissible partition, and it
    leaves an already sorted row in place. *)
Definition argsort (a : list Q) : list nat :=
  fold_right (insert_index a) [] (seq 0 (length a)).

Definition argpartition_sorted (a : list Q) (kth : nat) : list nat := argsort a.

(** Another admissible partition: the stable sort with the indices at
    positions [kth - 2] and [kth - 1] exchanged. *)
Definition argpartition_exchanged (a : list Q) (kth : nat) : list nat :=
  let s := argsort a in
  firstn (kth - 2) s ++ [nth (kth - 1) s O; nth (kth - 2) s O] ++ skipn kth s.

(** Harmonic number [H_n]. *)
Fixpoint harmonic (n : nat) : Q :=
  match n with
  | O => 0%Q
  | S m => (harmonic m + 1 / inject_Z (Z.of_nat n))%Q
  end.

(** The digamma function on integers, with the Euler-Mascheroni constant
    rounded to ten digits: [psi(n) = H_(n-1) - gamma] for [n >= 1], [-inf]
    at zero, NaN at the negative integers. *)
Definition digamma (z : Z) : float64 :=
  match z with
  | Z0 => NegInf
  | Zpos p =>
    Fin (Qred (harmonic (Pos.to_nat p - 1) - (5772156649 # 10000000000))%Q)
  | Zneg _ => NaN
  end.

(** A toy generator: the state counts the draws, and draw number [g]
    rotates the array by [g + 1] places. *)
Definition rotate (g : nat) (y : list Q) : list Q * nat :=
  let r := (g + 1) mod (Nat.max 1 (length y)) in
  (skipn r y ++ firstn r y, S g).

Definition dot (a b : list Q) : Q :=
  Qsum (map (fun p : Q * Q => (fst p * snd p)%Q) (combine a b)).

(** [c * a + b], entry by entry. *)
Definition axpy (c : Q) (a b : list Q) : list Q :=
  map (fun p : Q * Q => Qred (c * fst p + snd p)%Q) (combine a b).

(** What is left of [v] once its components along the mutually orthogonal
    vectors of [basis] are taken away. *)
Definition reduce (basis : list (list Q)) (v : list Q) : list Q :=
  fold_left (fun r u => axpy (- (dot u r / dot u u))%Q u r) basis v.

Definition is_zero (v : list Q) : bool := forallb (fun x => Qeq_bool x 0) v.

(** Gram-Schmidt without normalisation; dependent columns are skipped. *)
Fixpoint orthogonal_basis (cols basis : list (list Q)) : list (list Q) :=
  match cols with
  | [] => basis
  | c :: r =>
      let u := reduce basis c in
      if is_zero u then orthogonal_basis r basis
      else orthogonal_basis r (basis ++ [u])
  end.

(** [A @ pinv(A) @ y] in exact arithmetic: the orthogonal projection of
    [y] on the span of the columns of [A]. *)
Definition lstsq_project (A : list (list Q)) (y : list Q) : list Q :=
  let r := reduce (orthogonal_basis A []) y in
  map (fun p : Q * Q => Qred (fst p - snd p)%Q) (combine y r).

(** The least-squares coefficients of a design whose columns are mutually
    orthogonal. *)
Definition least_squares_orthogonal (A : list (list Q)) (y : list Q)
  : list float64 :=
  map (fun c => Fin (Qred (dot c y / dot c c)%Q)) A.

(** The estimators of the class with their default names, on the Chebyshev
    distance. *)
Definition mi_knn (k : nat) : list Q -> list Q -> outcome float64 :=
  mutual_information_knn chebyshev argpartition_sorted digamma k.

Definition cmi_knn (k : nat) : list Q -> list Q -> list Q -> outcome float64 :=
  conditional_mutual_information chebyshev argpartition_sorted digamma k.

Definition column_of (l : list Z) : list Q := map inject_Z l.

End Instances.

(** ** Example data *)

Module Examples.

Import Instances.

(** [fit] with one neighbour, one permutation, the quantile level 1 and the
    default threshold [h = 0.01]. *)
Definition er_fit (skip_forward : bool) :=
  fit (code := list Z) rotate (mi_knn 1) (cmi_knn 1) lstsq_project
      least_squares_orthogonal 1 (Fin 1) (Fin (1 # 100)) skip_forward.

Definition er_forward :=
  entropic_regression_forward rotate (mi_knn 1) (cmi_knn 1) lstsq_project
                              1 (Fin 1).

Definition er_backward :=
  entropic_regression_backward (rng := nat) (cmi_knn 1) lstsq_project.

(** A code table of three regressors: the constant and two lagged terms. *)
Definition codes : list (list Z) := [[0; 0]; [1001; 0]; [2001; 0]]%Z.

Definition fresh : er_state nat := mk_state (Fin 0) 0.

(** A target without bias: three mutually orthogonal columns, the first
    constant, and a target of mean zero. *)
Definition R_no_bias : list (list Q) :=
  map column_of [[1; 1; 1; 1; 1]; [3; -2; -1; 3; -3]; [-3; 0; 3; 2; -2]]%Z.

Definition y_no_bias : list Q := column_of [-14; 4; 10; -1; 1]%Z.

(** Data on which the two tolerance computations of one [fit] differ. *)
Definition R_two : list (list Q) :=
  map column_of [[1; 1; 1; 1; 1; 1]; [3; 3; -1; 0; -2; -3];
                 [3; -2; -2; -2; 4; -1]]%Z.

Definition y_two : list Q := column_of [-14; 0; 13; 10; -2; 16]%Z.

(** Data on which forward selection picks column 1, then the constant, then
    column 2, and the coefficient of column 1 is small. *)
Definition R_late : list (list Q) :=
  map column_of [[1; 1; 1; 1; 1; 1];
                 [4000; -1000; -4000; 2000; -4000; 3000];
                 [3; 1; 0; -1; 0; -3]]%Z.

Definition y_late : list Q := column_of [-10; 5; 13; -3; 14; -7]%Z.

(** A constant target, whose permutation estimates are all NaN, and one
    regressor. *)
Definition R_ramp : list (list Q) := [column_of [1; 2; 3; 4]%Z].

Definition y_constant : list Q := column_of [1; 1; 1; 1]%Z.

(** A constant column and a ramp. *)
Definition R_flat : list (list Q) :=
  map column_of [[1; 1; 1; 1]; [1; 2; 3; 4]]%Z.

(** A target that the columns do not explain. *)
Definition R_none : list (list Q) :=
  map column_of [[1; 1; 1; 1; 1]; [-1; -3; 4; 2; -2]; [0; 2; 1; -1; -2]]%Z.

Definition y_none : list Q := column_of [4; 0; -3; -6; -8]%Z.

(** Samples with repeated points. *)
Definition y_repeated : list Q := column_of [0; 0; 5; 5; 9; 14]%Z.

Definition zeros6 : list Q := column_of [0; 0; 0; 0; 0; 0]%Z.

(** Four points on a line. *)
Definition X_line : list (list Q) := as_rows (column_of [0; 1; 3; 7]%Z).

(** Ten points on a line, no two pairs of them equally far apart. *)
Definition X_ten : list (list Q) :=
  as_rows (column_of [0; 1; 3; 7; 15; 31; 63; 127; 255; 511]%Z).

(** Data on which a second [fit] of the same instance selects another
    model. *)
Definition R_again : list (list Q) :=
  map column_of [[1; 1; 1; 1; 1]; [0; -1; -2; 0; 3]; [2; 4; -2; -4; 0]]%Z.

Definition y_again : list Q := column_of [-6; -15; -1; 9; 6]%Z.


(** The estimate against the projection on all columns of [R_late]. *)
Definition ksg_max_late : float64 :=
  Eval vm_compute in
    match mi_knn 1 y_late (lstsq_project R_late y_late) with
    | Return v => v
    | _ => NaN
    end.

(** What [fit] leaves on the three data sets. *)
Definition nothing_fitted : fitted nat (list Z) :=
  mk_fitted [] [] 0 [] NaN fresh.

Definition fit_no_bias : fitted nat (list Z) :=
  Eval vm_compute in
    match er_fit false fresh R_no_bias codes (Some y_no_bias) 0 with
    | Return r => r
    | _ => nothing_fitted
    end.

Definition fit_two : fitted nat (list Z) :=
  Eval vm_compute in
    match er_fit false fresh R_two codes (Some y_two) 0 with
    | Return r => r
    | _ => nothing_fitted
    end.

Definition fit_again_first : fitted nat (list Z) :=
  Eval vm_compute in
    match er_fit false fresh R_again codes (Some y_again) 0 with
    | Return r => r
    | _ => nothing_fitted
    end.

Definition fit_again_second : fitted nat (list Z) :=
  Eval vm_compute in
    match er_fit false (state fit_again_first) R_again codes (Some y_again) 0
    with
    | Return r => r
    | _ => nothing_fitted
    end.

Definition fit_late : fitted nat (list Z) :=
  Eval vm_compute in
    match er_fit false fresh R_late codes (Some y_late) 0 with
    | Return r => r
    | _ => nothing_fitted
    end.

Definition fit_constant : fitted nat (list Z) :=
  Eval vm_compute in
    match er_fit false fresh R_ramp codes (Some y_constant) 0 with
    | Return r => r
    | _ => nothing_fitted
    end.

End Examples.

(** * Properties *)

(** ** Loops that fill an array *)

Lemma sequence_length (A : Type) (l : list (outcome A)) (xs : list A) :
  sequence l = Return xs -> length xs = length l.
Proof.
  revert xs; induction l as [|m r IH]; simpl; intros xs H.
  - inversion H; reflexivity.
  - destruct m as [x| |]; simpl in H; try discriminate.
    destruct (sequence r) as [ys| |]; simpl in H; try discriminate.
    inversion H; subst; simpl; f_equal; apply IH; reflexivity.
Qed.

Lemma sequence_returns (A : Type) (l : list (outcome A)) :
  Forall (fun m => exists v, m = Return v) l ->
  exists xs, sequence l = Return xs.
Proof.
  induction 1 as [|m r [v Hv] _ [ys Hys]]; simpl.
  - eexists; reflexivity.
  - subst m; rewrite Hys; simpl; eexists; reflexivity.
Qed.

Lemma sequence_no_timeout (A : Type) (l : list (outcome A)) :
  Forall (fun m => m <> Timeout) l -> sequence l <> Timeout.
Proof.
  induction 1 as [|m r Hm _ IH]; simpl; [discriminate|].
  destruct m as [x| |]; simpl; try discriminate; [|contradiction].
  destruct (sequence r) as [ys| |]; simpl; try discriminate; contradiction.
Qed.

(** ** Index helpers *)

Lemma argmin_from_bound (l : list float64) (pos best : nat) (bv : float64) :
  best < pos -> argmin_from pos best bv l < pos + length l.
Proof.
  revert pos best bv; induction l as [|x r IH]; simpl; intros pos best bv H.
  - lia.
  - destruct (F.isnan bv); [lia|].
    destruct (F.isnan x || F.ltb x bv).
    + specialize (IH (S pos) pos x); lia.
    + specialize (IH (S pos) best bv); lia.
Qed.

Lemma argmin_bound (l : list float64) (ix : nat) :
  argmin l = Some ix -> ix < length l.
Proof.
  destruct l as [|x r]; simpl; [discriminate|].
  intros H; inversion H; subst.
  pose proof (argmin_from_bound r (pos := 1) (best := 0) x); lia.
Qed.

Lemma delete_at_length (A : Type) (l : list A) (ix : nat) :
  ix < length l -> S (length (delete_at ix l)) = length l.
Proof.
  revert ix; induction l as [|x r IH]; simpl; intros ix H; [lia|].
  destruct ix; simpl; [reflexivity|].
  rewrite IH; [reflexivity|lia].
Qed.

Lemma delete_at_incl (A : Type) (l : list A) (ix : nat) :
  incl (delete_at ix l) l.
Proof.
  revert ix; induction l as [|x r IH]; simpl; intros ix.
  - destruct ix; apply incl_refl.
  - destruct ix; [apply incl_tl, incl_refl|].
    apply incl_cons; [left; reflexivity|apply incl_tl, IH].
Qed.

Lemma leb_neginf (t : float64) : t <> NaN -> F.leb NegInf t = true.
Proof. destruct t; simpl; congruence. Qed.

(** ** Backward elimination *)

Section BackwardFacts.

Variable rng : Type.
Variable cmi : list Q -> list Q -> list Q -> outcome float64.
Variable pinv_project : list (list Q) -> list Q -> list Q.

Lemma backward_gains_length R y piv arr :
  backward_gains cmi pinv_project R y piv = Return arr ->
  length arr = length piv.
Proof.
  unfold backward_gains; intros H.
  apply sequence_length in H; rewrite H, length_map, length_seq; reflexivity.
Qed.

(** What the loop returns is a part of [piv], empty only if [piv] is. *)
Lemma backward_loop_sound fuel t R y :
  forall mv piv r,
    backward_loop cmi pinv_project fuel t R y mv piv = Return r ->
    incl r piv /\ length r <= length piv /\ (piv <> [] -> r <> []).
Proof.
  induction fuel as [|f IH]; intros mv piv r; simpl.
  - destruct (F.leb mv t && (1 <? length piv)); [discriminate|].
    intros H; inversion H; subst. repeat split; auto using incl_refl.
  - destruct (F.leb mv t && (1 <? length piv)) eqn:E.
    + apply andb_prop in E as [_ E]; apply Nat.ltb_lt in E.
      destruct (backward_gains cmi pinv_project R y piv) as [arr| |] eqn:G;
        simpl; try discriminate.
      destruct (argmin arr) as [ix|] eqn:A; try discriminate.
      pose proof (backward_gains_length _ _ _ G) as L.
      pose proof (argmin_bound _ A) as B. rewrite L in B.
      pose proof (delete_at_length piv B) as D.
      intros H. apply IH in H. destruct H as (I1 & I2 & I3).
      repeat split.
      * eapply incl_tran; [exact I1|apply delete_at_incl].
      * lia.
      * intros _. apply I3. intros Z. rewrite Z in D; simpl in D; lia.
    + intros H; inversion H; subst. repeat split; auto using incl_refl.
Qed.

(** A first round that runs takes one index away for good. *)
Lemma backward_loop_first_round fuel t R y piv r :
  t <> NaN -> 1 < length piv ->
  backward_loop cmi pinv_project fuel t R y NegInf piv = Return r ->
  length r < length piv.
Proof.
  intros Ht Hl. pose proof (leb_neginf Ht) as E. simpl in E.
  apply Nat.ltb_lt in Hl.
  destruct fuel as [|f]; simpl; rewrite E, Hl; simpl; [discriminate|].
  apply Nat.ltb_lt in Hl.
  destruct (backward_gains cmi pinv_project R y piv) as [arr| |] eqn:G;
    simpl; try discriminate.
  destruct (argmin arr) as [ix|] eqn:A; try discriminate.
  pose proof (backward_gains_length _ _ _ G) as L.
  pose proof (argmin_bound _ A) as B. rewrite L in B.
  pose proof (delete_at_length piv B) as D.
  intros H. apply backward_loop_sound in H. lia.
Qed.

(** With one unit of fuel per element the loop returns whenever the
    conditional estimator does. *)
Lemma backward_loop_returns fuel t R y :
  (forall a b c, exists v, cmi a b c = Return v) ->
  forall mv piv, length piv <= fuel ->
    exists r, backward_loop cmi pinv_project fuel t R y mv piv = Return r.
Proof.
  intros Hc. induction fuel as [|f IH]; intros mv piv Hf; simpl.
  - destruct piv; [|simpl in Hf; lia].
    rewrite andb_false_r. eexists; reflexivity.
  - destruct (F.leb mv t && (1 <? length piv)) eqn:E; [|eexists; reflexivity].
    apply andb_prop in E as [_ E]; apply Nat.ltb_lt in E.
    destruct (@sequence_returns float64
                (map (fun i =>
                        cmi y (pinv_project (columns R piv) y)
                            (pinv_project
                               (columns R (setdiff1d piv (nth i piv O))) y))
                     (seq 0 (length piv)))) as [arr G].
    { apply Forall_forall. intros m Hm. apply in_map_iff in Hm as (i & <- & _).
      apply Hc. }
    unfold backward_gains. rewrite G; simpl.
    pose proof (sequence_length _ G) as L. rewrite length_map, length_seq in L.
    destruct arr as [|x arr']; [simpl in L; lia|].
    simpl argmin.
    pose proof (argmin_from_bound arr' (pos := 1) (best := 0) x) as B.
    apply IH.
    assert (argmin_from 1 0 x arr' < length piv) as B' by (simpl in L; lia).
    pose proof (delete_at_length piv B'). lia.
Qed.

(** C9.  For a tolerance that is not NaN and a [piv] of more than one index,
    whatever [entropic_regression_backward] returns is strictly shorter than
    [piv] (the first round runs because [min_value] starts at minus
    infinity), is not empty and holds only indices of [piv]; it does return
    whenever the conditional estimator returns; and a [piv] of one index
    comes back unchanged. *)
Theorem backward_removes_at_least_one
  (st : er_state rng) (R : list (list Q)) (y : list Q) (piv : list nat) :
  tol st <> NaN -> 1 < length piv ->
  (forall r,
      entropic_regression_backward cmi pinv_project st R y piv = Return r ->
      length r < length piv /\ r <> [] /\ incl r piv)
  /\ ((forall a b c, exists v, cmi a b c = Return v) ->
      exists r,
        entropic_regression_backward cmi pinv_project st R y piv = Return r)
  /\ (forall i,
        entropic_regression_backward cmi pinv_project st R y [i] = Return [i]).
Proof.
  intros Ht Hl. unfold entropic_regression_backward. repeat split.
  - eapply backward_loop_first_round; eauto.
  - apply backward_loop_sound in H as (_ & _ & H). apply H.
    destruct piv; simpl in Hl; [lia|discriminate].
  - apply backward_loop_sound in H as (H & _). exact H.
  - intros Hc. apply backward_loop_returns; auto.
  - intros i. simpl. rewrite andb_false_r. reflexivity.
Qed.

End BackwardFacts.

(** ** Order facts on floats *)

Lemma Qle_bool_false (a b : Q) : Qle_bool a b = false -> (b < a)%Q.
Proof.
  intros H. apply Qnot_le_lt. intros L.
  apply Qle_bool_iff in L. congruence.
Qed.

Lemma Qltb_lt (a b : Q) : Qltb a b = true <-> (a < b)%Q.
Proof.
  unfold Qltb. split; intros H.
  - apply Qle_bool_false. destruct (Qle_bool b a); [discriminate|reflexivity].
  - destruct (Qle_bool b a) eqn:E; [|reflexivity].
    apply Qle_bool_iff in E. exfalso. exact (Qlt_not_le _ _ H E).
Qed.

Lemma nan_to_neginf_not_nan (x : float64) : nan_to_neginf x <> NaN.
Proof. destruct x; simpl; discriminate. Qed.

Lemma ltb_asym (a c : float64) : F.ltb a c = true -> F.ltb c a = false.
Proof.
  destruct a as [| |a|], c as [| |c|]; simpl; try reflexivity; try discriminate.
  intros H. destruct (Qle_bool c a) eqn:E; [discriminate|].
  apply Qle_bool_false in E. apply Qlt_le_weak, Qle_bool_iff in E.
  rewrite E. reflexivity.
Qed.

Lemma ltb_le_lt (a b c : float64) :
  a <> NaN -> b <> NaN -> c <> NaN ->
  F.ltb b a = false -> F.ltb b c = true -> F.ltb a c = true.
Proof.
  destruct a as [| |a|], b as [| |b|], c as [| |c|]; simpl;
    try congruence; intros _ _ _ H1 H2.
  destruct (Qle_bool a b) eqn:E1; [|discriminate].
  destruct (Qle_bool c b) eqn:E2; [discriminate|].
  apply Qle_bool_iff in E1. apply Qle_bool_false in E2.
  destruct (Qle_bool c a) eqn:E3; [|reflexivity].
  apply Qle_bool_iff in E3. exfalso.
  apply (Qlt_irrefl b). eapply Qlt_le_trans; [exact E2|].
  eapply Qle_trans; eauto.
Qed.

Lemma ltb_le_trans (a b c : float64) :
  a <> NaN -> b <> NaN -> c <> NaN ->
  F.ltb b a = false -> F.ltb c b = false -> F.ltb c a = false.
Proof.
  destruct a as [| |a|], b as [| |b|], c as [| |c|]; simpl;
    try congruence; intros _ _ _ H1 H2.
  destruct (Qle_bool a b) eqn:E1; [|discriminate].
  destruct (Qle_bool b c) eqn:E2; [|discriminate].
  apply Qle_bool_iff in E1, E2.
  assert (Qle_bool a c = true) as ->
      by (apply Qle_bool_iff; eapply Qle_trans; eauto).
  reflexivity.
Qed.

(** ** [nanargmax] picks the first maximum, NaN counting as [-inf] *)

Definition value_at (l : list float64) (j : nat) : float64 :=
  nan_to_neginf (nth j l NaN).

Lemma argmax_from_spec (l pre : list float64) (best : nat) :
  best < length pre ->
  (forall j, j < length pre ->
             F.ltb (value_at pre best) (value_at pre j) = false) ->
  (forall j, j < best -> F.ltb (value_at pre j) (value_at pre best) = true) ->
  let r := argmax_from (length pre) best (value_at pre best) l in
  r < length (pre ++ l)
  /\ (forall j, j < length (pre ++ l) ->
                F.ltb (value_at (pre ++ l) r) (value_at (pre ++ l) j) = false)
  /\ (forall j, j < r ->
                F.ltb (value_at (pre ++ l) j) (value_at (pre ++ l) r) = true).
Proof.
  revert pre best; induction l as [|x l IH]; intros pre best Hb Hmax Hfirst;
    simpl.
  - rewrite app_nil_r. auto.
  - assert (forall j, j < length pre ->
                      value_at (pre ++ [x]) j = value_at pre j) as Hpre.
    { intros j Hj. unfold value_at. rewrite app_nth1; auto. }
    assert (value_at (pre ++ [x]) (length pre) = nan_to_neginf x) as Hx.
    { unfold value_at. rewrite app_nth2, Nat.sub_diag; auto. }
    assert (length (pre ++ [x]) = S (length pre)) as Hlen.
    { rewrite length_app; simpl; lia. }
    replace (pre ++ x :: l) with ((pre ++ [x]) ++ l)
      by (rewrite <- app_assoc; reflexivity).
    destruct (F.ltb (value_at pre best) (nan_to_neginf x)) eqn:E.
    + rewrite <- Hx, <- Hlen. apply IH.
      * lia.
      * intros j Hj. rewrite Hlen in Hj.
        destruct (Nat.eq_dec j (length pre)) as [->|Hne].
        -- rewrite Hx. destruct (nan_to_neginf x) as [| |v|]; simpl; auto.
           unfold Qle_bool. rewrite Z.leb_refl. reflexivity.
        -- rewrite Hx, Hpre by lia. apply ltb_asym.
           eapply ltb_le_lt; [| | |apply (Hmax j); lia|exact E];
             apply nan_to_neginf_not_nan.
      * intros j Hj. rewrite Hx, Hpre by lia.
        eapply ltb_le_lt; [| | |apply (Hmax j); lia|exact E];
          apply nan_to_neginf_not_nan.
    + rewrite <- (Hpre best) by lia. rewrite <- Hlen. apply IH.
      * lia.
      * intros j Hj. rewrite Hlen in Hj. rewrite (Hpre best) by lia.
        destruct (Nat.eq_dec j (length pre)) as [->|Hne].
        -- rewrite Hx. exact E.
        -- rewrite Hpre by lia. apply Hmax. lia.
      * intros j Hj. rewrite (Hpre best), Hpre by lia. apply Hfirst. exact Hj.
Qed.

Lemma nanargmax_spec (l : list float64) (ix : nat) :
  nanargmax l = Return ix ->
  ix < length l
  /\ (forall j, j < length l -> F.ltb (value_at l ix) (value_at l j) = false)
  /\ (forall j, j < ix -> F.ltb (value_at l j) (value_at l ix) = true).
Proof.
  unfold nanargmax. destruct (forallb F.isnan l); [discriminate|].
  destruct l as [|x l]; [discriminate|]. intros H; inversion H; subst; clear H.
  change (x :: l) with ([x] ++ l).
  change (nan_to_neginf x) with (value_at [x] 0).
  apply (argmax_from_spec l [x] (best := 0)); simpl.
  - lia.
  - intros j Hj. assert (j = 0) as -> by lia.
    unfold value_at; simpl. destruct (nan_to_neginf x) as [| |v|]; simpl; auto.
    unfold Qle_bool. rewrite Z.leb_refl. reflexivity.
  - intros j Hj. lia.
Qed.

(** ** Forward selection *)

Lemma sequence_nth (A : Type) (l : list (outcome A)) (xs : list A) (d : A) :
  sequence l = Return xs ->
  forall j, j < length l -> nth j l Timeout = Return (nth j xs d).
Proof.
  revert xs; induction l as [|m r IH]; simpl; intros xs H j Hj; [lia|].
  destruct m as [x| |]; simpl in H; try discriminate.
  destruct (sequence r) as [ys| |]; simpl in H; try discriminate.
  inversion H; subst. destruct j; simpl; [reflexivity|].
  apply IH; [reflexivity|lia].
Qed.

Lemma sequence_map_seq (A : Type) (f : nat -> outcome A) (n : nat)
      (xs : list A) (d : A) :
  sequence (map f (seq 0 n)) = Return xs ->
  length xs = n /\ forall j, j < n -> f j = Return (nth j xs d).
Proof.
  intros H. split.
  - apply sequence_length in H. rewrite H, length_map, length_seq. reflexivity.
  - intros j Hj. pose proof (@sequence_nth _ _ _ d H j) as N.
    rewrite length_map, length_seq in N. specialize (N Hj).
    rewrite <- N.
    rewrite (nth_indep _ Timeout (f 0))
      by (rewrite length_map, length_seq; lia).
    rewrite map_nth, seq_nth by lia. reflexivity.
Qed.

Lemma existsb_eqb_In (i : nat) (l : list nat) :
  existsb (Nat.eqb i) l = true <-> In i l.
Proof.
  rewrite existsb_exists. split.
  - intros (x & Hx & E). apply Nat.eqb_eq in E. subst. exact Hx.
  - intros H. exists i. split; [exact H|apply Nat.eqb_refl].
Qed.

Lemma over_limit_spec (len n : nat) :
  over_limit len n = true <-> 8 < len /\ n < 2 * len.
Proof.
  unfold over_limit.
  set (half := (inject_Z (Z.of_nat n) / 2)%Q).
  assert (forall m : nat, (half < inject_Z (Z.of_nat m))%Q <-> n < 2 * m)
    as Hhalf.
  { intros m. unfold half, Qlt, Qdiv, Qmult, Qinv, inject_Z; simpl. lia. }
  assert (forall m : nat, (8 < inject_Z (Z.of_nat m))%Q <-> 8 < m) as H8.
  { intros m. unfold Qlt, inject_Z; simpl. lia. }
  destruct (Qle_bool 8 half) eqn:E; rewrite Qltb_lt.
  - apply Qle_bool_iff in E. rewrite Hhalf. split; [|tauto].
    intros H. split; [|exact H]. apply H8.
    eapply Qle_lt_trans; [exact E|]. apply Hhalf. exact H.
  - apply Qle_bool_false in E. rewrite H8. split; [|tauto].
    intros H. split; [exact H|]. apply Hhalf.
    eapply Qlt_trans; [exact E|]. apply H8. exact H.
Qed.

Section ForwardFacts.

Variable mutual_information : list Q -> list Q -> outcome float64.
Variable cmi : list Q -> list Q -> list Q -> outcome float64.
Variable pinv_project : list (list Q) -> list Q -> list Q.

Lemma forward_gains_spec R y sel vec :
  forward_gains cmi pinv_project R y sel = Return vec ->
  length vec = length R
  /\ forall j, j < length R ->
       (In j sel -> nth j vec NaN = NegInf)
       /\ (~ In j sel ->
           candidate_gain cmi pinv_project R y sel j
           = Return (nth j vec NaN)).
Proof.
  unfold forward_gains. intros H.
  apply (@sequence_map_seq _ _ _ _ NaN) in H as [L N]. split; [exact L|].
  intros j Hj. specialize (N j Hj). split; intros Hin.
  - apply existsb_eqb_In in Hin. rewrite Hin in N. inversion N. reflexivity.
  - destruct (existsb (Nat.eqb j) sel) eqn:E.
    + apply existsb_eqb_In in E. contradiction.
    + exact N.
Qed.

Lemma ltb_value_at_false (a b : float64) :
  F.ltb (nan_to_neginf a) (nan_to_neginf b) = false -> F.ltb a b = false.
Proof. destruct a, b; simpl; auto. Qed.

Lemma ltb_value_at_true (a b : float64) :
  F.ltb (nan_to_neginf a) (nan_to_neginf b) = true ->
  a = NaN \/ F.ltb a b = true.
Proof. destruct a, b; simpl; auto; discriminate. Qed.

Lemma forward_decide_rule t ksg_max ksg_local max_value len n ix d :
  forward_decide t ksg_max ksg_local max_value len n ix = d ->
  let stop := F.leb (F.sub ksg_max ksg_local) t || F.leb max_value t in
  (d = Stop true <-> stop = true)
  /\ (stop = false -> (d = Stop false <-> 8 < len /\ n < 2 * len))
  /\ (forall i, d = Continue i -> i = ix /\ stop = false).
Proof.
  unfold forward_decide. intros <-. simpl.
  destruct (F.leb (F.sub ksg_max ksg_local) t || F.leb max_value t).
  - split; [tauto|]. split; [discriminate|]. discriminate.
  - pose proof (over_limit_spec len n) as O.
    destruct (over_limit len n).
    + split; [split; discriminate|]. split; [|discriminate].
      intros _. split; [intros _; apply O; reflexivity|reflexivity].
    + split; [split; discriminate|]. split.
      * intros _. split; [discriminate|].
        intros L. apply O in L. discriminate.
      * intros i Hi. inversion Hi. split; reflexivity.
Qed.

Lemma forward_round_rule t ksg_max R y sel d :
  forward_round mutual_information cmi pinv_project t ksg_max R y sel
  = Return d ->
  round_rule mutual_information cmi pinv_project t ksg_max R y sel d.
Proof.
  unfold forward_round, round_rule.
  destruct (ksg_local_of mutual_information pinv_project R y sel)
    as [ksg_local| |]; simpl; try discriminate.
  destruct (forward_gains cmi pinv_project R y sel)
    as [vec| |] eqn:G; simpl; try discriminate.
  destruct (nanargmax vec) as [ix| |] eqn:A; simpl; try discriminate.
  intros H. inversion H as [D]; clear H.
  exists ksg_local, vec, ix.
  destruct (forward_decide_rule _ _ _ _ _ _ _ D) as (R1 & R2 & R3).
  rewrite D. do 3 (split; [first [reflexivity|assumption]|]).
  split; [exact R1|]. split; [exact R2|].
  intros i Hi. destruct (R3 i Hi) as [-> Hstop]. split; [reflexivity|].
  intros Ht.
  apply orb_false_elim in Hstop as [_ Hmax].
  destruct (forward_gains_spec _ _ _ G) as [L N].
  destruct (nanargmax_spec _ A) as (B & M & T). rewrite L in B, M.
  assert (~ In ix sel) as Hnot.
  { intros Hin. apply (N ix B) in Hin. rewrite Hin in Hmax.
    rewrite (leb_neginf Ht) in Hmax. discriminate. }
  split; [exact Hnot|]. split; [exact B|].
  split; [apply N; assumption|]. split.
  - intros j v Hj Hjs Hv. apply (N j Hj) in Hjs. rewrite Hjs in Hv.
    inversion Hv; subst. apply ltb_value_at_false. apply M. exact Hj.
  - intros j v Hj Hjs Hv. assert (j < length R) as Hj' by lia.
    apply (N j Hj') in Hjs. rewrite Hjs in Hv.
    inversion Hv; subst. apply ltb_value_at_true. apply T. exact Hj.
Qed.

Lemma app_cons_same_length (A : Type) (p q : list A) (a i : A) (r r0 : list A) :
  length p = length q -> p ++ a :: r = q ++ i :: r0 -> p = q /\ a = i.
Proof.
  revert q; induction p as [|x p IH]; intros [|z q] L H;
    simpl in *; try discriminate.
  - inversion H. auto.
  - inversion H; subst. destruct (IH q) as [-> ->]; auto.
Qed.

Lemma forward_loop_prefix fuel t ksg_max R y :
  forall sel ixo s b,
    forward_loop mutual_information cmi pinv_project fuel t ksg_max R y
                 sel ixo
    = Return (s, b) ->
    exists rest,
      s = (sel ++ match ixo with None => [] | Some i => [i] end) ++ rest.
Proof.
  induction fuel as [|f IH]; intros sel ixo s b; simpl; [discriminate|].
  destruct (forward_round mutual_information cmi pinv_project
              t ksg_max R y _) as [[sc|i]| |]; simpl; try discriminate.
  - intros H; inversion H; subst. exists []. rewrite app_nil_r. reflexivity.
  - intros H. apply IH in H as [rest ->]. exists (i :: rest).
    rewrite <- app_assoc. reflexivity.
Qed.

(** C4.  When the forward loop returns [(s, b)]: the round at the returned
    list [s] is the one that stopped, and [b] is true exactly when its stop
    test [ksg_max - ksg_local <= tol or max_value <= tol] held, false
    exactly when the test failed and [len(s) > max(8, n_regressors / 2)];
    every column [a] appended on the way (after the list [p]) was the
    [nanargmax] index of the round at [p], neither test having fired there,
    and for a tolerance that is not NaN it is a column not selected yet
    with the largest gain, the lowest index among equals. *)
Theorem forward_selection_rule fuel t ksg_max R y sel ixo s b :
  forward_loop mutual_information cmi pinv_project fuel t ksg_max R y sel ixo
  = Return (s, b) ->
  round_rule mutual_information cmi pinv_project t ksg_max R y s (Stop b)
  /\ (forall p a rest,
        s = p ++ a :: rest ->
        length (sel ++ match ixo with None => [] | Some i => [i] end)
        <= length p ->
        round_rule mutual_information cmi pinv_project t ksg_max R y p
                   (Continue a)).
Proof.
  revert sel ixo; induction fuel as [|f IH]; intros sel ixo; simpl;
    [discriminate|].
  set (sel1 := sel ++ match ixo with None => [] | Some i => [i] end).
  destruct (forward_round mutual_information cmi pinv_project
              t ksg_max R y sel1) as [[sc|i]| |] eqn:E; simpl; try discriminate.
  - intros H; inversion H; subst. split; [apply forward_round_rule; exact E|].
    intros p a rest Hs Hl. apply (f_equal (@length nat)) in Hs.
    rewrite length_app in Hs. simpl in Hs. lia.
  - intros H. pose proof (forward_loop_prefix _ _ _ _ _ _ _ H) as [rest0 Hp].
    apply IH in H as [H1 H2]. split; [exact H1|].
    intros p a rest Hs Hl.
    destruct (Nat.eq_dec (length p) (length sel1)) as [Heq|Hne].
    + rewrite Hs in Hp. simpl in Hp. rewrite <- app_assoc in Hp. simpl in Hp.
      apply app_cons_same_length in Hp as [-> ->]; [|exact Heq].
      apply forward_round_rule. exact E.
    + apply (H2 p a rest Hs). simpl. rewrite length_app. simpl.
      fold sel1 in Hl. lia.
Qed.

Lemma bind_no_timeout (A B : Type) (m : outcome A) (f : A -> outcome B) :
  m <> Timeout -> (forall a, m = Return a -> f a <> Timeout) ->
  bind m f <> Timeout.
Proof.
  destruct m as [a| |]; simpl; intros H1 H2; try discriminate.
  - apply H2. reflexivity.
  - contradiction.
Qed.

Lemma forward_round_no_timeout t ksg_max R y sel :
  (forall a b, mutual_information a b <> Timeout) ->
  (forall a b c, cmi a b c <> Timeout) ->
  forward_round mutual_information cmi pinv_project t ksg_max R y sel
  <> Timeout.
Proof.
  intros Hm Hc. unfold forward_round.
  apply bind_no_timeout.
  { unfold ksg_local_of. destruct sel; apply Hm. }
  intros ksg_local _. apply bind_no_timeout.
  { unfold forward_gains. apply sequence_no_timeout.
    apply Forall_forall. intros m Hin. apply in_map_iff in Hin as (i & <- & _).
    destruct (existsb (Nat.eqb i) sel); [discriminate|apply Hc]. }
  intros vec _. apply bind_no_timeout; [|discriminate].
  unfold nanargmax. destruct (forallb F.isnan vec); [discriminate|].
  destruct vec; discriminate.
Qed.

(** The budget of [entropic_regression_forward] is never spent: the size
    limit stops the loop first. *)
Lemma forward_loop_fuel_enough t ksg_max R y :
  (forall a b, mutual_information a b <> Timeout) ->
  (forall a b c, cmi a b c <> Timeout) ->
  forall fuel sel ixo,
    1 <= fuel ->
    length R + 10 <=
      fuel + length (sel ++ match ixo with None => [] | Some i => [i] end) ->
    forward_loop mutual_information cmi pinv_project fuel t ksg_max R y
                 sel ixo
    <> Timeout.
Proof.
  intros Hm Hc. induction fuel as [|f IH]; intros sel ixo Hf Hl; [lia|].
  simpl.
  set (sel1 := sel ++ match ixo with None => [] | Some i => [i] end) in *.
  apply bind_no_timeout; [apply forward_round_no_timeout; assumption|].
  intros d Hd. destruct d as [sc|i]; [discriminate|].
  apply forward_round_rule in Hd.
  destruct Hd as (kl & vec & ix & _ & _ & _ & R1 & R2 & R3).
  destruct (F.leb (F.sub ksg_max kl) t || F.leb (nth ix vec NaN) t) eqn:S.
  - assert (Continue i = Stop true) as C by (apply R1; reflexivity).
    discriminate.
  - specialize (R2 eq_refl).
    assert (~ (8 < length sel1 /\ length R < 2 * length sel1)) as N.
    { intros L. apply R2 in L. discriminate. }
    apply IH.
    + lia.
    + rewrite length_app. simpl. lia.
Qed.

End ForwardFacts.

(** ** The orchestrator *)

Section FitFacts.

Variables (rng code : Type).
Variable permutation : rng -> list Q -> list Q * rng.
Variable mutual_information : list Q -> list Q -> outcome float64.
Variable cmi : list Q -> list Q -> list Q -> outcome float64.
Variable pinv_project : list (list Q) -> list Q -> list Q.
Variable estimator : list (list Q) -> list Q -> list float64.
Variables (n_perm : nat) (q h : float64) (skip_forward : bool).

(** The steps a returning [fit] went through. *)
Lemma fit_steps
  (st : er_state rng) R (codes : list code) y_full max_lag
  (r : fitted rng code) :
  fit permutation mutual_information cmi pinv_project estimator n_perm q h
      skip_forward st R codes (Some y_full) max_lag = Return r ->
  let y := skipn max_lag y_full in
  exists ests g1 t selected0 success st2 kept final0 fm p,
    permutation_estimates permutation mutual_information n_perm (gen st) y
    = Return (ests, g1)
    /\ quantile ests q = Return t
    /\ (if negb skip_forward
        then entropic_regression_forward permutation mutual_information cmi
               pinv_project n_perm q (mk_state t g1) R y
        else Return ([], false, mk_state t g1))
       = Return (selected0, success, st2)
    /\ let selected := if negb success || skip_forward
                       then seq 0 (length R) else selected0 in
       entropic_regression_backward cmi pinv_project st2 (columns R selected)
                                    y (seq 0 (length selected))
       = Return kept
       /\ index_by selected kept = Return final0
       /\ let final := recheck_constant final0 in
          let th := estimator (columns R final) y_full in
          code_rows codes final = Return fm
          /\ prune_condition h th = Return p
          /\ r = if p
                 then mk_fitted (tl fm) (tl th) (length (tl th)) (tl final)
                                t st2
                 else mk_fitted fm th (length th) final t st2.
Proof.
  unfold fit. intros H. set (y := skipn max_lag y_full) in *.
  destruct (permutation_estimates permutation mutual_information
              n_perm (gen st) y) as [[ests g1]| |] eqn:E; simpl in H;
    try discriminate.
  destruct (quantile ests q) as [t| |] eqn:Q; simpl in H; try discriminate.
  destruct (if negb skip_forward
            then entropic_regression_forward permutation
                   mutual_information cmi pinv_project n_perm q
                   (mk_state t g1) R y
            else Return ([], false, mk_state t g1))
    as [[[selected0 success] st2]| |] eqn:F; simpl in H; try discriminate.
  destruct (entropic_regression_backward cmi pinv_project st2 _ y _)
    as [kept| |] eqn:B; simpl in H; try discriminate.
  destruct (index_by _ kept) as [final0| |] eqn:I; simpl in H; try discriminate.
  destruct (code_rows codes (recheck_constant final0)) as [fm| |] eqn:C;
    simpl in H; try discriminate.
  destruct (prune_condition h _) as [p| |] eqn:P; simpl in H; try discriminate.
  exists ests, g1, t, selected0, success, st2, kept, final0, fm, p.
  repeat (split; [first [reflexivity|assumption]|]).
  destruct p; inversion H; reflexivity.
Qed.

Lemma recheck_constant_In (l : list nat) : In 0 (recheck_constant l).
Proof.
  unfold recheck_constant. destruct (existsb (Nat.eqb 0) l) eqn:E.
  - apply existsb_eqb_In. exact E.
  - left. reflexivity.
Qed.

Lemma recheck_constant_cases (l : list nat) :
  (In 0 l -> recheck_constant l = l)
  /\ (~ In 0 l -> recheck_constant l = 0 :: l).
Proof.
  unfold recheck_constant. destruct (existsb (Nat.eqb 0) l) eqn:E.
  - apply existsb_eqb_In in E. tauto.
  - split; [|reflexivity]. intros H. apply existsb_eqb_In in H. congruence.
Qed.

Lemma code_rows_length (codes fm : list code) (l : list nat) :
  code_rows codes l = Return fm -> length fm = length l.
Proof.
  unfold code_rows. intros H. apply sequence_length in H.
  rewrite H, length_map. reflexivity.
Qed.

Lemma prune_condition_true (th : list float64) :
  prune_condition h th = Return true -> 2 <= length th.
Proof.
  unfold prune_condition. destruct th as [|t0 th']; [discriminate|].
  intros H. injection H as E. apply andb_prop in E as [_ E].
  apply Nat.ltb_lt in E.
  pose proof (filter_length_le F.nonzero (t0 :: th')) as L.
  simpl in L. simpl. lia.
Qed.

Lemma prune_condition_nonempty (th : list float64) (p : bool) :
  prune_condition h th = Return p -> th <> [].
Proof. destruct th; simpl; [discriminate|discriminate]. Qed.

Lemma tl_length (A : Type) (l : list A) : length (tl l) = length l - 1.
Proof. destruct l; simpl; lia. Qed.

Lemma length_nonempty (A : Type) (l : list A) : 1 <= length l -> l <> [].
Proof. destruct l; simpl; [lia|discriminate]. Qed.

(** C1, as the code has it.  When [fit] returns, [final0] being the index
    set that selection and elimination arrive at (the selected columns at
    the positions the eliminator kept), the set after the re-check is
    [final0] when it holds column 0 and [0 :: final0] when it does not, so
    it holds column 0; the stored [pivv], [theta] and [final_model] are
    that set, the coefficients estimated on its columns and the rows of
    the code table at its indices, each without its first entry when the
    pruning fired; and with an estimator that gives one coefficient per
    column, [final_model], [theta] and [pivv] have one entry each per term
    and are never empty. *)
Theorem fit_model_never_empty
  (st : er_state rng) R (codes : list code) y_full max_lag
  (r : fitted rng code) :
  (forall A y, length (estimator A y) = length A) ->
  fit permutation mutual_information cmi pinv_project estimator n_perm q h
      skip_forward st R codes (Some y_full) max_lag = Return r ->
  let y := skipn max_lag y_full in
  exists ests g1 selected0 success kept final0 final p,
    permutation_estimates permutation mutual_information n_perm (gen st) y
    = Return (ests, g1)
    /\ quantile ests q = Return (estimated_tolerance r)
    /\ (if negb skip_forward
        then entropic_regression_forward permutation mutual_information cmi
               pinv_project n_perm q
               (mk_state (estimated_tolerance r) g1) R y
        else Return ([], false, mk_state (estimated_tolerance r) g1))
       = Return (selected0, success, state r)
    /\ (let selected := if negb success || skip_forward
                        then seq 0 (length R) else selected0 in
        entropic_regression_backward cmi pinv_project (state r)
                                     (columns R selected) y
                                     (seq 0 (length selected))
        = Return kept
        /\ index_by selected kept = Return final0)
    /\ final = recheck_constant final0
    /\ (In 0 final0 -> final = final0)
    /\ (~ In 0 final0 -> final = 0 :: final0)
    /\ In 0 final
    /\ prune_condition h (estimator (columns R final) y_full) = Return p
    /\ pivv r = (if p then tl final else final)
    /\ theta r = (if p then tl (estimator (columns R final) y_full)
                 else estimator (columns R final) y_full)
    /\ (exists fm,
          code_rows codes final = Return fm
          /\ final_model r = if p then tl fm else fm)
    /\ (pivv r = final \/ pivv r = tl final)
    /\ pivv r <> [] /\ theta r <> [] /\ final_model r <> []
    /\ length (theta r) = length (pivv r)
    /\ length (final_model r) = length (pivv r)
    /\ n_terms r = length (theta r).
Proof.
  intros Hest H. apply fit_steps in H. cbv zeta in H.
  destruct H as (ests & g1 & t & selected0 & success & st2 & kept & final0
                 & fm & p & E & Qt & Fw & B & Ix & C & P & ->).
  intros y. fold y in E, Fw, B.
  set (final := recheck_constant final0) in *.
  set (th := estimator (columns R final) y_full) in *.
  assert (forall (b : bool) (u v : fitted rng code),
             estimated_tolerance u = t -> estimated_tolerance v = t ->
             state u = st2 -> state v = st2 ->
             estimated_tolerance (if b then u else v) = t
             /\ state (if b then u else v) = st2) as Sel
      by (intros [] u v; auto).
  match goal with
  | |- context [if p then ?u else ?v] =>
      destruct (Sel p u v eq_refl eq_refl eq_refl eq_refl) as [Et Es]
  end.
  exists ests, g1, selected0, success, kept, final0, final, p.
  rewrite Et, Es.
  destruct (recheck_constant_cases final0) as [K1 K2].
  assert (length th = length final) as Lth.
  { unfold th. rewrite Hest. unfold columns. apply length_map. }
  pose proof (code_rows_length _ _ C) as Lfm.
  pose proof (@prune_condition_nonempty th p P) as Nth.
  split; [exact E|]. split; [exact Qt|]. split; [exact Fw|].
  split; [split; [exact B|exact Ix]|]. split; [reflexivity|].
  split; [exact K1|]. split; [exact K2|].
  split; [apply recheck_constant_In|]. split; [exact P|].
  destruct p; cbn [pivv theta final_model n_terms].
  - apply prune_condition_true in P.
    split; [reflexivity|]. split; [reflexivity|].
    split; [exists fm; split; [exact C|reflexivity]|].
    split; [right; reflexivity|].
    repeat split; try (apply length_nonempty; rewrite tl_length; lia);
      rewrite !tl_length; lia.
  - split; [reflexivity|]. split; [reflexivity|].
    split; [exists fm; split; [exact C|reflexivity]|].
    split; [left; reflexivity|].
    assert (1 <= length th) by (destruct th; simpl; [congruence|lia]).
    repeat split; try (apply length_nonempty; lia); lia.
Qed.

(** C2, as the code has it.  [fit] computes a tolerance from the trimmed
    target and stores it as [estimated_tolerance].  With [skip_forward] that
    value stays in [self.tol] and elimination starts from all columns.
    Otherwise the forward selector draws [n_perm] further permutations from
    the advanced generator and overwrites [self.tol] with their quantile;
    the forward loop runs on this second value, and elimination starts from
    what the loop selected, or from all columns when it failed.  Either way
    the elimination loop that decides the stored [pivv] compares its gains
    against the value left in [self.tol]. *)
Theorem fit_tolerance_flow
  (st : er_state rng) R (codes : list code) y_full max_lag
  (r : fitted rng code) :
  fit permutation mutual_information cmi pinv_project estimator n_perm q h
      skip_forward st R codes (Some y_full) max_lag = Return r ->
  let y := skipn max_lag y_full in
  exists ests g1 selected kept final0 p,
    permutation_estimates permutation mutual_information n_perm (gen st) y
    = Return (ests, g1)
    /\ quantile ests q = Return (estimated_tolerance r)
    /\ (skip_forward = true ->
        state r = mk_state (estimated_tolerance r) g1
        /\ selected = seq 0 (length R))
    /\ (skip_forward = false ->
        exists ests2 ksg_max s b,
          permutation_estimates permutation mutual_information n_perm g1 y
          = Return (ests2, gen (state r))
          /\ quantile ests2 q = Return (tol (state r))
          /\ mutual_information y (pinv_project R y) = Return ksg_max
          /\ forward_loop mutual_information cmi pinv_project
                          (length R + 11) (tol (state r)) ksg_max R y [] None
             = Return (s, b)
          /\ selected = if b then s else seq 0 (length R))
    /\ backward_loop cmi pinv_project (length selected) (tol (state r))
                     (columns R selected) y NegInf (seq 0 (length selected))
       = Return kept
    /\ index_by selected kept = Return final0
    /\ prune_condition
         h (estimator (columns R (recheck_constant final0)) y_full)
       = Return p
    /\ pivv r = (if p then tl (recheck_constant final0)
                 else recheck_constant final0).
Proof.
  intros H. apply fit_steps in H. cbv zeta in H.
  destruct H as (ests & g1 & t & selected0 & success & st2 & kept & final0
                 & fm & p & E & Qt & Fw & B & Ix & _ & P & ->).
  intros y. fold y in E, Fw, B.
  assert (forall (b : bool) (u v : fitted rng code),
             estimated_tolerance u = t -> estimated_tolerance v = t ->
             state u = st2 -> state v = st2 ->
             estimated_tolerance (if b then u else v) = t
             /\ state (if b then u else v) = st2) as Sel
      by (intros [] u v; auto).
  match goal with
  | |- context [if p then ?u else ?v] =>
      destruct (Sel p u v eq_refl eq_refl eq_refl eq_refl) as [Et Es]
  end.
  set (selected := if negb success || skip_forward
                   then seq 0 (length R) else selected0) in *.
  exists ests, g1, selected, kept, final0, p. rewrite Et, Es.
  split; [exact E|]. split; [exact Qt|]. split; [|split; [|split]].
  - intros Hs. unfold selected. rewrite Hs in *. simpl in Fw.
    inversion Fw. rewrite orb_true_r. split; reflexivity.
  - intros Hs. unfold selected. rewrite Hs in *. simpl in Fw.
    unfold entropic_regression_forward,
      tolerance_estimator in Fw. simpl in Fw.
    destruct (permutation_estimates permutation mutual_information
                n_perm g1 y) as [[ests2 g2]| |] eqn:E2; simpl in Fw;
      try discriminate.
    destruct (quantile ests2 q) as [t2| |] eqn:Q2; simpl in Fw;
      try discriminate.
    destruct (mutual_information y (pinv_project R y)) as [ksg_max| |] eqn:K;
      simpl in Fw; try discriminate.
    destruct (forward_loop mutual_information cmi pinv_project
                (length R + 11) t2 ksg_max R y [] None) as [[s b]| |] eqn:L;
      simpl in Fw; try discriminate.
    inversion Fw; subst. simpl.
    exists ests2, ksg_max, selected0, success.
    rewrite orb_false_r. destruct success; simpl; auto.
  - unfold entropic_regression_backward in B.
    rewrite length_seq in B. exact B.
  - split; [exact Ix|]. split; [exact P|].
    destruct p; reflexivity.
Qed.

(** C10.  When the pruning fires it drops the first entry of the
    coefficient vector, of the model and of the index set alike.  That
    entry is column 0 whenever the re-check had to prepend it; when column
    0 came out of selection at a later position, the dropped entry is
    another column and column 0 stays in the model. *)
Theorem fit_pruning_drops_first_entry
  (st : er_state rng) R (codes : list code) y_full max_lag
  (r : fitted rng code) :
  fit permutation mutual_information cmi pinv_project estimator n_perm q h
      skip_forward st R codes (Some y_full) max_lag = Return r ->
  exists final0 fm p,
    let final := recheck_constant final0 in
    let th := estimator (columns R final) y_full in
    code_rows codes final = Return fm
    /\ prune_condition h th = Return p
    /\ (p = true ->
        theta r = tl th /\ final_model r = tl fm /\ pivv r = tl final)
    /\ (p = false ->
        theta r = th /\ final_model r = fm /\ pivv r = final)
    /\ (~ In 0 final0 -> hd 0 final = 0)
    /\ (In 0 final0 -> hd 0 final0 <> 0 -> p = true ->
        hd 0 final <> 0 /\ In 0 (pivv r)).
Proof.
  intros H. apply fit_steps in H.
  destruct H as (ests & g1 & t & selected0 & success & st2 & kept & final0
                 & fm & p & _ & _ & _ & _ & _ & C & P & ->).
  exists final0, fm, p. cbv zeta.
  destruct (recheck_constant_cases final0) as [K1 K2].
  split; [exact C|]. split; [exact P|].
  split; [intros ->; auto|]. split; [intros ->; auto|]. split.
  - intros N. rewrite (K2 N). reflexivity.
  - intros I N ->. rewrite (K1 I). split; [exact N|]. simpl.
    destruct final0 as [|a l]; simpl in *; [contradiction|].
    destruct I as [->|I]; [congruence|exact I].
Qed.

Lemma permutation_estimates_draws n g y ests g' :
  permutation_estimates permutation mutual_information n g y
  = Return (ests, g') ->
  g' = draws permutation n g y.
Proof.
  revert g ests g'. induction n as [|m IH]; intros g ests g'; simpl.
  - intros H; inversion H; reflexivity.
  - destruct (permutation g y) as [y_perm g1] eqn:P. simpl.
    destruct (mutual_information y y_perm) as [v| |]; simpl; try discriminate.
    destruct (permutation_estimates permutation mutual_information m g1 y)
      as [[e g2]| |] eqn:E; simpl; try discriminate.
    intros H; inversion H; subst. apply IH in E. exact E.
Qed.

Lemma draws_add n m g y :
  draws permutation (n + m) g y
  = draws permutation m (draws permutation n g y) y.
Proof. revert g; induction n as [|n IH]; intros g; simpl; auto. Qed.

(** The estimates depend on the generator through the permutations it
    delivers only. *)
Lemma permutation_estimates_of_drawn n :
  forall (g1 g2 : rng) y,
    drawn permutation n g1 y = drawn permutation n g2 y ->
    map_outcome fst
      (permutation_estimates permutation mutual_information n g1 y)
    = map_outcome fst
        (permutation_estimates permutation mutual_information n g2 y).
Proof.
  induction n as [|m IH]; intros g1 g2 y H; [reflexivity|].
  cbn [drawn] in H. cbn [permutation_estimates].
  destruct (permutation g1 y) as [p1 h1], (permutation g2 y) as [p2 h2].
  cbn [fst snd] in H. inversion H as [[Ep Ed]]. subst p2.
  destruct (mutual_information y p1) as [v| |]; cbn [bind map_outcome];
    try reflexivity.
  specialize (IH h1 h2 y Ed).
  destruct (permutation_estimates permutation mutual_information m h1 y)
    as [[e1 k1]| |],
      (permutation_estimates permutation mutual_information m h2 y)
    as [[e2 k2]| |]; cbn [bind map_outcome fst] in *;
    congruence.
Qed.

Lemma drawn_add n m (g : rng) y :
  drawn permutation (n + m) g y
  = drawn permutation n g y ++ drawn permutation m (draws permutation n g y) y.
Proof.
  revert g; induction n as [|n IH]; intros g; [reflexivity|].
  cbn [Nat.add drawn draws app]. rewrite IH. reflexivity.
Qed.

Lemma drawn_length n (g : rng) y : length (drawn permutation n g y) = n.
Proof.
  revert g; induction n as [|n IH]; intros g; simpl; [reflexivity|].
  rewrite IH. reflexivity.
Qed.

Lemma drawn_split n m (g1 g2 : rng) y :
  drawn permutation (n + m) g1 y = drawn permutation (n + m) g2 y ->
  drawn permutation n g1 y = drawn permutation n g2 y
  /\ drawn permutation m (draws permutation n g1 y) y
     = drawn permutation m (draws permutation n g2 y) y.
Proof.
  rewrite !drawn_add. intros H.
  assert (length (drawn permutation n g1 y)
          = length (drawn permutation n g2 y)) as L
      by (rewrite !drawn_length; reflexivity).
  revert H L. generalize (drawn permutation n g1 y) as a.
  generalize (drawn permutation n g2 y) as b.
  intros b a. revert b.
  induction a as [|x a IH]; intros [|z b] H L; simpl in *; try discriminate.
  - auto.
  - inversion H; subst. destruct (IH b) as [-> E]; auto.
Qed.

(** From the selection on, [fit] reads the instance through [self.tol]
    only. *)
Lemma fit_tail_values t R (codes : list code) y y_full sel0 succ
      (sa sb : er_state rng) :
  tol sa = tol sb ->
  map_outcome fitted_values
    (let selected_terms :=
       if negb succ || skip_forward then seq 0 (length R) else sel0 in
     selected_terms_backward <-
       entropic_regression_backward cmi pinv_project sa
         (columns R selected_terms) y (seq 0 (length selected_terms)) ;;
     final0 <- index_by selected_terms selected_terms_backward ;;
     let final := recheck_constant final0 in
     fm <- code_rows codes final ;;
     let th := estimator (columns R final) y_full in
     p <- prune_condition h th ;;
     let '(th, fm, final) :=
       if p then (tl th, tl fm, tl final) else (th, fm, final) in
     Return (mk_fitted fm th (length th) final t sa))
  = map_outcome fitted_values
      (let selected_terms :=
         if negb succ || skip_forward then seq 0 (length R) else sel0 in
       selected_terms_backward <-
         entropic_regression_backward cmi pinv_project sb
           (columns R selected_terms) y (seq 0 (length selected_terms)) ;;
       final0 <- index_by selected_terms selected_terms_backward ;;
       let final := recheck_constant final0 in
       fm <- code_rows codes final ;;
       let th := estimator (columns R final) y_full in
       p <- prune_condition h th ;;
       let '(th, fm, final) :=
         if p then (tl th, tl fm, tl final) else (th, fm, final) in
       Return (mk_fitted fm th (length th) final t sb)).
Proof.
  intros E. cbv zeta. unfold entropic_regression_backward. rewrite E.
  destruct (backward_loop _ _ _ _ _ _ _ _) as [kept| |]; cbn [bind map_outcome];
    try reflexivity.
  destruct (index_by _ kept) as [final0| |]; cbn [bind map_outcome];
    try reflexivity.
  destruct (code_rows codes _) as [fm| |]; cbn [bind map_outcome];
    try reflexivity.
  destruct (prune_condition h _) as [p| |]; cbn [bind map_outcome];
    try reflexivity.
  destruct p; cbn [map_outcome]; unfold fitted_values; cbn; rewrite E;
    reflexivity.
Qed.

(** The forward selector depends on the generator through the
    permutations it delivers only. *)
Lemma forward_of_drawn t R y (g1 g2 : rng) :
  drawn permutation n_perm g1 y = drawn permutation n_perm g2 y ->
  map_outcome (fun r : list nat * bool * er_state rng =>
                 (fst (fst r), snd (fst r), tol (snd r)))
    (entropic_regression_forward permutation mutual_information cmi
       pinv_project n_perm q (mk_state t g1) R y)
  = map_outcome (fun r : list nat * bool * er_state rng =>
                   (fst (fst r), snd (fst r), tol (snd r)))
      (entropic_regression_forward permutation mutual_information cmi
         pinv_project n_perm q (mk_state t g2) R y).
Proof.
  intros H. apply permutation_estimates_of_drawn in H.
  unfold entropic_regression_forward, tolerance_estimator. cbn [gen].
  destruct (permutation_estimates permutation mutual_information n_perm g1 y)
    as [[e1 k1]| |],
      (permutation_estimates permutation mutual_information n_perm g2 y)
    as [[e2 k2]| |]; cbn [bind map_outcome fst snd] in *; try congruence.
  assert (e1 = e2) as -> by congruence.
  destruct (quantile e2 q) as [t2| |]; cbn [bind map_outcome fst snd tol];
    try reflexivity.
  destruct (mutual_information y (pinv_project R y)) as [ksg_max| |];
    cbn [bind map_outcome]; try reflexivity.
  destruct (forward_loop _ _ _ _ _ _ _ _ _ _) as [[s b]| |];
    cbn [bind map_outcome fst snd tol]; reflexivity.
Qed.

(** C7, as the code has it.  What a returning or raising [fit] leaves
    behind, the generator apart, is a function of its arguments and of the
    permutations the generator delivers, [n_perm] of them with
    [skip_forward] and twice as many without: two instances whose
    generators deliver the same permutations of the trimmed target, as two
    generators in the same state do, and two freshly made from one seed
    are, give the same [final_model], [theta], [pivv] and tolerances on the
    same data, whatever [self.tol] held before and whatever else the
    generators differ in. *)
Theorem fit_deterministic_given_seed
  (st1 st2 : er_state rng) R (codes : list code) y_full max_lag :
  drawn permutation (if skip_forward then n_perm else n_perm + n_perm)
        (gen st1) (skipn max_lag y_full)
  = drawn permutation (if skip_forward then n_perm else n_perm + n_perm)
          (gen st2) (skipn max_lag y_full) ->
  map_outcome fitted_values
    (fit permutation mutual_information cmi pinv_project estimator n_perm q h
         skip_forward st1 R codes (Some y_full) max_lag)
  = map_outcome fitted_values
      (fit permutation mutual_information cmi pinv_project estimator n_perm q
           h skip_forward st2 R codes (Some y_full) max_lag).
Proof.
  intros H. unfold fit. set (y := skipn max_lag y_full) in *.
  assert (drawn permutation n_perm (gen st1) y
          = drawn permutation n_perm (gen st2) y
          /\ (skip_forward = false ->
              drawn permutation n_perm
                    (draws permutation n_perm (gen st1) y) y
              = drawn permutation n_perm
                      (draws permutation n_perm (gen st2) y) y))
    as [H1 H2].
  { destruct skip_forward; [split; [exact H|discriminate]|].
    apply drawn_split in H. tauto. }
  pose proof (@permutation_estimates_of_drawn _ _ _ _ H1) as P.
  destruct (permutation_estimates permutation mutual_information n_perm
              (gen st1) y) as [[e1 k1]| |] eqn:E1,
      (permutation_estimates permutation mutual_information n_perm
         (gen st2) y) as [[e2 k2]| |] eqn:E2;
    cbn [bind map_outcome fst snd] in *; try congruence.
  assert (e1 = e2) as -> by congruence.
  apply permutation_estimates_draws in E1, E2.
  destruct (quantile e2 q) as [t| |]; cbn [bind map_outcome];
    try reflexivity.
  assert (map_outcome (fun r : list nat * bool * er_state rng =>
                         (fst (fst r), snd (fst r), tol (snd r)))
            (if negb skip_forward
             then entropic_regression_forward permutation mutual_information
                    cmi pinv_project n_perm q (mk_state t k1) R y
             else Return ([], false, mk_state t k1))
          = map_outcome (fun r : list nat * bool * er_state rng =>
                           (fst (fst r), snd (fst r), tol (snd r)))
              (if negb skip_forward
               then entropic_regression_forward permutation
                      mutual_information cmi pinv_project n_perm q
                      (mk_state t k2) R y
               else Return ([], false, mk_state t k2))) as Fw.
  { destruct skip_forward; cbn [negb]; [reflexivity|].
    apply forward_of_drawn. rewrite E1, E2. apply H2. reflexivity. }
  cbn [tol].
  destruct (if negb skip_forward
            then entropic_regression_forward permutation mutual_information
                   cmi pinv_project n_perm q (mk_state t k1) R y
            else Return ([], false, mk_state t k1))
    as [[[s1 b1] sa]| |],
      (if negb skip_forward
       then entropic_regression_forward permutation mutual_information
              cmi pinv_project n_perm q (mk_state t k2) R y
       else Return ([], false, mk_state t k2))
    as [[[s2 b2] sb]| |];
    cbn [bind map_outcome fst snd] in *; try congruence.
  inversion Fw; subst. apply fit_tail_values. assumption.
Qed.

End FitFacts.

(** ** Construction *)

Module ConfigFacts.

Import String.
Import Config.

Lemma raise_f_not_return (e : exn) (v : pyval) (u : unit) :
  Py.raise_f e v <> Return u.
Proof. unfold Py.raise_f. destruct (Py.number v); discriminate. Qed.

Lemma guard_inv (c : bool) (e rest : outcome unit) (u : unit) :
  (forall u', e <> Return u') ->
  guard c e rest = Return u -> c = false /\ rest = Return u.
Proof.
  unfold guard. destruct c; intros He H; [|auto].
  exfalso. exact (He u H).
Qed.

Lemma positive_integer_of_guard (v : pyval) :
  negb (Py.is_int v) || Py.lt_lit v 1 = false -> positive_integer v.
Proof.
  destruct v as [| b | z | x | s | l]; simpl; try discriminate.
  - destruct b; simpl; [reflexivity|]. unfold Py.lt_lit; simpl. discriminate.
  - unfold Py.lt_lit; simpl. intros H. apply negb_false_iff in H.
    apply Qle_bool_iff in H. unfold Qle in H; simpl in H. lia.
Qed.

Lemma float_in_unit_interval_of_guard (v : pyval) :
  v <> PyFloat NaN ->
  negb (Py.is_float v) || Py.gt_lit v 1 || Py.le_lit v 0 = false ->
  float_in_unit_interval v.
Proof.
  destruct v as [| b | z | x | s | l]; simpl; try discriminate.
  intros Hn H. apply orb_false_elim in H as [H1 H2].
  unfold Py.gt_lit, Py.le_lit in *; simpl in *.
  destruct x as [| |x|]; simpl in *; try discriminate; [congruence|].
  apply negb_false_iff, Qle_bool_iff in H1. split; [|exact H1].
  apply Qle_bool_false. exact H2.
Qed.

Lemma supported_model_type_of_guard (v : pyval) :
  negb (Py.is_model_type v) = false -> supported_model_type v.
Proof.
  unfold supported_model_type.
  destruct v as [| b | z | x | s | l]; simpl; try discriminate.
  intros H. apply negb_false_iff in H.
  apply orb_prop in H as [H|H]; [apply orb_prop in H as [H|H]|];
    apply String.eqb_eq in H; subst; auto.
Qed.

(** Parameters that pass the validation are as documented, the quantile
    apart when it is NaN. *)
Lemma validate_accepts (s : er_params) :
  _validate_params s = Return tt ->
  positive_integer (k s)
  /\ positive_integer (n_perm s)
  /\ (q s <> PyFloat NaN -> float_in_unit_interval (q s))
  /\ boolean (skip_forward s)
  /\ supported_model_type (model_type s).
Proof.
  unfold _validate_params. intros H.
  repeat match type of H with
         | guard _ _ _ = Return _ =>
             let C := fresh "C" in
             apply guard_inv in H as [C H];
             [|first [ intros ?; apply raise_f_not_return
                     | intros ?; discriminate ]]
         end.
  repeat split.
  - apply positive_integer_of_guard; assumption.
  - apply positive_integer_of_guard; assumption.
  - intros N. apply float_in_unit_interval_of_guard; assumption.
  - destruct (skip_forward s); simpl in *; try discriminate; exact I.
  - apply supported_model_type_of_guard; assumption.
Qed.

(** Apart from a NaN quantile, parameters that are not as documented never
    yield an instance. *)
Lemma init_rejects (before after : outcome unit) (s r : er_params) :
  q s <> PyFloat NaN ->
  ~ (positive_integer (k s) /\ positive_integer (n_perm s)
     /\ float_in_unit_interval (q s) /\ boolean (skip_forward s)
     /\ supported_model_type (model_type s)) ->
  __init__ before after s <> Return r.
Proof.
  intros Hq Hbad H. apply Hbad. unfold __init__ in H.
  destruct before as [[]| |]; simpl in H; try discriminate.
  destruct (_validate_params s) as [[]| |] eqn:V; simpl in H; try discriminate.
  apply validate_accepts in V. tauto.
Qed.

(** C8.  The quantile test [q > 1 or q <= 0] is false for NaN, so a
    constructor call with a NaN quantile and every other parameter at
    its default passes the validation and yields an instance, although NaN
    is not a float in (0, 1]. *)
Theorem init_accepts_nan_quantile :
  let s := with_q (PyFloat NaN) in
  ~ float_in_unit_interval (q s)
  /\ _validate_params s = Return tt
  /\ __init__ (Return tt) (Return tt) s = Return s.
Proof.
  simpl. split; [tauto|]. split; reflexivity.
Qed.

End ConfigFacts.

(** ** The quantile and the tolerance estimator *)





















Section ToleranceFacts.

Variable rng : Type.
Variable permutation : rng -> list Q -> list Q * rng.
Variable mutual_information : list Q -> list Q -> outcome float64.
Variable n_perm : nat.



End ToleranceFacts.

(** ** Neighbour counts of the KSG estimators *)

Lemma count_other_index (A : Type) (P : A -> bool) (c : nat) (r : list A) :
  forall s, c < s ->
    length (filter (fun jb : nat * A => negb (fst jb =? c) && P (snd jb))
                   (combine (seq s (length r)) r))
    = length (filter P r).
Proof.
  induction r as [|x r IH]; intros s Hs; [reflexivity|].
  cbn [length seq combine filter fst snd].
  assert ((s =? c) = false) as -> by (apply Nat.eqb_neq; lia).
  cbn [negb andb].
  destruct (P x); cbn [length]; rewrite IH by lia; reflexivity.
Qed.

(** A point that passes the test is counted once among all the points. *)
Lemma count_split (A : Type) (P : A -> bool) (d : A) (X : list A) :
  forall s c, s <= c -> c - s < length X ->
    length (filter P X)
    = length (filter (fun jb : nat * A => negb (fst jb =? c) && P (snd jb))
                     (combine (seq s (length X)) X))
      + (if P (nth (c - s) X d) then 1 else 0).
Proof.
  induction X as [|x r IH]; intros s c Hs Hc; simpl in Hc; [lia|].
  cbn [length seq combine filter fst snd].
  destruct (Nat.eq_dec s c) as [->|Hne].
  - rewrite Nat.eqb_refl, Nat.sub_diag. cbn [negb andb nth].
    rewrite (count_other_index P r (c := c) (s := S c)) by lia.
    destruct (P x); cbn [length]; lia.
  - assert ((s =? c) = false) as -> by (apply Nat.eqb_neq; lia).
    cbn [negb andb].
    replace (c - s) with (S (c - S s)) by lia. cbn [nth].
    destruct (P x); cbn [length]; rewrite (IH (S s) c) by lia; lia.
Qed.

Lemma combine_map_l (A B C : Type) (f : A -> B) (l : list A) (l' : list C) :
  combine (map f l) l' = map (fun p => (f (fst p), snd p)) (combine l l').
Proof.
  revert l'; induction l as [|x l IH]; intros [|y l']; simpl; auto.
  rewrite IH. reflexivity.
Qed.

Lemma filter_map_length (A B : Type) (P : B -> bool) (g : A -> B) (l : list A) :
  length (filter P (map g l)) = length (filter (fun b => P (g b)) l).
Proof.
  induction l as [|x l IH]; simpl; [reflexivity|].
  destruct (P (g x)); simpl; rewrite IH; reflexivity.
Qed.

Lemma map_combine_index (B : Type) (g : list Q * Q -> B) (X : list (list Q)) :
  forall (pre : list (list Q)) (eps : list Q),
    map g (combine X eps)
    = map (fun ie : nat * Q => g (nth (fst ie) (pre ++ X) [], snd ie))
          (combine (seq (length pre) (length X)) eps).
Proof.
  induction X as [|x r IH]; intros pre eps; simpl; [reflexivity|].
  destruct eps as [|e es]; simpl; [reflexivity|].
  rewrite nth_middle. f_equal.
  rewrite (IH (pre ++ [x]) es). rewrite length_app. simpl.
  rewrite Nat.add_1_r.
  apply map_ext. intros [i e']. simpl.
  rewrite <- app_assoc. reflexivity.
Qed.

Section KSGFacts.

Variable minkowski : list Q -> list Q -> Q.
Variable argpartition : list Q -> nat -> list nat.
Variable psi : Z -> float64.
Variable k : nat.

Hypothesis self_distance : forall a, (minkowski a a == 0)%Q.
Hypothesis distance_nonneg : forall a b, (0 <= minkowski a b)%Q.

(** The code's count, [sum(...) - 1], is the number of other points within
    the radius where the radius is positive and [-1] where it is zero. *)
Lemma neighbours_are_radius_counts (X : list (list Q)) (eps : list Q) :
  neighbours_minus_one minkowski X eps = radius_counts minkowski X eps.
Proof.
  unfold neighbours_minus_one, radius_counts, cdist.
  rewrite combine_map_l, map_map.
  rewrite (map_combine_index _ X [] eps). simpl.
  apply map_ext_in. intros [i e] Hin. cbn [fst snd].
  rewrite filter_map_length.
  apply in_combine_l in Hin. apply in_seq in Hin. simpl in Hin.
  destruct Hin as [_ Hi].
  destruct (Qltb 0 e) eqn:E.
  - apply Qltb_lt in E.
    rewrite (count_split (fun b => Qltb (minkowski (nth i X []) b) e) []
                         X (s := 0) (c := i)) by lia.
    rewrite Nat.sub_0_r.
    assert (Qltb (minkowski (nth i X []) (nth i X [])) e = true) as ->.
    { apply Qltb_lt. rewrite self_distance. exact E. }
    unfold others_within. simpl. lia.
  - assert (forall l,
               filter (fun b => Qltb (minkowski (nth i X []) b) e) l = [])
      as ->; [|reflexivity].
    induction l as [|b l IH]; [reflexivity|]. cbn [filter].
    assert (Qltb (minkowski (nth i X []) b) e = false) as ->; [|exact IH].
    destruct (Qltb (minkowski (nth i X []) b) e) eqn:L; [|reflexivity].
    apply Qltb_lt in L.
    assert (0 < e)%Q as P
        by (eapply Qle_lt_trans; [apply distance_nonneg|exact L]).
    apply Qltb_lt in P. congruence.
Qed.

Lemma radius_counts_positive (X : list (list Q)) (eps : list Q) :
  Forall (fun e => 0 < e)%Q eps ->
  radius_counts minkowski X eps = others_counts minkowski X eps.
Proof.
  intros H. unfold radius_counts, others_counts.
  apply map_ext_in. intros [i e] Hin. apply in_combine_r in Hin.
  rewrite Forall_forall in H. specialize (H e Hin). cbn [fst snd].
  apply Qltb_lt in H. rewrite H. reflexivity.
Qed.

(** C5, as the code has it.  The conditional estimate is digamma(k) minus
    the mean over the finite terms of digamma(y_f2+1) + digamma(f1_f2+1)
    - digamma(f2_f2+1), each count being the number of points within the
    sample's radius, the sample included, minus one: the number of other
    points where the radius is positive, and [-1] where it is zero.  When
    every radius is positive this is the estimate over counts of other
    points. *)
Theorem cmi_counts_within_radius (y f1 f2 : list Q) :
  conditional_mutual_information minkowski argpartition psi k y f1 f2
  = cmi_formula minkowski argpartition psi k (radius_counts minkowski) y f1 f2
  /\ (forall joint eps,
        concatenate [y; f1; f2] = Return joint ->
        epsilon minkowski argpartition k joint = Return eps ->
        Forall (fun e => 0 < e)%Q eps ->
        conditional_mutual_information minkowski argpartition psi k y f1 f2
        = cmi_spec minkowski argpartition psi k y f1 f2).
Proof.
  assert (conditional_mutual_information minkowski argpartition psi k y f1 f2
          = cmi_formula minkowski argpartition psi k
                        (radius_counts minkowski) y f1 f2)
    as E.
  { unfold conditional_mutual_information, cmi_formula.
    destruct (concatenate [y; f1; f2]) as [joint| |]; cbn [bind]; auto.
    destruct (epsilon minkowski argpartition k joint) as [eps| |];
      cbn [bind]; auto.
    destruct (concatenate [y; f2]) as [s1| |]; cbn [bind]; auto.
    destruct (concatenate [f1; f2]) as [s2| |]; cbn [bind]; auto.
    rewrite !neighbours_are_radius_counts. reflexivity. }
  split; [exact E|].
  intros joint eps J Ep Pos. rewrite E. unfold cmi_spec, cmi_formula.
  rewrite J. cbn [bind]. rewrite Ep. cbn [bind].
  destruct (concatenate [y; f2]) as [s1| |]; cbn [bind]; auto.
  destruct (concatenate [f1; f2]) as [s2| |]; cbn [bind]; auto.
  rewrite !(radius_counts_positive _ Pos). reflexivity.
Qed.

End KSGFacts.

(** ** The radius vector *)

Lemma insert_sorted_In (x z : Q) (l : list Q) :
  In z (insert_sorted x l) <-> z = x \/ In z l.
Proof.
  induction l as [|y r IH]; simpl; [intuition|].
  destruct (Qle_bool x y); simpl; [intuition|]. rewrite IH. intuition.
Qed.

Lemma insert_sorted_length (x : Q) (l : list Q) :
  length (insert_sorted x l) = S (length l).
Proof.
  induction l as [|y r IH]; simpl; [reflexivity|].
  destruct (Qle_bool x y); simpl; [reflexivity|]. rewrite IH. reflexivity.
Qed.

Lemma sort_row_length (l : list Q) : length (sort_row l) = length l.
Proof.
  induction l as [|x r IH]; [reflexivity|].
  change (sort_row (x :: r)) with (insert_sorted x (sort_row r)).
  rewrite insert_sorted_length, IH. reflexivity.
Qed.

Lemma insert_sorted_sorted (x : Q) (l : list Q) :
  StronglySorted Qle l -> StronglySorted Qle (insert_sorted x l).
Proof.
  induction 1 as [|y r Hr IH Hy]; simpl.
  - constructor; constructor.
  - destruct (Qle_bool x y) eqn:E.
    + apply Qle_bool_iff in E.
      constructor; [constructor; assumption|].
      constructor; [exact E|].
      apply Forall_forall. intros z Hz. rewrite Forall_forall in Hy.
      eapply Qle_trans; [exact E|apply Hy; exact Hz].
    + apply Qle_bool_false in E.
      constructor; [exact IH|].
      apply Forall_forall. intros z Hz. apply insert_sorted_In in Hz as [->|Hz].
      * apply Qlt_le_weak. exact E.
      * rewrite Forall_forall in Hy. apply Hy. exact Hz.
Qed.

Lemma sort_row_sorted (l : list Q) : StronglySorted Qle (sort_row l).
Proof.
  induction l as [|x r IH]; [constructor|].
  change (sort_row (x :: r)) with (insert_sorted x (sort_row r)).
  apply insert_sorted_sorted. exact IH.
Qed.

Lemma Qsorted_nth (l : list Q) :
  StronglySorted Qle l ->
  forall i j, i <= j -> j < length l -> (nth i l 0 <= nth j l 0)%Q.
Proof.
  induction 1 as [|x r Hr IH Hx]; intros i j Hij Hj; simpl in Hj; [lia|].
  destruct j as [|j].
  - assert (i = 0) as -> by lia. apply Qle_refl.
  - destruct i as [|i]; simpl.
    + rewrite Forall_forall in Hx. apply Hx. apply nth_In. lia.
    + apply IH; lia.
Qed.

(** On a sorted array the largest of the first [k+1] entries is entry
    [k]. *)
Lemma fold_max_sorted (r : list Q) (d : Q) :
  forall x, StronglySorted Qle (x :: r) ->
  fold_left (fun m v => if Qle_bool m v then v else m) r x = last (x :: r) d.
Proof.
  induction r as [|y r IH]; intros x H; [reflexivity|].
  inversion H as [|? ? Hr Hx]; subst.
  inversion Hx as [|? ? Hxy _]; subst.
  apply Qle_bool_iff in Hxy. cbn [fold_left]. rewrite Hxy.
  rewrite IH by exact Hr. reflexivity.
Qed.

Lemma firstn_subset (A : Type) (l : list A) (n : nat) (z : A) :
  In z (firstn n l) -> In z l.
Proof.
  revert n; induction l as [|x r IH]; intros [|n]; simpl; try tauto.
  intros [H|H]; [left; exact H|right; eapply IH; exact H].
Qed.

Lemma firstn_sorted (l : list Q) (n : nat) :
  StronglySorted Qle l -> StronglySorted Qle (firstn n l).
Proof.
  intros H. revert n. induction H as [|x r Hr IH Hx]; intros [|n]; simpl;
    try constructor; auto.
  apply Forall_forall. intros z Hz. apply firstn_subset in Hz.
  rewrite Forall_forall in Hx. auto.
Qed.

Lemma last_firstn (A : Type) (l : list A) (n : nat) (d : A) :
  n < length l -> last (firstn (n + 1) l) d = nth n l d.
Proof.
  revert n; induction l as [|x r IH]; intros n H; simpl in H; [lia|].
  destruct n as [|n]; simpl.
  - destruct r; reflexivity.
  - rewrite <- (IH n) by lia. destruct r as [|y r]; [simpl in H; lia|].
    replace (n + 1) with (S n) by lia. reflexivity.
Qed.

Lemma Qmaximum_sorted (l : list Q) (n : nat) :
  StronglySorted Qle l -> n < length l ->
  Qmaximum (firstn (n + 1) l) = nth n l 0%Q.
Proof.
  intros H Hn. rewrite <- (last_firstn l 0%Q Hn).
  pose proof (firstn_sorted (n + 1) H) as Hsrt.
  destruct l as [|x r]; [simpl in Hn; lia|].
  replace (n + 1) with (S n) in * by lia. cbn [firstn] in *.
  unfold Qmaximum. rewrite (fold_max_sorted 0%Q Hsrt). reflexivity.
Qed.

Lemma In_firstn_nth (A : Type) (l : list A) (d : A) :
  forall pos n, pos < n -> pos < length l -> In (nth pos l d) (firstn n l).
Proof.
  induction l as [|x r IH]; intros pos n Hn Hl; simpl in Hl; [lia|].
  destruct n as [|n]; [lia|]. destruct pos as [|pos]; simpl.
  - left. reflexivity.
  - right. apply IH; lia.
Qed.

(** With no tie between entries [k] and [k+1] of a sorted array, every
    admissible partition at [k+1] keeps the indices [0..k] in front. *)
Lemma partition_keeps_front (a : list Q) (k : nat) (idx : list nat) :
  StronglySorted Qle a -> k + 1 < length a ->
  (nth k a 0 < nth (k + 1) a 0)%Q ->
  partition_contract a (k + 1) idx ->
  nth k idx 0 <= k.
Proof.
  intros Hs Hk Hgap (Hperm & Hlow & Hhigh).
  destruct (le_gt_dec (nth k idx 0) k) as [|Hj]; [assumption|exfalso].
  pose proof (Permutation_length Hperm) as Hlen. rewrite length_seq in Hlen.
  assert (forall m, In m idx <-> m < length a) as Hin.
  { intros m. split; intros H.
    - apply (Permutation_in _ Hperm) in H. apply in_seq in H. lia.
    - apply (Permutation_in _ (Permutation_sym Hperm)). apply in_seq. lia. }
  set (j := nth k idx 0) in *.
  assert (j < length a) as Hjn by (apply Hin, nth_In; lia).
  set (v := nth (nth (k + 1) idx 0) a 0%Q) in *.
  assert (nth k a 0 < v)%Q as Hv.
  { eapply Qlt_le_trans; [exact Hgap|].
    eapply Qle_trans; [apply (Qsorted_nth Hs (i := k + 1) (j := j)); lia|].
    apply Hlow. lia. }
  assert (incl (seq 0 (k + 1)) (firstn k idx)) as Hincl.
  { intros m Hm. apply in_seq in Hm.
    assert (nth m a 0 < v)%Q as Hmv.
    { eapply Qle_lt_trans; [apply (Qsorted_nth Hs (i := m) (j := k)); lia|].
      exact Hv. }
    assert (In m idx) as Hmi by (apply Hin; lia).
    destruct (In_nth _ _ 0 Hmi) as (pos & Hpos & Epos).
    rewrite <- Epos.
    apply In_firstn_nth; [|exact Hpos].
    destruct (lt_eq_lt_dec pos (k + 1)) as [[Hlt|Heq]|Hgt].
    - destruct (Nat.eq_dec pos k) as [->|]; [|lia].
      fold j in Epos. lia.
    - subst pos. unfold v in Hmv. rewrite Epos in Hmv.
      exfalso. exact (Qlt_irrefl _ Hmv).
    - specialize (Hhigh pos Hgt). rewrite Epos in Hhigh.
      exfalso. apply (Qlt_irrefl v).
      eapply Qle_lt_trans; [apply Hhigh; lia|exact Hmv]. }
  pose proof (NoDup_incl_length (seq_NoDup (k + 1) 0) Hincl) as L.
  rewrite length_seq in L. pose proof (firstn_le_length k idx). lia.
Qed.

Lemma last_map (A B : Type) (f : A -> B) (l : list A) (a : A) (b : B) :
  l <> [] -> last (map f l) b = f (last l a).
Proof.
  induction l as [|x r IH]; [congruence|]. intros _.
  destruct r as [|y r]; [reflexivity|].
  change (last (map f (x :: y :: r)) b) with (last (map f (y :: r)) b).
  change (last (x :: y :: r) a) with (last (y :: r) a).
  apply IH. discriminate.
Qed.

Lemma map_seq_nth (A B : Type) (f : A -> B) (X : list A) (d : A) :
  map (fun j => f (nth j X d)) (seq 0 (length X)) = map f X.
Proof.
  induction X as [|x X IH]; [reflexivity|].
  cbn [length seq map nth]. f_equal.
  rewrite <- seq_shift, map_map. exact IH.
Qed.

Lemma transpose_map_rows (g : list Q -> list Q -> Q) (X L : list (list Q)) :
  L <> [] ->
  transpose (map (fun a => map (fun b => g a b) X) L)
  = map (fun j => map (fun a => nth j (map (fun b => g a b) X) 0%Q) L)
        (seq 0 (length X)).
Proof.
  destruct L as [|l L']; [congruence|]. intros _.
  unfold transpose. cbn [map]. rewrite length_map.
  apply map_ext. intros j. rewrite map_map. reflexivity.
Qed.

(** The transposed distance matrix holds in row [i] the distances to point
    [i]. *)
Lemma transpose_cdist (minkowski : list Q -> list Q -> Q) (X : list (list Q)) :
  transpose (cdist minkowski X)
  = map (fun a => map (fun b => minkowski b a) X) X.
Proof.
  destruct X as [|x X']; [reflexivity|].
  set (X := x :: X'). unfold cdist.
  rewrite transpose_map_rows by discriminate.
  rewrite <- (map_seq_nth (fun a => map (fun b => minkowski b a) X) X []).
  apply map_ext_in. intros j Hj. apply in_seq in Hj.
  apply map_ext. intros a.
  rewrite (nth_indep _ 0%Q (minkowski a [])) by (rewrite length_map; lia).
  apply (map_nth (fun b => minkowski a b)).
Qed.

Section RadiusFacts.

Variable minkowski : list Q -> list Q -> Q.
Variable argpartition : list Q -> nat -> list nat.
Variable k : nat.

Hypothesis symmetric : forall a b, minkowski a b = minkowski b a.

Lemma epsilon_of_rows (X : list (list Q)) :
  sorted_distances minkowski X <> [] ->
  epsilon minkowski argpartition k X
  = let sd := sorted_distances minkowski X in
    let last_row := last sd [] in
    if k + 1 <? length last_row
    then Return
           (map (fun row =>
                   nth (last (firstn (k + 1) (argpartition last_row (k + 1))) 0)
                       row 0%Q) sd)
    else Raise ValueError.
Proof.
  unfold epsilon. destruct (sorted_distances minkowski X); [congruence|].
  reflexivity.
Qed.

(** What the code guarantees of the radius.  For more than [k+1] samples,
    an [argpartition] that keeps NumPy's documented contract and a sorted
    last row without a tie between its entries [k] and [k+1], the radius of
    sample [i] is entry [j] of the sorted row [i] of the distance matrix,
    where [j <= k] is the index that [argpartition] leaves last among the
    first [k+1]; it is one of the [k+1] smallest entries of the row, at
    most the distance to the k-th nearest neighbour, and equal to it for
    every sample when [j = k]. *)
Theorem epsilon_within_kth_neighbour (X : list (list Q)) :
  k + 1 < length X ->
  let last_row := last (sorted_distances minkowski X) [] in
  let idx := argpartition last_row (k + 1) in
  partition_contract last_row (k + 1) idx ->
  (nth k last_row 0 < nth (k + 1) last_row 0)%Q ->
  exists eps j,
    epsilon minkowski argpartition k X = Return eps
    /\ j = last (firstn (k + 1) idx) 0
    /\ j <= k
    /\ length eps = length X
    /\ (forall i, i < length X ->
          nth i eps 0%Q
          = nth j (sort_row (map (fun b => minkowski (nth i X []) b) X)) 0%Q
          /\ (nth i eps 0
              <= nth i (kth_neighbour_distance minkowski k X) 0)%Q)
    /\ (j = k -> eps = kth_neighbour_distance minkowski k X).
Proof.
  intros Hn last_row idx Hc Hgap.
  assert (X <> []) as Hne by (intros ->; simpl in Hn; lia).
  assert (sorted_distances minkowski X
          = map (fun a => sort_row (map (fun b => minkowski b a) X)) X) as Esd.
  { unfold sorted_distances. rewrite transpose_cdist, map_map. reflexivity. }
  assert (last_row = sort_row (map (fun b => minkowski b (last X [])) X)) as El.
  { unfold last_row. rewrite Esd.
    exact (@last_map _ _ (fun a => sort_row (map (fun b => minkowski b a) X))
                     X [] [] Hne). }
  assert (length last_row = length X) as Ll.
  { rewrite El, sort_row_length, length_map. reflexivity. }
  assert (StronglySorted Qle last_row) as Sl
      by (rewrite El; apply sort_row_sorted).
  pose proof (Permutation_length (proj1 Hc)) as Li. rewrite length_seq in Li.
  assert (k < length idx) as Hki by lia.
  pose proof (last_firstn idx 0 Hki) as Ej. fold idx in Ej.
  assert (k + 1 < length last_row) as Hkl by lia.
  pose proof (@partition_keeps_front last_row k idx Sl Hkl Hgap Hc) as Hj.
  set (j := last (firstn (k + 1) idx) 0) in *.
  assert (forall a, map (fun b => minkowski b a) X
                    = map (fun b => minkowski a b) X) as Sym.
  { intros a. apply map_ext. intros b. apply symmetric. }
  assert (kth_neighbour_distance minkowski k X
          = map (fun a =>
                   nth k (sort_row (map (fun b => minkowski a b) X)) 0%Q) X)
    as Ek.
  { unfold kth_neighbour_distance. apply map_ext. intros a.
    apply Qmaximum_sorted; [apply sort_row_sorted|].
    rewrite sort_row_length, length_map. lia. }
  assert (epsilon minkowski argpartition k X
          = Return
              (map (fun a =>
                      nth j (sort_row (map (fun b => minkowski a b) X)) 0%Q) X))
    as Ee.
  { rewrite epsilon_of_rows
      by (rewrite Esd; destruct X; [congruence|discriminate]).
    cbv zeta. fold last_row. fold idx. fold j.
    assert ((k + 1 <? length last_row) = true) as ->
        by (apply Nat.ltb_lt; lia).
    rewrite Esd, map_map. f_equal.
    apply map_ext. intros a. rewrite Sym. reflexivity. }
  eexists. exists j. split; [exact Ee|]. split; [reflexivity|].
  split; [lia|]. split; [apply length_map|]. split.
  - intros i Hi. rewrite Ek.
    set (f := fun a => nth j (sort_row (map (fun b => minkowski a b) X)) 0%Q).
    set (g := fun a => nth k (sort_row (map (fun b => minkowski a b) X)) 0%Q).
    rewrite (nth_indep (map f X) 0%Q (f [])) by (rewrite length_map; exact Hi).
    rewrite (nth_indep (map g X) 0%Q (g [])) by (rewrite length_map; exact Hi).
    rewrite !map_nth. split; [reflexivity|].
    unfold f, g. apply Qsorted_nth; [apply sort_row_sorted|lia|].
    rewrite sort_row_length, length_map. lia.
  - intros ->. rewrite Ek. reflexivity.
Qed.

End RadiusFacts.

(** ** The validation, parameter by parameter *)

Module ValidationFacts.

Import String.
Import Config.

Lemma lag_guards (v : pyval) :
  lag v <->
  Py.is_int v && Py.lt_lit v 1 = false /\ Py.is_int_or_list v = true.
Proof.
  destruct v as [| b | z | x | s | l]; simpl; try tauto;
    try (split; [tauto|intros [_ H]; discriminate]).
  - destruct b; unfold Py.lt_lit; simpl; split; auto; try tauto.
    intros [H _]; discriminate.
  - unfold Py.lt_lit; simpl. split.
    + intros H. split; [|reflexivity]. apply negb_false_iff.
      apply Qle_bool_iff. unfold Qle; simpl. lia.
    + intros [H _]. apply negb_false_iff, Qle_bool_iff in H.
      unfold Qle in H; simpl in H. lia.
Qed.

Lemma positive_integer_guard (v : pyval) :
  positive_integer v <-> negb (Py.is_int v) || Py.lt_lit v 1 = false.
Proof.
  destruct v as [| b | z | x | s | l]; simpl; try tauto;
    try (split; [tauto|discriminate]).
  - destruct b; unfold Py.lt_lit; simpl; split; auto; discriminate.
  - unfold Py.lt_lit; simpl. split.
    + intros H. apply negb_false_iff, Qle_bool_iff. unfold Qle; simpl. lia.
    + intros H. apply negb_false_iff, Qle_bool_iff in H.
      unfold Qle in H; simpl in H. lia.
Qed.

Lemma quantile_level_guard (v : pyval) :
  quantile_level v <->
  negb (Py.is_float v) || Py.gt_lit v 1 || Py.le_lit v 0 = false.
Proof.
  destruct v as [| b | z | x | s | l]; simpl; try tauto;
    try (split; [tauto|discriminate]).
  unfold Py.gt_lit, Py.le_lit; simpl.
  destruct x as [| |x|]; simpl; try tauto;
    try (split; [tauto|discriminate]).
  split.
  - intros [H1 H2]. apply orb_false_intro.
    + apply negb_false_iff, Qle_bool_iff. exact H2.
    + destruct (Qle_bool x (inject_Z 0)) eqn:E; [|reflexivity].
      apply Qle_bool_iff in E. exfalso. exact (Qlt_not_le _ _ H1 E).
  - intros H. apply orb_false_elim in H as [H1 H2].
    apply negb_false_iff, Qle_bool_iff in H1. split; [|exact H1].
    apply Qle_bool_false. exact H2.
Qed.

Lemma boolean_guard (v : pyval) :
  boolean v <-> negb (Py.is_bool v) = false.
Proof.
  destruct v; simpl; split; auto; try discriminate; tauto.
Qed.

Lemma supported_model_type_guard (v : pyval) :
  supported_model_type v <-> negb (Py.is_model_type v) = false.
Proof.
  split.
  - unfold supported_model_type. intros [-> | [-> | ->]]; reflexivity.
  - unfold supported_model_type.
    destruct v as [| b | z | x | s | l]; simpl; try discriminate.
    intros H. apply negb_false_iff in H.
    apply orb_prop in H as [H|H]; [apply orb_prop in H as [H|H]|];
      apply String.eqb_eq in H; subst; auto.
Qed.

Lemma guard_returns (c : bool) (e rest : outcome unit) :
  (forall u, e <> Return u) ->
  guard c e rest = Return tt <-> c = false /\ rest = Return tt.
Proof.
  intros He. unfold guard. destruct c.
  - split; [intros H; destruct (He tt H)|intros [H _]; discriminate].
  - tauto.
Qed.

Lemma raise_f_never_returns (e : exn) (v : pyval) (u : unit) :
  Py.raise_f e v <> Return u.
Proof. unfold Py.raise_f. destruct (Py.number v); discriminate. Qed.

Lemma raise_f_of_non_number (e : exn) (v : pyval) :
  Py.number v = None -> Py.raise_f (A := unit) e v = Raise TypeError.
Proof. unfold Py.raise_f. intros ->. reflexivity. Qed.

Lemma non_number_fails_integer_test (v : pyval) :
  Py.number v = None -> negb (Py.is_int v) || Py.lt_lit v 1 = true.
Proof. destruct v; simpl; auto; discriminate. Qed.

Lemma non_number_fails_float_test (v : pyval) :
  Py.number v = None ->
  negb (Py.is_float v) || Py.gt_lit v 1 || Py.le_lit v 0 = true.
Proof. destruct v; simpl; auto; discriminate. Qed.

(** X1.  [_validate_params] returns exactly for these parameters: [ylag]
    and [xlag] each a positive integer or a list, whatever the list holds;
    [k] and [n_perm] positive integers; [q] a float that is NaN or lies in
    (0, 1]; [skip_forward] and [extended_least_squares] booleans;
    [model_type] one of the three names.  [True] passes wherever a positive
    integer does. *)
Theorem validate_returns_iff (s : er_params) :
  _validate_params s = Return tt <-> accepted s.
Proof.
  unfold _validate_params, accepted.
  repeat (rewrite guard_returns;
          [|first [ intros ?; apply raise_f_never_returns
                  | intros ?; discriminate ]]).
  rewrite (lag_guards (ylag s)), (lag_guards (xlag s)).
  rewrite (positive_integer_guard (k s)), (positive_integer_guard (n_perm s)).
  rewrite (quantile_level_guard (q s)).
  rewrite (boolean_guard (skip_forward s)).
  rewrite (boolean_guard (extended_least_squares s)).
  rewrite (supported_model_type_guard (model_type s)).
  rewrite !negb_false_iff. tauto.
Qed.

(** X2.  The messages of the numeric tests are built with [%f].  With the
    lags in order, the first of [k], [n_perm] and [q] that is not a number
    (a string, a list, [None]) makes the formatting fail, and the
    validation raises [TypeError] in place of the [ValueError] it was
    building. *)
Theorem validate_type_error (s : er_params) :
  lag (ylag s) -> lag (xlag s) ->
  (Py.number (k s) = None -> _validate_params s = Raise TypeError)
  /\ (positive_integer (k s) -> Py.number (n_perm s) = None ->
      _validate_params s = Raise TypeError)
  /\ (positive_integer (k s) -> positive_integer (n_perm s) ->
      Py.number (q s) = None -> _validate_params s = Raise TypeError).
Proof.
  intros Hy Hx. apply lag_guards in Hy as [Y1 Y2], Hx as [X1 X2].
  unfold _validate_params, guard. rewrite Y1, X1, X2, Y2. cbn [negb].
  split; [|split].
  - intros Hk. rewrite (non_number_fails_integer_test _ Hk).
    apply raise_f_of_non_number. exact Hk.
  - intros Pk Hn. apply positive_integer_guard in Pk. rewrite Pk.
    rewrite (non_number_fails_integer_test _ Hn).
    apply raise_f_of_non_number. exact Hn.
  - intros Pk Pn Hq. apply positive_integer_guard in Pk, Pn.
    rewrite Pk, Pn. rewrite (non_number_fails_float_test _ Hq).
    apply raise_f_of_non_number. exact Hq.
Qed.

End ValidationFacts.

(** ** Where the estimators are defined *)

Lemma concatenate_shape
  (cols : list (list Q)) (c : list Q) (r : list (list Q)) :
  cols = c :: r ->
  (Forall (fun d => length d = length c) r ->
   exists J, concatenate cols = Return J /\ length J = length c)
  /\ (~ Forall (fun d => length d = length c) r ->
      concatenate cols = Raise ValueError).
Proof.
  intros ->. unfold concatenate.
  destruct (forallb (fun d => length d =? length c) r) eqn:E.
  - split.
    + intros _. eexists. split; [reflexivity|].
      rewrite length_map, length_seq. reflexivity.
    + intros N. exfalso. apply N. rewrite forallb_forall in E.
      apply Forall_forall. intros d Hd. apply Nat.eqb_eq. auto.
  - split; [|reflexivity].
    intros F. rewrite Forall_forall in F.
    assert (forallb (fun d => length d =? length c) r = true) as T.
    { apply forallb_forall. intros d Hd. apply Nat.eqb_eq. auto. }
    congruence.
Qed.

Section Domain.

Variable minkowski : list Q -> list Q -> Q.
Variable argpartition : list Q -> nat -> list nat.
Variable psi : Z -> float64.
Variable k : nat.

Lemma sorted_distances_rows (X : list (list Q)) :
  sorted_distances minkowski X
  = map (fun a => sort_row (map (fun b => minkowski b a) X)) X.
Proof.
  unfold sorted_distances. rewrite transpose_cdist, map_map. reflexivity.
Qed.

Lemma last_row_length (X : list (list Q)) :
  X <> [] -> length (last (sorted_distances minkowski X) []) = length X.
Proof.
  intros Hne. rewrite sorted_distances_rows.
  rewrite (@last_map _ _
             (fun a => sort_row (map (fun b => minkowski b a) X)) X [] [] Hne).
  rewrite sort_row_length, length_map. reflexivity.
Qed.

(** The radius vector exists exactly for more than [k + 1] points. *)
Lemma epsilon_domain (X : list (list Q)) :
  (X = [] -> epsilon minkowski argpartition k X = Raise IndexError)
  /\ (X <> [] -> length X <= k + 1 ->
      epsilon minkowski argpartition k X = Raise ValueError)
  /\ (k + 1 < length X ->
      exists eps, epsilon minkowski argpartition k X = Return eps
                  /\ length eps = length X).
Proof.
  split; [intros ->; reflexivity|].
  assert (X <> [] -> sorted_distances minkowski X <> []) as Hsd.
  { intros Hne E. apply (f_equal (@length _)) in E.
    rewrite sorted_distances_rows, length_map in E.
    destruct X; [congruence|discriminate]. }
  split.
  - intros Hne Hl. rewrite epsilon_of_rows by auto. cbv zeta.
    rewrite last_row_length by exact Hne.
    assert ((k + 1 <? length X) = false) as -> by (apply Nat.ltb_ge; lia).
    reflexivity.
  - intros Hl. assert (X <> []) as Hne by (intros ->; simpl in Hl; lia).
    rewrite epsilon_of_rows by auto. cbv zeta.
    rewrite last_row_length by exact Hne.
    assert ((k + 1 <? length X) = true) as -> by (apply Nat.ltb_lt; lia).
    eexists. split; [reflexivity|].
    rewrite length_map, sorted_distances_rows, length_map. reflexivity.
Qed.

Lemma knn_never_timeout_epsilon (X : list (list Q)) :
  epsilon minkowski argpartition k X <> Timeout.
Proof.
  unfold epsilon. destruct (sorted_distances minkowski X); [discriminate|].
  destruct (k + 1 <? _); discriminate.
Qed.

Lemma concatenate_never_timeout (cols : list (list Q)) :
  concatenate cols <> Timeout.
Proof.
  unfold concatenate. destruct cols; [discriminate|].
  destruct (forallb _ _); discriminate.
Qed.

(** With too few samples the radius cannot be taken. *)
Lemma mutual_information_knn_short (y y_perm : list Q) :
  length y_perm = length y -> length y <= k + 1 ->
  exists e,
    mutual_information_knn minkowski argpartition psi k y y_perm = Raise e
    /\ (y <> [] -> e = ValueError).
Proof.
  intros E H. unfold mutual_information_knn.
  destruct (@concatenate_shape [y; y_perm] y [y_perm] eq_refl) as [C _].
  destruct C as (J & -> & L); [repeat constructor; exact E|]. cbn [bind].
  destruct (epsilon_domain J) as (D1 & D2 & _).
  destruct J as [|p J'].
  - rewrite D1 by reflexivity. exists IndexError. split; [reflexivity|].
    intros N. destruct y; [congruence|discriminate].
  - rewrite D2; [|discriminate|lia]. exists ValueError. auto.
Qed.

(** X3.  [mutual_information_knn] is defined exactly on two signals of one
    length with more than [k + 1] samples.  Signals of different lengths
    raise [ValueError] in [np.concatenate]; with at most [k + 1] samples the
    call raises, and it is the [ValueError] of
    [np.argpartition(..., k + 1)] when there is a sample at all; with more
    samples it returns. *)
Theorem mutual_information_knn_domain (y y_perm : list Q) :
  (length y_perm <> length y ->
   mutual_information_knn minkowski argpartition psi k y y_perm
   = Raise ValueError)
  /\ (length y_perm = length y -> length y <= k + 1 ->
      exists e,
        mutual_information_knn minkowski argpartition psi k y y_perm = Raise e
        /\ (y <> [] -> e = ValueError))
  /\ (length y_perm = length y -> k + 1 < length y ->
      exists v,
        mutual_information_knn minkowski argpartition psi k y y_perm
        = Return v).
Proof.
  split; [|split; [apply mutual_information_knn_short|]].
  - intros N. unfold mutual_information_knn.
    destruct (@concatenate_shape [y; y_perm] y [y_perm] eq_refl) as [_ C].
    rewrite C; [reflexivity|].
    intros F. inversion F; subst. contradiction.
  - intros E H. unfold mutual_information_knn.
    destruct (@concatenate_shape [y; y_perm] y [y_perm] eq_refl) as [C _].
    destruct C as (J & -> & L); [repeat constructor; exact E|]. cbn [bind].
    destruct (epsilon_domain J) as (_ & _ & D).
    destruct D as (eps & -> & _); [lia|]. cbn [bind].
    eexists. reflexivity.
Qed.

(** X4.  The same for [conditional_mutual_information] and its three
    signals. *)
Theorem conditional_mutual_information_domain (y f1 f2 : list Q) :
  (~ (length f1 = length y /\ length f2 = length y) ->
   conditional_mutual_information minkowski argpartition psi k y f1 f2
   = Raise ValueError)
  /\ (length f1 = length y -> length f2 = length y -> length y <= k + 1 ->
      exists e,
        conditional_mutual_information minkowski argpartition psi k y f1 f2
        = Raise e
        /\ (y <> [] -> e = ValueError))
  /\ (length f1 = length y -> length f2 = length y -> k + 1 < length y ->
      exists v,
        conditional_mutual_information minkowski argpartition psi k y f1 f2
        = Return v).
Proof.
  unfold conditional_mutual_information.
  destruct (@concatenate_shape [y; f1; f2] y [f1; f2] eq_refl) as [C1 C2].
  split.
  - intros N. rewrite C2; [reflexivity|].
    intros F. inversion F as [|? ? E1 F']; subst.
    inversion F' as [|? ? E2 _]; subst. tauto.
  - assert (length f1 = length y -> length f2 = length y ->
            exists J, concatenate [y; f1; f2] = Return J
                      /\ length J = length y) as C.
    { intros E1 E2. apply C1. repeat constructor; assumption. }
    split; intros E1 E2 H; destruct (C E1 E2) as (J & -> & L);
      cbn [bind]; destruct (epsilon_domain J) as (D1 & D2 & D3).
    + destruct J as [|p J'].
      * rewrite D1 by reflexivity. exists IndexError.
        split; [reflexivity|].
        intros N. destruct y; [congruence|discriminate].
      * rewrite D2; [|discriminate|lia]. exists ValueError. auto.
    + destruct D3 as (eps & -> & _); [lia|]. cbn [bind].
      destruct (@concatenate_shape [y; f2] y [f2] eq_refl) as [K1 _].
      destruct K1 as (J1 & -> & _); [repeat constructor; assumption|].
      destruct (@concatenate_shape [f1; f2] f1 [f2] eq_refl) as [K2 _].
      destruct K2 as (J2 & -> & _); [repeat constructor; congruence|].
      cbn [bind]. eexists. reflexivity.
Qed.

Lemma mutual_information_knn_never_timeout (y y_perm : list Q) :
  mutual_information_knn minkowski argpartition psi k y y_perm <> Timeout.
Proof.
  unfold mutual_information_knn.
  apply bind_no_timeout; [apply concatenate_never_timeout|].
  intros J _. apply bind_no_timeout; [apply knn_never_timeout_epsilon|].
  discriminate.
Qed.

Lemma conditional_mutual_information_never_timeout (y f1 f2 : list Q) :
  conditional_mutual_information minkowski argpartition psi k y f1 f2
  <> Timeout.
Proof.
  unfold conditional_mutual_information.
  apply bind_no_timeout; [apply concatenate_never_timeout|].
  intros J _. apply bind_no_timeout; [apply knn_never_timeout_epsilon|].
  intros eps _. apply bind_no_timeout; [apply concatenate_never_timeout|].
  intros J1 _. apply bind_no_timeout; [apply concatenate_never_timeout|].
  discriminate.
Qed.

End Domain.

(** ** More on backward elimination *)

Lemma delete_at_NoDup (l : list nat) (ix : nat) :
  NoDup l -> NoDup (delete_at ix l).
Proof.
  revert ix; induction l as [|x r IH]; intros ix H; [destruct ix; exact H|].
  inversion H as [|? ? Hx Hr]; subst.
  destruct ix; simpl; [exact Hr|].
  constructor; [|apply IH; exact Hr].
  intros Hin. apply Hx. exact (@delete_at_incl _ r ix x Hin).
Qed.

Lemma delete_at_sorted (l : list nat) (ix : nat) :
  StronglySorted lt l -> StronglySorted lt (delete_at ix l).
Proof.
  revert ix; induction l as [|x r IH]; intros ix H; [destruct ix; exact H|].
  inversion H as [|? ? Hr Hx]; subst.
  destruct ix; simpl; [exact Hr|].
  constructor; [apply IH; exact Hr|].
  rewrite Forall_forall in *. intros z Hz. apply Hx.
  exact (@delete_at_incl _ r ix z Hz).
Qed.

Lemma unique_sorted (l : list nat) : StronglySorted lt l -> unique l = l.
Proof.
  unfold unique. induction 1 as [|x r Hr IH Hx]; [reflexivity|].
  cbn [fold_right]. rewrite IH.
  destruct r as [|z r']; [reflexivity|]. cbn [insert_unique].
  inversion Hx; subst.
  assert ((x <? z) = true) as -> by (apply Nat.ltb_lt; assumption).
  reflexivity.
Qed.

Lemma filter_all (A : Type) (P : A -> bool) (l : list A) :
  Forall (fun v => P v = true) l -> filter P l = l.
Proof.
  induction 1 as [|x r Hx _ IH]; [reflexivity|].
  simpl. rewrite Hx, IH. reflexivity.
Qed.

Lemma filter_out_position (l : list nat) (i : nat) :
  StronglySorted lt l -> i < length l ->
  filter (fun v => negb (v =? nth i l O)) l = delete_at i l.
Proof.
  intros H. revert i. induction H as [|x r Hr IH Hx]; intros i Hi;
    [simpl in Hi; lia|].
  destruct i as [|i]; cbn [nth delete_at filter].
  - rewrite Nat.eqb_refl. cbn [negb]. apply filter_all.
    rewrite Forall_forall in *. intros z Hz. specialize (Hx z Hz).
    apply negb_true_iff, Nat.eqb_neq. lia.
  - simpl in Hi.
    assert (In (nth i r O) r) as Hin by (apply nth_In; lia).
    rewrite Forall_forall in Hx. specialize (Hx _ Hin).
    assert ((x =? nth i r O) = false) as -> by (apply Nat.eqb_neq; lia).
    cbn [negb]. rewrite IH by lia. reflexivity.
Qed.

Lemma setdiff1d_position (piv : list nat) (i : nat) :
  StronglySorted lt piv -> i < length piv ->
  setdiff1d piv (nth i piv O) = delete_at i piv.
Proof.
  intros H Hi. unfold setdiff1d. rewrite filter_out_position by assumption.
  apply unique_sorted. apply delete_at_sorted. exact H.
Qed.

Lemma argmin_from_first_nan (pre post : list float64) :
  Forall (fun v => v <> NaN) pre ->
  forall pos best bv, bv <> NaN ->
    argmin_from pos best bv (pre ++ NaN :: post) = pos + length pre.
Proof.
  induction 1 as [|x r Hx _ IH]; intros pos best bv Hb.
  - cbn [app argmin_from length].
    destruct bv; try congruence; cbn [F.isnan orb];
      (destruct post; cbn [argmin_from F.isnan]; lia).
  - cbn [app argmin_from length].
    assert (F.isnan bv = false) as -> by (destruct bv; simpl; congruence).
    assert (F.isnan x = false) as -> by (destruct x; simpl; congruence).
    cbn [orb]. destruct (F.ltb x bv); rewrite IH by assumption; lia.
Qed.

Lemma argmin_first_nan (pre post : list float64) :
  Forall (fun v => v <> NaN) pre ->
  argmin (pre ++ NaN :: post) = Some (length pre).
Proof.
  intros H. destruct H as [|x r Hx Hr]; [destruct post; reflexivity|].
  cbn [app argmin length]. f_equal.
  rewrite argmin_from_first_nan by assumption. reflexivity.
Qed.

Section BackwardMore.

Variable rng : Type.
Variable cmi : list Q -> list Q -> list Q -> outcome float64.
Variable pinv_project : list (list Q) -> list Q -> list Q.

(** Whatever deleting one position keeps, the loop keeps. *)
Lemma backward_loop_keeps (P : list nat -> Prop) :
  (forall ix l, P l -> P (delete_at ix l)) ->
  forall fuel t R y mv piv r,
    backward_loop cmi pinv_project fuel t R y mv piv = Return r ->
    P piv -> P r.
Proof.
  intros HP. induction fuel as [|f IH]; intros t R y mv piv r; simpl.
  - destruct (F.leb mv t && (1 <? length piv)); [discriminate|].
    intros H; inversion H; subst; auto.
  - destruct (F.leb mv t && (1 <? length piv)).
    + destruct (backward_gains cmi pinv_project R y piv) as [arr| |];
        simpl; try discriminate.
      destruct (argmin arr) as [ix|]; try discriminate.
      intros H Hp. eapply IH; [exact H|]. apply HP. exact Hp.
    + intros H; inversion H; subst; auto.
Qed.

Lemma backward_loop_done fuel t R y mv piv :
  F.leb mv t && (1 <? length piv) = false ->
  backward_loop cmi pinv_project fuel t R y mv piv = Return piv.
Proof. intros E. destruct fuel; simpl; rewrite E; reflexivity. Qed.

(** X5.  When [entropic_regression_backward] returns, it returns [piv] as
    it came exactly when the tolerance is NaN, the loop test
    [min_value <= tol] being false from the start, or [piv] has at most one
    index. *)
Theorem backward_unchanged_iff
  (st : er_state rng) (R : list (list Q)) (y : list Q) (piv r : list nat) :
  entropic_regression_backward cmi pinv_project st R y piv = Return r ->
  (r = piv <-> tol st = NaN \/ length piv <= 1).
Proof.
  unfold entropic_regression_backward. intros H. split.
  - intros ->.
    assert (tol st = NaN \/ tol st <> NaN) as [E|N]
        by (destruct (tol st); auto; right; discriminate).
    { left; exact E. }
    right.
    destruct (le_lt_dec (length piv) 1) as [L|L]; [exact L|].
    pose proof (backward_loop_first_round _ _ _ _ _ _ N L H). lia.
  - intros C. rewrite backward_loop_done in H; [congruence|].
    destruct C as [E|L].
    + rewrite E. reflexivity.
    + apply andb_false_intro2. apply Nat.ltb_ge. exact L.
Qed.

(** X6.  Elimination takes positions out of [piv] and leaves the rest in
    place: from a [piv] without duplicates it returns one without
    duplicates, and from an increasing [piv], as [fit] passes it, an
    increasing one. *)
Theorem backward_keeps_order
  (st : er_state rng) (R : list (list Q)) (y : list Q) (piv r : list nat) :
  entropic_regression_backward cmi pinv_project st R y piv = Return r ->
  (NoDup piv -> NoDup r)
  /\ (StronglySorted lt piv -> StronglySorted lt r).
Proof.
  unfold entropic_regression_backward. intros H. split.
  - intros Hp. eapply (@backward_loop_keeps (@NoDup nat)); [|exact H|exact Hp].
    intros ix l. apply delete_at_NoDup.
  - intros Hp.
    eapply (@backward_loop_keeps (StronglySorted lt)); [|exact H|exact Hp].
    intros ix l. apply delete_at_sorted.
Qed.

(** X7.  On an increasing [piv], as [fit] passes it,
    [np.setdiff1d(piv, piv[i])] is [piv] without its position [i]: the gain
    at position [i] of a round scores the very set that
    [np.delete(piv, i)] leaves. *)
Theorem backward_gains_score_deletions
  (R : list (list Q)) (y : list Q) (piv : list nat) :
  StronglySorted lt piv ->
  backward_gains cmi pinv_project R y piv
  = sequence
      (map (fun i =>
              cmi y (pinv_project (columns R piv) y)
                  (pinv_project (columns R (delete_at i piv)) y))
           (seq 0 (length piv))).
Proof.
  intros H. unfold backward_gains. f_equal.
  apply map_ext_in. intros i Hi. apply in_seq in Hi.
  rewrite setdiff1d_position by (auto; lia). reflexivity.
Qed.

(** X8.  A gain that is NaN wins [np.argmin].  For a tolerance that is
    not NaN and more than one index, if the gains of the first round hold a
    NaN, the index at the first NaN is removed and the loop ends there,
    [NaN <= tol] being false. *)
Theorem backward_drops_first_nan_gain
  (st : er_state rng) (R : list (list Q)) (y : list Q) (piv : list nat)
  (pre post : list float64) :
  tol st <> NaN -> 1 < length piv ->
  backward_gains cmi pinv_project R y piv = Return (pre ++ NaN :: post) ->
  Forall (fun v => v <> NaN) pre ->
  entropic_regression_backward cmi pinv_project st R y piv
  = Return (delete_at (length pre) piv).
Proof.
  intros Ht Hl G Hpre. unfold entropic_regression_backward.
  destruct (length piv) as [|f] eqn:Len; [lia|].
  cbn [backward_loop]. rewrite Len.
  rewrite (leb_neginf Ht).
  assert ((1 <? S f) = true) as -> by (apply Nat.ltb_lt; lia).
  cbn [andb]. rewrite G. cbn [bind].
  rewrite argmin_first_nan by exact Hpre.
  rewrite nth_middle.
  apply backward_loop_done. reflexivity.
Qed.

End BackwardMore.

(** ** More on forward selection *)

Section ForwardMore.

Variables (rng : Type).
Variable permutation : rng -> list Q -> list Q * rng.
Variable mutual_information : list Q -> list Q -> outcome float64.
Variable cmi : list Q -> list Q -> list Q -> outcome float64.
Variable pinv_project : list (list Q) -> list Q -> list Q.
Variables (n_perm : nat) (q : float64).

(** What every round that goes on keeps, the returned list has; and the
    round at the returned list is the one that stopped. *)
Lemma forward_loop_invariant (I : list nat -> Prop) t ksg_max R y :
  (forall p i,
      I p ->
      forward_round mutual_information cmi pinv_project t ksg_max R y p
      = Return (Continue i) ->
      I (p ++ [i])) ->
  forall fuel sel ixo s b,
    forward_loop mutual_information cmi pinv_project fuel t ksg_max R y
                 sel ixo = Return (s, b) ->
    I (sel ++ match ixo with None => [] | Some i => [i] end) ->
    I s
    /\ forward_round mutual_information cmi pinv_project t ksg_max R y s
       = Return (Stop b).
Proof.
  intros Step. induction fuel as [|f IH]; intros sel ixo s b; simpl;
    [discriminate|].
  set (sel1 := sel ++ match ixo with None => [] | Some i => [i] end).
  destruct (forward_round mutual_information cmi pinv_project
              t ksg_max R y sel1) as [[sc|i]| |] eqn:E; simpl; try discriminate.
  - intros H; inversion H; subst. auto.
  - intros H Hi. apply IH in H; [exact H|]. simpl. apply Step; assumption.
Qed.

(** A round that goes on has found the size limit not yet passed. *)
Lemma continue_under_limit t ksg_max R y p i :
  forward_round mutual_information cmi pinv_project t ksg_max R y p
  = Return (Continue i) ->
  length p <= 8 \/ 2 * length p <= length R.
Proof.
  intros H. apply forward_round_rule in H.
  destruct H as (kl & vec & ix & _ & _ & _ & R1 & R2 & _).
  destruct (F.leb (F.sub ksg_max kl) t || F.leb (nth ix vec NaN) t) eqn:S.
  - assert (Continue i = Stop true) as C by (apply R1; reflexivity).
    discriminate.
  - specialize (R2 eq_refl).
    assert (~ (8 < length p /\ length R < 2 * length p)) as N.
    { intros L. apply R2 in L. discriminate. }
    lia.
Qed.

Lemma continue_fresh t ksg_max R y p i :
  t <> NaN ->
  forward_round mutual_information cmi pinv_project t ksg_max R y p
  = Return (Continue i) ->
  ~ In i p /\ i < length R.
Proof.
  intros Ht H. apply forward_round_rule in H.
  destruct H as (kl & vec & ix & _ & _ & _ & _ & _ & R3).
  destruct (R3 i eq_refl) as [_ R4]. destruct (R4 Ht) as (N & B & _). auto.
Qed.

Lemma forward_result st R y s b st' :
  entropic_regression_forward permutation mutual_information cmi pinv_project
                              n_perm q st R y = Return (s, b, st') ->
  exists ksg_max,
    forward_loop mutual_information cmi pinv_project (length R + 11)
                 (tol st') ksg_max R y [] None = Return (s, b).
Proof.
  unfold entropic_regression_forward.
  destruct (tolerance_estimator permutation mutual_information n_perm q
              (gen st) y) as [[t g]| |]; simpl; try discriminate.
  destruct (mutual_information y (pinv_project R y)) as [ksg_max| |];
    simpl; try discriminate.
  destruct (forward_loop mutual_information cmi pinv_project
              (length R + 11) t ksg_max R y [] None) as [[s0 b0]| |] eqn:L;
    simpl; try discriminate.
  intros H. inversion H; subst. simpl. exists ksg_max. exact L.
Qed.

(** With a NaN tolerance no stop test ever holds: the loop can only end
    over the size limit. *)
Lemma forward_loop_nan fuel ksg_max R y sel ixo s b :
  forward_loop mutual_information cmi pinv_project fuel NaN ksg_max R y
               sel ixo = Return (s, b) ->
  b = false /\ 8 < length s /\ length R < 2 * length s.
Proof.
  intros H.
  eapply (@forward_loop_invariant (fun _ => True)) in H; [|auto|exact I].
  destruct H as [_ H]. apply forward_round_rule in H.
  destruct H as (kl & vec & ix & _ & _ & _ & R1 & R2 & _).
  assert (F.leb (F.sub ksg_max kl) NaN || F.leb (nth ix vec NaN) NaN = false)
    as S.
  { destruct (F.sub ksg_max kl), (nth ix vec NaN); reflexivity. }
  rewrite S in R1, R2. specialize (R2 eq_refl).
  destruct b.
  - destruct R1 as [R1 _]. specialize (R1 eq_refl). discriminate.
  - split; [reflexivity|]. apply R2. reflexivity.
Qed.

(** With any other tolerance every column is taken at most once. *)
Lemma forward_loop_distinct fuel t ksg_max R y s b :
  t <> NaN ->
  forward_loop mutual_information cmi pinv_project fuel t ksg_max R y
               [] None = Return (s, b) ->
  NoDup s /\ Forall (fun j => j < length R) s.
Proof.
  intros Ht H.
  eapply (@forward_loop_invariant
            (fun p => NoDup p /\ Forall (fun j => j < length R) p)) in H.
  - tauto.
  - intros p i [N F] C. apply continue_fresh in C as [Hn Hb]; [|exact Ht].
    split.
    + apply NoDup_app; [exact N|repeat constructor; auto|].
      intros a Ha [->|[]]. contradiction.
    + apply Forall_app. split; [exact F|]. repeat constructor. exact Hb.
  - simpl. split; constructor.
Qed.

(** X9.  When [entropic_regression_forward] returns with a NaN in
    [self.tol], it reports failure: no stop test holds against NaN, so the
    loop ran until the selected list had more than
    max(8, n_regressors / 2) entries. *)
Theorem forward_nan_tolerance_fails st R y s b st' :
  entropic_regression_forward permutation mutual_information cmi pinv_project
                              n_perm q st R y = Return (s, b, st') ->
  tol st' = NaN ->
  b = false /\ 8 < length s /\ length R < 2 * length s.
Proof.
  intros H Ht. apply forward_result in H as [ksg_max H]. rewrite Ht in H.
  exact (forward_loop_nan _ _ _ _ _ _ H).
Qed.

(** X10.  What the forward selector returns has at most
    max(8, n_regressors / 2) + 1 entries; for a tolerance that is not NaN
    the entries are distinct columns of the design, at most as many as it
    has. *)
Theorem forward_selection_bounds st R y s b st' :
  entropic_regression_forward permutation mutual_information cmi pinv_project
                              n_perm q st R y = Return (s, b, st') ->
  (length s <= 9 \/ 2 * (length s - 1) <= length R)
  /\ (tol st' <> NaN ->
      NoDup s /\ Forall (fun j => j < length R) s /\ length s <= length R).
Proof.
  intros H. apply forward_result in H as [ksg_max H]. split.
  - eapply (@forward_loop_invariant
               (fun p => length p <= 9 \/ 2 * (length p - 1) <= length R))
      in H; [tauto| |simpl; lia].
    intros p i _ C. apply continue_under_limit in C.
    rewrite length_app. simpl. lia.
  - intros Ht. apply forward_loop_distinct in H as [N F]; [|exact Ht].
    split; [exact N|]. split; [exact F|].
    assert (incl s (seq 0 (length R))) as Hincl.
    { intros j Hj. rewrite Forall_forall in F. apply in_seq.
      specialize (F j Hj). lia. }
    pose proof (NoDup_incl_length N Hincl) as L.
    rewrite length_seq in L. exact L.
Qed.

End ForwardMore.

(** ** More on the orchestrator *)

Lemma code_rows_tl (code : Type) (codes fm : list code) (l : list nat) :
  code_rows codes l = Return fm -> code_rows codes (tl l) = Return (tl fm).
Proof.
  unfold code_rows. destruct l as [|j l]; simpl.
  - intros H; inversion H; reflexivity.
  - destruct (nth_error codes j); simpl; try discriminate.
    destruct (sequence _) as [xs| |]; simpl; try discriminate.
    intros H; inversion H; reflexivity.
Qed.

Lemma NoDup_map_nth (sel kept : list nat) :
  NoDup sel -> NoDup kept -> Forall (fun j => j < length sel) kept ->
  NoDup (map (fun j => nth j sel O) kept).
Proof.
  intros Hs Hk. induction Hk as [|j r Hj Hr IH]; intros F; simpl;
    [constructor|].
  inversion F as [|? ? Fj Fr]; subst.
  constructor; [|apply IH; exact Fr].
  intros Hin. apply in_map_iff in Hin as (i & E & Hi).
  rewrite Forall_forall in Fr. specialize (Fr i Hi).
  rewrite (NoDup_nth sel O) in Hs.
  assert (i = j) by (apply Hs; auto). subst. contradiction.
Qed.

Lemma NoDup_tl (A : Type) (l : list A) : NoDup l -> NoDup (tl l).
Proof. destruct 1; simpl; [constructor|assumption]. Qed.

Lemma Forall_tl (A : Type) (P : A -> Prop) (l : list A) :
  Forall P l -> Forall P (tl l).
Proof. destruct 1; simpl; [constructor|assumption]. Qed.

Section FitMore.

Variables (rng code : Type).
Variable permutation : rng -> list Q -> list Q * rng.
Variable mutual_information : list Q -> list Q -> outcome float64.
Variable cmi : list Q -> list Q -> list Q -> outcome float64.
Variable pinv_project : list (list Q) -> list Q -> list Q.
Variable estimator : list (list Q) -> list Q -> list float64.
Variables (n_perm : nat) (q h : float64) (skip_forward : bool).

Lemma forward_state st R y s b st' :
  entropic_regression_forward permutation mutual_information cmi pinv_project
                              n_perm q st R y = Return (s, b, st') ->
  gen st' = draws permutation n_perm (gen st) y.
Proof.
  unfold entropic_regression_forward, tolerance_estimator.
  destruct (permutation_estimates permutation mutual_information n_perm
              (gen st) y) as [[ests g]| |] eqn:E; simpl; try discriminate.
  destruct (quantile ests q) as [t| |]; simpl; try discriminate.
  destruct (mutual_information y (pinv_project R y)) as [ksg_max| |];
    simpl; try discriminate.
  destruct (forward_loop _ _ _ _ _ _ _ _ _ _) as [[s0 b0]| |];
    simpl; try discriminate.
  intros H; inversion H; subst. simpl.
  apply permutation_estimates_draws in E. exact E.
Qed.

(** X11.  A returning [fit] advances the generator by [n_perm]
    permutations of the trimmed target when [skip_forward] is set and by
    twice as many otherwise, whatever the data and whichever way the
    selection went. *)
Theorem fit_draws
  (st : er_state rng) R (codes : list code) y_full max_lag
  (r : fitted rng code) :
  fit permutation mutual_information cmi pinv_project estimator n_perm q h
      skip_forward st R codes (Some y_full) max_lag = Return r ->
  gen (state r)
  = draws permutation (if skip_forward then n_perm else n_perm + n_perm)
          (gen st) (skipn max_lag y_full).
Proof.
  intros H. apply fit_steps in H.
  destruct H as (ests & g1 & t & selected0 & success & st2 & kept & final0
                 & fm & p & E & _ & Fw & _ & _ & _ & _ & ->).
  apply permutation_estimates_draws in E.
  assert (forall (b : bool) (u v : fitted rng code),
             state u = st2 -> state v = st2 ->
             state (if b then u else v) = st2) as Sel
      by (intros [] u v; auto).
  rewrite Sel by reflexivity.
  destruct skip_forward; simpl in Fw.
  - inversion Fw; subst. reflexivity.
  - apply forward_state in Fw. simpl in Fw.
    rewrite Fw, draws_add, <- E. reflexivity.
Qed.

(** X12.  The rows of the stored [final_model] are the rows of the code
    table at the indices of the stored [pivv], in the same order, pruned or
    not. *)
Theorem fit_model_rows_follow_pivv
  (st : er_state rng) R (codes : list code) y_full max_lag
  (r : fitted rng code) :
  fit permutation mutual_information cmi pinv_project estimator n_perm q h
      skip_forward st R codes (Some y_full) max_lag = Return r ->
  code_rows codes (pivv r) = Return (final_model r).
Proof.
  intros H. apply fit_steps in H.
  destruct H as (ests & g1 & t & selected0 & success & st2 & kept & final0
                 & fm & p & _ & _ & _ & _ & _ & C & _ & ->).
  destruct p; simpl; [apply code_rows_tl|]; exact C.
Qed.

(** X13.  When the forward selector stops in its first round with
    success, nothing is selected; the eliminator returns [np.array([])], an
    array of floats, and indexing the selected terms with it raises
    [IndexError]: [fit] does not fall back on the constant term alone. *)
Theorem fit_fails_on_empty_selection
  (st : er_state rng) R (codes : list code) y_full max_lag ests g1 t st2 :
  skip_forward = false ->
  permutation_estimates permutation mutual_information n_perm (gen st)
                        (skipn max_lag y_full) = Return (ests, g1) ->
  quantile ests q = Return t ->
  entropic_regression_forward permutation mutual_information cmi pinv_project
                              n_perm q (mk_state t g1) R
                              (skipn max_lag y_full)
  = Return ([], true, st2) ->
  fit permutation mutual_information cmi pinv_project estimator n_perm q h
      skip_forward st R codes (Some y_full) max_lag = Raise IndexError.
Proof.
  intros -> E Qt Fw. unfold fit. rewrite E. cbn [bind fst snd].
  rewrite Qt. cbn [bind negb]. rewrite Fw. cbn [bind negb orb length seq].
  unfold entropic_regression_backward. cbn [length backward_loop].
  rewrite andb_false_r. reflexivity.
Qed.

End FitMore.

Section FitIndices.

Variables (rng code : Type).
Variable permutation : rng -> list Q -> list Q * rng.
Variable mutual_information : list Q -> list Q -> outcome float64.
Variable cmi : list Q -> list Q -> list Q -> outcome float64.
Variable pinv_project : list (list Q) -> list Q -> list Q.
Variable estimator : list (list Q) -> list Q -> list float64.
Variables (n_perm : nat) (q h : float64) (skip_forward : bool).

(** The columns handed to the eliminator are distinct columns of the
    design, whatever the selector did. *)
Lemma selected_distinct t g1 R y selected0 success st2 :
  (if negb skip_forward
   then entropic_regression_forward permutation mutual_information cmi
          pinv_project n_perm q (mk_state t g1) R y
   else Return ([], false, mk_state t g1))
  = Return (selected0, success, st2) ->
  let selected := if negb success || skip_forward
                  then seq 0 (length R) else selected0 in
  NoDup selected /\ Forall (fun j => j < length R) selected.
Proof.
  intros Fw selected.
  assert (NoDup (seq 0 (length R))
          /\ Forall (fun j => j < length R) (seq 0 (length R))) as Hseq.
  { split; [apply seq_NoDup|]. apply Forall_forall. intros j Hj.
    apply in_seq in Hj. lia. }
  unfold selected. destruct skip_forward; [rewrite orb_true_r; exact Hseq|].
  destruct success; [|exact Hseq]. simpl in *.
  apply forward_result in Fw as [ksg_max Fw].
  assert (tol st2 = NaN \/ tol st2 <> NaN) as [E|N]
      by (destruct (tol st2); auto; right; discriminate).
  - rewrite E in Fw. apply forward_loop_nan in Fw as [Fw _]. discriminate.
  - eapply forward_loop_distinct; [exact N|exact Fw].
Qed.

(** X14.  The stored [pivv] holds distinct column indices of the design
    matrix.  No assumption on the tolerance is needed: a forward run that
    repeats a column runs on a NaN tolerance and ends in failure, and
    [fit] then starts the elimination from all columns. *)
Theorem fit_indices_distinct
  (st : er_state rng) R (codes : list code) y_full max_lag
  (r : fitted rng code) :
  fit permutation mutual_information cmi pinv_project estimator n_perm q h
      skip_forward st R codes (Some y_full) max_lag = Return r ->
  NoDup (pivv r) /\ Forall (fun j => j < length R) (pivv r).
Proof.
  intros H. apply fit_steps in H.
  destruct H as (ests & g1 & t & selected0 & success & st2 & kept & final0
                 & fm & p & _ & _ & Fw & B & Ix & _ & _ & ->).
  apply selected_distinct in Fw. cbv zeta in Fw.
  set (selected := if negb success || skip_forward
                   then seq 0 (length R) else selected0) in *.
  destruct Fw as [Ns Fs].
  assert (NoDup kept /\ Forall (fun j => j < length selected) kept)
    as [Nk Fk].
  { unfold entropic_regression_backward in B. split.
    - eapply backward_loop_keeps with (P := @NoDup nat);
        [|exact B|apply seq_NoDup].
      intros ix l. apply delete_at_NoDup.
    - apply backward_loop_sound in B as [B _].
      apply Forall_forall. intros j Hj. apply B, in_seq in Hj. lia. }
  assert (kept <> [] /\ final0 = map (fun j => nth j selected O) kept)
    as [Hk ->].
  { unfold index_by in Ix. destruct kept; [discriminate|].
    inversion Ix. split; [discriminate|reflexivity]. }
  set (final0 := map (fun j => nth j selected O) kept).
  assert (NoDup final0) as N0 by (apply NoDup_map_nth; assumption).
  assert (Forall (fun j => j < length R) final0) as F0.
  { apply Forall_forall. intros v Hv. apply in_map_iff in Hv as (j & <- & Hj).
    rewrite Forall_forall in Fs, Fk. apply Fs, nth_In, Fk, Hj. }
  assert (0 < length R) as Hn.
  { destruct kept as [|j kept']; [congruence|].
    inversion F0; subst. lia. }
  assert (NoDup (recheck_constant final0)
          /\ Forall (fun j => j < length R) (recheck_constant final0))
    as [N1 F1].
  { destruct (recheck_constant_cases final0) as [K1 K2].
    destruct (in_dec Nat.eq_dec 0 final0) as [Hin|Hin].
    - rewrite (K1 Hin). auto.
    - rewrite (K2 Hin). split; constructor; auto. }
  destruct p; simpl; [|auto].
  split; [apply NoDup_tl|apply Forall_tl]; assumption.
Qed.

End FitIndices.

(** ** Termination *)

Lemma quantile_never_timeout (a : list float64) (q : float64) :
  quantile a q <> Timeout.
Proof.
  unfold quantile. destruct q; try discriminate.
  destruct (Qle_bool 0 q && Qle_bool q 1); [|discriminate].
  destruct (existsb F.isnan a); [discriminate|]. destruct a; discriminate.
Qed.

Section Termination.

Variables (rng code : Type).
Variable permutation : rng -> list Q -> list Q * rng.
Variable mutual_information : list Q -> list Q -> outcome float64.
Variable cmi : list Q -> list Q -> list Q -> outcome float64.
Variable pinv_project : list (list Q) -> list Q -> list Q.
Variable estimator : list (list Q) -> list Q -> list float64.
Variables (n_perm : nat) (q h : float64) (skip_forward : bool).

Hypothesis mi_ends : forall a b, mutual_information a b <> Timeout.
Hypothesis cmi_ends : forall a b c, cmi a b c <> Timeout.

Lemma permutation_estimates_never_timeout n g y :
  permutation_estimates permutation mutual_information n g y <> Timeout.
Proof.
  revert g; induction n as [|m IH]; intros g; simpl; [discriminate|].
  destruct (permutation g y) as [y_perm g1].
  apply bind_no_timeout; [apply mi_ends|]. intros v _.
  apply bind_no_timeout; [apply IH|]. discriminate.
Qed.

Lemma forward_never_timeout st R y :
  entropic_regression_forward permutation mutual_information cmi pinv_project
                              n_perm q st R y <> Timeout.
Proof.
  unfold entropic_regression_forward, tolerance_estimator.
  apply bind_no_timeout.
  { apply bind_no_timeout; [apply permutation_estimates_never_timeout|].
    intros r _. apply bind_no_timeout; [apply quantile_never_timeout|].
    discriminate. }
  intros tg _. apply bind_no_timeout; [apply mi_ends|]. intros ksg_max _.
  apply bind_no_timeout; [|discriminate].
  apply forward_loop_fuel_enough; auto; simpl; lia.
Qed.

(** One round per index is budget enough for the elimination. *)
Lemma backward_loop_never_timeout fuel t R y :
  forall mv piv, length piv <= fuel ->
    backward_loop cmi pinv_project fuel t R y mv piv <> Timeout.
Proof.
  induction fuel as [|f IH]; intros mv piv Hf; simpl.
  - destruct piv; [|simpl in Hf; lia]. rewrite andb_false_r. discriminate.
  - destruct (F.leb mv t && (1 <? length piv)) eqn:E; [|discriminate].
    apply andb_prop in E as [_ E]; apply Nat.ltb_lt in E.
    apply bind_no_timeout.
    { unfold backward_gains. apply sequence_no_timeout.
      apply Forall_forall. intros m Hm.
      apply in_map_iff in Hm as (i & <- & _). apply cmi_ends. }
    intros arr G. destruct (argmin arr) as [ix|] eqn:A; [|discriminate].
    apply IH.
    pose proof (backward_gains_length _ _ _ _ _ G) as L.
    pose proof (argmin_bound _ A) as B. rewrite L in B.
    pose proof (delete_at_length piv B). lia.
Qed.

Lemma fit_never_timeout
  (st : er_state rng) R (codes : list code) y_full max_lag :
  fit permutation mutual_information cmi pinv_project estimator n_perm q h
      skip_forward st R codes y_full max_lag <> Timeout.
Proof.
  unfold fit. destruct y_full as [y_full|]; [|discriminate].
  apply bind_no_timeout; [apply permutation_estimates_never_timeout|].
  intros r _. apply bind_no_timeout; [apply quantile_never_timeout|].
  intros t _. apply bind_no_timeout.
  { destruct (negb skip_forward); [apply forward_never_timeout|discriminate]. }
  intros [[selected0 success] st2] _.
  apply bind_no_timeout.
  { unfold entropic_regression_backward.
    apply backward_loop_never_timeout. rewrite length_seq. lia. }
  intros kept _. apply bind_no_timeout.
  { unfold index_by. destruct kept; discriminate. }
  intros final0 _. apply bind_no_timeout.
  { unfold code_rows. apply sequence_no_timeout. apply Forall_forall.
    intros m Hm. apply in_map_iff in Hm as (j & <- & _).
    destruct (nth_error codes j); discriminate. }
  intros fm _. apply bind_no_timeout.
  { unfold prune_condition. destruct (estimator _ _); discriminate. }
  intros p _. destruct p; discriminate.
Qed.

End Termination.

Section KnnRuns.

Variables (rng code : Type).
Variable permutation : rng -> list Q -> list Q * rng.
Variable minkowski : list Q -> list Q -> Q.
Variable argpartition : list Q -> nat -> list nat.
Variable psi : Z -> float64.
Variable k : nat.
Variable cmi : list Q -> list Q -> list Q -> outcome float64.
Variable pinv_project : list (list Q) -> list Q -> list Q.
Variable estimator : list (list Q) -> list Q -> list float64.
Variables (n_perm : nat) (q h : float64) (skip_forward : bool).

(** X15.  [fit] with the two nearest-neighbour estimators ends: neither
    loop spends its budget, [n_regressors + 11] rounds for the forward loop,
    which the size limit stops even when no stop test can hold, and one
    round per index for the elimination. *)
Theorem fit_terminates
  (st : er_state rng) R (codes : list code) y_full max_lag :
  fit permutation (mutual_information_knn minkowski argpartition psi k)
      (conditional_mutual_information minkowski argpartition psi k)
      pinv_project estimator n_perm q h skip_forward st R codes y_full max_lag
  <> Timeout.
Proof.
  apply fit_never_timeout.
  - apply mutual_information_knn_never_timeout.
  - apply conditional_mutual_information_never_timeout.
Qed.

(** X16.  With at least one permutation round, a generator whose
    permutations keep the length, and at most [k + 1] samples of the target
    left after the warm-up, [fit] raises in its first estimate, before any
    selection; the exception is the [ValueError] of [np.argpartition] when
    a sample is left at all. *)
Theorem fit_needs_samples
  (st : er_state rng) R (codes : list code) y_full max_lag :
  0 < n_perm ->
  (forall g y, length (fst (permutation g y)) = length y) ->
  length y_full <= max_lag + k + 1 ->
  exists e,
    fit permutation (mutual_information_knn minkowski argpartition psi k)
        cmi pinv_project estimator n_perm q h skip_forward st R codes
        (Some y_full) max_lag = Raise e
    /\ (max_lag < length y_full -> e = ValueError).
Proof.
  intros Hn Hp Hl. unfold fit.
  set (y := skipn max_lag y_full).
  assert (length y = length y_full - max_lag) as Ly
      by (unfold y; apply length_skipn).
  destruct n_perm as [|m]; [lia|]. cbn [permutation_estimates].
  pose proof (Hp (gen st) y) as L.
  destruct (permutation (gen st) y) as [y_perm g1]. simpl in L.
  destruct (@mutual_information_knn_short minkowski argpartition psi k
              y y_perm L) as (e & -> & He); [lia|].
  exists e. split; [reflexivity|].
  intros Hm. apply He. intros E. rewrite E in Ly. simpl in Ly. lia.
Qed.

End KnnRuns.

(** ** The estimators on counts and on constant data *)

Lemma sort_row_In (z : Q) (l : list Q) : In z (sort_row l) <-> In z l.
Proof.
  unfold sort_row. induction l as [|x r IH]; simpl; [tauto|].
  rewrite insert_sorted_In, IH. intuition.
Qed.

Lemma finite_values_none (arr : list float64) :
  Forall (fun v => F.isfinite v = false) arr -> finite_values arr = [].
Proof.
  unfold finite_values. induction 1 as [|x r Hx _ IH]; [reflexivity|].
  simpl. rewrite IH. destruct x; simpl in *; [reflexivity..|discriminate|].
  reflexivity.
Qed.

Lemma add_not_finite (a b : float64) :
  F.isfinite a = false -> F.isfinite (F.add a b) = false.
Proof. destruct a, b; simpl; auto. Qed.

Section Counts.

Variable minkowski : list Q -> list Q -> Q.
Variable argpartition : list Q -> nat -> list nat.
Variable psi : Z -> float64.
Variable k : nat.

(** X17.  Every neighbour count lies between -1 and the number of points
    less one, so the estimators evaluate the digamma function at the
    integers from 0 to the number of samples only. *)
Theorem neighbour_counts_range (X : list (list Q)) (eps : list Q) :
  Forall (fun c => (-1 <= c <= Z.of_nat (length X) - 1)%Z)
         (neighbours_minus_one minkowski X eps).
Proof.
  unfold neighbours_minus_one. apply Forall_forall. intros c Hc.
  apply in_map_iff in Hc as ([row e] & <- & Hin). cbn [fst snd].
  apply in_combine_l in Hin. unfold cdist in Hin.
  apply in_map_iff in Hin as (a & <- & _).
  pose proof (filter_length_le (fun d => Qltb d e)
                (map (fun b => minkowski a b) X)) as L.
  rewrite length_map in L. lia.
Qed.

Hypothesis self_distance : forall a, (minkowski a a == 0)%Q.
Hypothesis psi_pole : F.isfinite (psi 0) = false.

Lemma epsilon_of_equal_points (p : list Q) (X : list (list Q)) (eps : list Q) :
  Forall (eq p) X ->
  epsilon minkowski argpartition k X = Return eps ->
  Forall (fun e => e == 0)%Q eps.
Proof.
  intros Hp H.
  assert (sorted_distances minkowski X <> []) as Hsd.
  { intros E. unfold epsilon in H. rewrite E in H. discriminate. }
  rewrite epsilon_of_rows in H by exact Hsd. cbv zeta in H.
  destruct (k + 1 <? _); [|discriminate]. inversion H as [E]; clear H E.
  apply Forall_forall. intros e He.
  apply in_map_iff in He as (row & <- & Hrow).
  rewrite sorted_distances_rows in Hrow.
  apply in_map_iff in Hrow as (a & <- & Ha).
  rewrite Forall_forall in Hp.
  destruct (nth_in_or_default
              (last (firstn (k + 1)
                       (argpartition (last (sorted_distances minkowski X) [])
                                     (k + 1))) 0)
              (sort_row (map (fun b => minkowski b a) X)) 0%Q) as [Hin | ->];
    [|reflexivity].
  apply (proj1 (sort_row_In _ _)) in Hin.
  apply in_map_iff in Hin as (b & <- & Hb).
  rewrite <- (Hp a Ha), <- (Hp b Hb). apply self_distance.
Qed.

Lemma counts_of_equal_points (p : list Q) (X : list (list Q)) (eps : list Q) :
  Forall (eq p) X -> Forall (fun e => e == 0)%Q eps ->
  Forall (eq (-1)%Z) (neighbours_minus_one minkowski X eps).
Proof.
  intros Hp He. unfold neighbours_minus_one. apply Forall_forall.
  intros c Hc. apply in_map_iff in Hc as ([row e] & <- & Hin).
  cbn [fst snd]. pose proof (in_combine_r _ _ _ _ Hin) as Hine.
  apply in_combine_l in Hin. unfold cdist in Hin.
  apply in_map_iff in Hin as (a & <- & Ha).
  rewrite Forall_forall in Hp, He. specialize (He e Hine).
  assert (filter (fun d => Qltb d e) (map (fun b => minkowski a b) X) = [])
    as ->; [|reflexivity].
  assert (forall l, Forall (eq p) l ->
                    filter (fun d => Qltb d e)
                           (map (fun b => minkowski a b) l) = []) as Hl.
  { induction 1 as [|b l Hb _ IH]; [reflexivity|]. cbn [map filter].
    assert (Qltb (minkowski a b) e = false) as ->; [|exact IH].
    destruct (Qltb (minkowski a b) e) eqn:L; [|reflexivity].
    apply Qltb_lt in L. rewrite <- (Hp a Ha), <- Hb in L.
    rewrite self_distance, He in L. destruct (Qlt_irrefl _ L). }
  apply Hl. apply Forall_forall. exact Hp.
Qed.

Lemma concatenate_two_constants (c c' : Q) (y y' : list Q) :
  Forall (eq c) y -> Forall (eq c') y' -> length y' = length y ->
  exists J, concatenate [y; y'] = Return J
            /\ length J = length y /\ Forall (eq [c; c']) J.
Proof.
  intros Hy Hy' L. unfold concatenate. cbn [forallb].
  rewrite L, Nat.eqb_refl. cbn [andb]. eexists. split; [reflexivity|].
  split; [rewrite length_map, length_seq; reflexivity|].
  apply Forall_forall. intros row Hrow.
  apply in_map_iff in Hrow as (i & <- & Hi). apply in_seq in Hi.
  rewrite Forall_forall in Hy, Hy'. cbn [map]. f_equal; [|f_equal].
  - apply Hy, nth_In. lia.
  - apply Hy', nth_In. lia.
Qed.

Lemma as_rows_constant (c : Q) (y : list Q) :
  Forall (eq c) y -> Forall (eq [c]) (as_rows y).
Proof.
  unfold as_rows. induction 1 as [|v r Hv _ IH]; simpl; constructor; auto.
  subst. reflexivity.
Qed.

(** On a constant signal paired with a constant signal every point of the
    joint space is the same point, every radius is zero, every count is
    [-1], no term is finite, and the estimate is NaN. *)
Lemma mutual_information_of_constants (c c' : Q) (y y_perm : list Q) :
  Forall (eq c) y -> Forall (eq c') y_perm ->
  length y_perm = length y -> k + 1 < length y ->
  mutual_information_knn minkowski argpartition psi k y y_perm = Return NaN.
Proof.
  intros Hy Hy' L Hn. unfold mutual_information_knn.
  destruct (concatenate_two_constants Hy Hy' L) as (J & -> & LJ & HJ).
  cbn [bind].
  destruct (epsilon_domain minkowski argpartition k J) as (_ & _ & D).
  destruct D as (eps & Ee & _); [lia|]. rewrite Ee. cbn [bind].
  pose proof (epsilon_of_equal_points HJ Ee) as Hz.
  pose proof (counts_of_equal_points (as_rows_constant Hy) Hz) as Nx.
  pose proof (counts_of_equal_points (as_rows_constant Hy') Hz) as Ny.
  set (nx := neighbours_minus_one minkowski (as_rows y) eps) in *.
  set (ny := neighbours_minus_one minkowski (as_rows y_perm) eps) in *.
  unfold nanmean_finite. rewrite finite_values_none.
  - destruct (F.add (psi (Z.of_nat k)) (psi (Z.of_nat (length y))));
      reflexivity.
  - apply Forall_forall. intros v Hv.
    apply in_map_iff in Hv as ([a b] & <- & Hab).
    rewrite Forall_forall in Nx, Ny.
    rewrite <- (Nx a (in_combine_l _ _ _ _ Hab)).
    apply add_not_finite. exact psi_pole.
Qed.

End Counts.

(** ** A constant target *)

Section ConstantTarget.

Variables (rng code : Type).
Variable permutation : rng -> list Q -> list Q * rng.
Variable minkowski : list Q -> list Q -> Q.
Variable argpartition : list Q -> nat -> list nat.
Variable psi : Z -> float64.
Variable k : nat.
Variable cmi : list Q -> list Q -> list Q -> outcome float64.
Variable pinv_project : list (list Q) -> list Q -> list Q.
Variable estimator : list (list Q) -> list Q -> list float64.
Variables (n_perm : nat) (h : float64) (skip_forward : bool).

Hypothesis self_distance : forall a, (minkowski a a == 0)%Q.
Hypothesis psi_pole : F.isfinite (psi 0) = false.
Hypothesis shuffles : forall g y, Permutation (fst (permutation g y)) y.

(** X18.  With a distance that is zero from a point to itself and a
    digamma function that is not finite at 0, the estimate between a
    constant signal of more than [k + 1] samples and any permutation of it
    is NaN: all points of the joint space coincide, every radius is zero,
    every count is -1, and no term of the mean is finite. *)
Theorem mutual_information_constant (c : Q) (g : rng) (y : list Q) :
  Forall (eq c) y -> k + 1 < length y ->
  mutual_information_knn minkowski argpartition psi k y
                         (fst (permutation g y)) = Return NaN.
Proof.
  intros Hy Hn.
  apply (@mutual_information_of_constants minkowski argpartition psi k
           self_distance psi_pole c c); auto.
  - eapply Permutation_Forall; [symmetry; apply shuffles|exact Hy].
  - apply Permutation_length, shuffles.
Qed.

Lemma estimates_of_constant (c : Q) (y : list Q) :
  Forall (eq c) y -> k + 1 < length y ->
  forall n g,
    permutation_estimates
      permutation (mutual_information_knn minkowski argpartition psi k) n g y
    = Return (repeat NaN n, draws permutation n g y).
Proof.
  intros Hy Hn. induction n as [|m IH]; intros g; [reflexivity|].
  cbn [permutation_estimates draws repeat].
  pose proof (shuffles g y) as P.
  destruct (permutation g y) as [y_perm g1]. cbn [fst snd] in *.
  rewrite (@mutual_information_of_constants minkowski argpartition psi k
             self_distance psi_pole c c y y_perm); auto.
  - cbn [bind]. rewrite IH. reflexivity.
  - eapply Permutation_Forall; [symmetry; exact P|exact Hy].
  - apply Permutation_length. exact P.
Qed.

Lemma quantile_of_nans (n : nat) (qv : Q) :
  0 < n -> (0 <= qv)%Q -> (qv <= 1)%Q ->
  quantile (repeat NaN n) (Fin qv) = Return NaN.
Proof.
  intros Hn H0 H1. unfold quantile.
  apply Qle_bool_iff in H0, H1. rewrite H0, H1. cbn [andb].
  destruct n; [lia|]. reflexivity.
Qed.

(** X19.  Hence the tolerance of a constant target is NaN, for every
    level in [0, 1] and every number of permutations. *)
Theorem tolerance_of_constant_target (c qv : Q) (g : rng) (y : list Q) :
  Forall (eq c) y -> k + 1 < length y -> 0 < n_perm ->
  (0 <= qv)%Q -> (qv <= 1)%Q ->
  tolerance_estimator
    permutation (mutual_information_knn minkowski argpartition psi k)
    n_perm (Fin qv) g y
  = Return (NaN, draws permutation n_perm g y).
Proof.
  intros Hy Hn Hp H0 H1. unfold tolerance_estimator.
  rewrite (estimates_of_constant Hy Hn). cbn [bind fst snd].
  rewrite quantile_of_nans by assumption. reflexivity.
Qed.

Lemma index_by_all (n : nat) :
  index_by (seq 0 n) (seq 0 n)
  = if n =? 0 then Raise IndexError else Return (seq 0 n).
Proof.
  destruct n as [|m]; [reflexivity|].
  change (index_by (seq 0 (S m)) (seq 0 (S m)))
    with (Return (map (fun j => nth j (seq 0 (S m)) O) (seq 0 (S m)))).
  cbn [Nat.eqb]. f_equal.
  pose proof (map_seq_nth (fun v : nat => v) (seq 0 (S m)) O) as M.
  rewrite length_seq, map_id in M. exact M.
Qed.

(** X20.  On a target that is constant after the warm-up [fit] selects
    nothing: both tolerances are NaN, the forward selector cannot succeed,
    the eliminator removes nothing, and the stored model is every column
    of the design, less the first when the pruning fires. *)
Theorem fit_constant_target
  (c qv : Q) (st : er_state rng) R (codes : list code) y_full max_lag
  (r : fitted rng code) :
  Forall (eq c) (skipn max_lag y_full) ->
  k + 1 < length (skipn max_lag y_full) -> 0 < n_perm ->
  (0 <= qv)%Q -> (qv <= 1)%Q ->
  fit permutation (mutual_information_knn minkowski argpartition psi k)
      cmi pinv_project estimator n_perm (Fin qv) h skip_forward st R codes
      (Some y_full) max_lag = Return r ->
  estimated_tolerance r = NaN
  /\ tol (state r) = NaN
  /\ (pivv r = seq 0 (length R) \/ pivv r = seq 1 (length R - 1)).
Proof.
  intros Hy Hn Hp H0 H1 H. apply fit_steps in H.
  set (y := skipn max_lag y_full) in *. cbv zeta in H.
  destruct H as (ests & g1 & t & selected0 & success & st2 & kept & final0
                 & fm & p & E & Qt & Fw & B & Ix & _ & _ & ->).
  rewrite (estimates_of_constant Hy Hn) in E. inversion E; subst ests g1.
  rewrite quantile_of_nans in Qt by assumption. inversion Qt; subst t.
  assert (tol st2 = NaN /\ (negb success || skip_forward) = true) as [T S].
  { destruct skip_forward; simpl in Fw.
    - inversion Fw; subst. split; [reflexivity|apply orb_true_r].
    - assert (tol st2 = NaN) as T.
      { unfold entropic_regression_forward in Fw.
        unfold tolerance_estimator in Fw.
        rewrite (estimates_of_constant Hy Hn) in Fw.
        cbn [bind fst snd] in Fw.
        rewrite quantile_of_nans in Fw by assumption.
        cbn [bind fst snd] in Fw.
        destruct (mutual_information_knn _ _ _ _ _ _); simpl in Fw;
          try discriminate.
        destruct (forward_loop _ _ _ _ _ _ _ _ _ _); simpl in Fw;
          try discriminate.
        inversion Fw; reflexivity. }
      split; [exact T|].
      apply forward_result in Fw as [ksg_max Fw]. rewrite T in Fw.
      apply forward_loop_nan in Fw as [-> _]. reflexivity. }
  rewrite S in B, Ix. rewrite length_seq in B.
  unfold entropic_regression_backward in B.
  rewrite backward_loop_done in B by (rewrite T; reflexivity).
  inversion B; subst kept.
  rewrite index_by_all in Ix.
  assert (0 < length R /\ final0 = seq 0 (length R)) as [Hr ->].
  { destruct (length R =? 0) eqn:Z; [discriminate|].
    apply Nat.eqb_neq in Z. inversion Ix. split; [lia|reflexivity]. }
  assert (recheck_constant (seq 0 (length R)) = seq 0 (length R)) as Rc.
  { apply recheck_constant_cases. apply in_seq. lia. }
  rewrite Rc.
  destruct p; simpl; (split; [reflexivity|]); (split; [exact T|]).
  - right. destruct (length R); [lia|]. simpl. rewrite Nat.sub_0_r.
    reflexivity.
  - left. reflexivity.
Qed.

End ConstantTarget.

(** ** When the estimates are NaN *)

Lemma concatenate_returns (c : list Q) (r J : list (list Q)) :
  concatenate (c :: r) = Return J ->
  Forall (fun d => length d = length c) r /\ length J = length c.
Proof.
  unfold concatenate.
  destruct (forallb (fun d => length d =? length c) r) eqn:E; [|discriminate].
  intros H. inversion H. split.
  - rewrite forallb_forall in E. apply Forall_forall. intros d Hd.
    apply Nat.eqb_eq. auto.
  - rewrite length_map, length_seq. reflexivity.
Qed.

Lemma combine_maps (A B C : Type) (f : A -> B) (g : A -> C) (l : list A) :
  combine (map f l) (map g l) = map (fun x => (f x, g x)) l.
Proof. induction l as [|x l IH]; simpl; [reflexivity|]. rewrite IH; auto. Qed.

Lemma finite_values_nil_iff (A : Type) (t : A -> float64) (l : list A) :
  finite_values (map t l) = [] <-> Forall (fun x => F.isfinite (t x) = false) l.
Proof.
  unfold finite_values. induction l as [|x l IH]; simpl.
  - split; auto.
  - split.
    + intros H. apply app_eq_nil in H as [H1 H2]. constructor.
      * destruct (t x); simpl in *; auto; discriminate.
      * apply IH. exact H2.
    + intros H. inversion H as [|? ? Hx Hl]; subst.
      apply IH in Hl. rewrite Hl.
      destruct (t x); simpl in *; auto; discriminate.
Qed.

Lemma Forall_combine_snd (P : Q -> Prop) (n : nat) (eps : list Q) :
  length eps = n ->
  (Forall (fun ie : nat * Q => P (snd ie)) (combine (seq 0 n) eps)
   <-> Forall P eps).
Proof.
  intros L.
  assert (map snd (combine (seq 0 n) eps) = eps) as M.
  { assert (forall s, map snd (combine (seq s n) eps) = eps) as G; [|apply G].
    subst n. induction eps as [|e eps IH]; intros s; simpl; [reflexivity|].
    rewrite IH. reflexivity. }
  rewrite <- M at 2. rewrite Forall_map. tauto.
Qed.

Lemma sub_nan (a : float64) : F.sub a NaN = NaN.
Proof. destruct a; reflexivity. Qed.

Lemma add_finite (a b : float64) :
  F.isfinite a = true -> F.isfinite b = true ->
  F.isfinite (F.add a b) = true.
Proof. destruct a, b; simpl; auto. Qed.

Lemma sub_finite (a b : float64) :
  F.isfinite a = true -> F.isfinite b = true ->
  F.isfinite (F.sub a b) = true.
Proof. destruct a, b; simpl; auto. Qed.

Lemma sub_not_finite (a b : float64) :
  F.isfinite a = false -> F.isfinite (F.sub a b) = false.
Proof. destruct a, b; simpl; auto. Qed.

Section NaNEstimates.

Variable minkowski : list Q -> list Q -> Q.
Variable argpartition : list Q -> nat -> list nat.
Variable psi : Z -> float64.
Variable k : nat.

Hypothesis self_distance : forall a, (minkowski a a == 0)%Q.
Hypothesis distance_nonneg : forall a b, (0 <= minkowski a b)%Q.
Hypothesis psi_pole : F.isfinite (psi 0) = false.
Hypothesis psi_finite : forall z, (0 < z)%Z -> F.isfinite (psi z) = true.

(** The digamma value at a count plus one is finite exactly where the
    radius is positive. *)
Lemma psi_of_count (X : list (list Q)) (i : nat) (e : Q) :
  F.isfinite
    (psi ((if Qltb 0 e then others_within minkowski X i e else (-1)%Z) + 1))
  = Qltb 0 e.
Proof.
  destruct (Qltb 0 e).
  - apply psi_finite. unfold others_within. lia.
  - exact psi_pole.
Qed.

Lemma radius_of (J : list (list Q)) (eps : list Q) :
  epsilon minkowski argpartition k J = Return eps -> length eps = length J.
Proof.
  intros H. destruct (epsilon_domain minkowski argpartition k J)
    as (D1 & D2 & D3).
  destruct J as [|p J'].
  - rewrite D1 in H by reflexivity. discriminate.
  - destruct (le_lt_dec (length (p :: J')) (k + 1)) as [L|L].
    + rewrite D2 in H by (auto; discriminate). discriminate.
    + destruct (D3 L) as (eps' & E & Le). rewrite E in H. inversion H.
      subst. exact Le.
Qed.

Lemma not_positive (e : Q) : Qltb 0 e = false <-> (e <= 0)%Q.
Proof.
  split; intros H.
  - apply Qnot_lt_le. intros L. apply Qltb_lt in L. congruence.
  - destruct (Qltb 0 e) eqn:E; [|reflexivity]. apply Qltb_lt in E.
    destruct (Qlt_not_le _ _ E H).
Qed.

(** X21.  With a distance that is zero from a point to itself and never
    negative, and a digamma function that is finite at the positive
    integers and not at 0, the estimate of [mutual_information_knn] is
    never infinite: it is NaN when no sample has a positive radius, and a
    finite number otherwise. *)
Theorem mutual_information_nan_iff (y y_perm : list Q) (v : float64) :
  0 < k ->
  mutual_information_knn minkowski argpartition psi k y y_perm = Return v ->
  exists J eps,
    concatenate [y; y_perm] = Return J
    /\ epsilon minkowski argpartition k J = Return eps
    /\ (v = NaN <-> Forall (fun e => e <= 0)%Q eps)
    /\ (v <> NaN -> finite v).
Proof.
  intros Hk. unfold mutual_information_knn.
  destruct (concatenate [y; y_perm]) as [J| |] eqn:HJ; cbn [bind];
    try discriminate.
  destruct (epsilon minkowski argpartition k J) as [eps| |] eqn:He;
    cbn [bind]; try discriminate.
  intros H. exists J, eps.
  split; [reflexivity|]. split; [exact He|].
  revert H.
  apply concatenate_returns in HJ as [Fl LJ].
  inversion Fl as [|? ? Lp _]; subst.
  pose proof (radius_of _ He) as Le. rewrite LJ in Le.
  assert (y <> []) as Hy.
  { intros ->. destruct J; [discriminate|discriminate]. }
  rewrite !(@neighbours_are_radius_counts minkowski self_distance
             distance_nonneg).
  unfold radius_counts, as_rows. rewrite !length_map, Lp.
  rewrite combine_maps, map_map.
  set (L := combine (seq 0 (length y)) eps).
  set (t := fun ie : nat * Q => _).
  assert (forall ie, F.isfinite (t ie) = Qltb 0 (snd ie)) as Ht.
  { intros ie. unfold t.
    pose proof (psi_of_count (map (fun v0 => [v0]) y) (fst ie) (snd ie)) as P1.
    pose proof (psi_of_count (map (fun v0 => [v0]) y_perm) (fst ie) (snd ie))
      as P2.
    destruct (Qltb 0 (snd ie)).
    - apply add_finite; assumption.
    - apply add_not_finite; assumption. }
  assert (finite_values (map t L) = []
          <-> Forall (fun e => e <= 0)%Q eps) as Hn.
  { rewrite finite_values_nil_iff.
    rewrite <- (@Forall_combine_snd (fun e => e <= 0)%Q _ _ Le). fold L.
    split; intros H; eapply Forall_impl; try exact H; intros ie;
      cbv beta; rewrite Ht; apply not_positive. }
  assert (F.isfinite (F.add (psi (Z.of_nat k)) (psi (Z.of_nat (length y))))
          = true) as Hs.
  { apply add_finite; apply psi_finite; [lia|].
    destruct y; [congruence|simpl; lia]. }
  intros H. inversion H as [Hv]; clear H. unfold nanmean_finite.
  destruct (finite_values (map t L)) as [|x xs] eqn:Efv.
  - rewrite sub_nan. split; [|congruence]. split; [|reflexivity].
    intros _. apply Hn. reflexivity.
  - set (m := Fin _).
    assert (F.isfinite (F.sub (F.add (psi (Z.of_nat k))
                                     (psi (Z.of_nat (length y)))) m) = true)
      as Hf by (apply sub_finite; [exact Hs|reflexivity]).
    split; [|intros _; exact Hf]. split.
    + intros E. rewrite E in Hf. discriminate.
    + intros Fa. apply Hn in Fa. discriminate.
Qed.

(** X22.  The same for [conditional_mutual_information]. *)
Theorem conditional_mutual_information_nan_iff
  (y f1 f2 : list Q) (v : float64) :
  0 < k ->
  conditional_mutual_information minkowski argpartition psi k y f1 f2
  = Return v ->
  exists J eps,
    concatenate [y; f1; f2] = Return J
    /\ epsilon minkowski argpartition k J = Return eps
    /\ (v = NaN <-> Forall (fun e => e <= 0)%Q eps)
    /\ (v <> NaN -> finite v).
Proof.
  intros Hk. unfold conditional_mutual_information.
  destruct (concatenate [y; f1; f2]) as [J| |] eqn:HJ; cbn [bind];
    try discriminate.
  destruct (epsilon minkowski argpartition k J) as [eps| |] eqn:He;
    cbn [bind]; try discriminate.
  intros H. exists J, eps.
  split; [reflexivity|]. split; [exact He|].
  revert H.
  apply concatenate_returns in HJ as [Fl LJ].
  inversion Fl as [|? ? L1 Fl']; subst.
  inversion Fl' as [|? ? L2 _]; subst.
  pose proof (radius_of _ He) as Le. rewrite LJ in Le.
  destruct (concatenate [y; f2]) as [S1| |] eqn:E1; cbn [bind];
    try discriminate.
  destruct (concatenate [f1; f2]) as [S2| |] eqn:E2; cbn [bind];
    try discriminate.
  apply concatenate_returns in E1 as [_ LS1], E2 as [_ LS2].
  rewrite !(@neighbours_are_radius_counts minkowski self_distance
             distance_nonneg).
  unfold cmi_terms, radius_counts, as_rows.
  rewrite !length_map, LS1, LS2, L1, L2.
  rewrite (combine_maps _ _ (combine (seq 0 (length y)) eps)).
  rewrite (combine_maps _ _ (combine (seq 0 (length y)) eps)).
  rewrite map_map.
  set (L := combine (seq 0 (length y)) eps).
  set (t := fun ie : nat * Q => _).
  assert (forall ie, F.isfinite (t ie) = Qltb 0 (snd ie)) as Ht.
  { intros ie. unfold t.
    pose proof (psi_of_count S1 (fst ie) (snd ie)) as P1.
    pose proof (psi_of_count S2 (fst ie) (snd ie)) as P2.
    pose proof (psi_of_count (map (fun v0 => [v0]) f2) (fst ie) (snd ie))
      as P3.
    destruct (Qltb 0 (snd ie)).
    - apply sub_finite; [apply add_finite|]; assumption.
    - apply sub_not_finite, add_not_finite. assumption. }
  assert (finite_values (map t L) = []
          <-> Forall (fun e => e <= 0)%Q eps) as Hn.
  { rewrite finite_values_nil_iff.
    rewrite <- (@Forall_combine_snd (fun e => e <= 0)%Q _ _ Le). fold L.
    split; intros H; eapply Forall_impl; try exact H; intros ie;
      cbv beta; rewrite Ht; apply not_positive. }
  assert (F.isfinite (psi (Z.of_nat k)) = true) as Hs
      by (apply psi_finite; lia).
  intros H. inversion H as [Hv]; clear H. unfold nanmean_finite.
  destruct (finite_values (map t L)) as [|x xs] eqn:Efv.
  - rewrite sub_nan. split; [|congruence]. split; [|reflexivity].
    intros _. apply Hn. reflexivity.
  - set (m := Fin _).
    assert (F.isfinite (F.sub (psi (Z.of_nat k)) m) = true)
      as Hf by (apply sub_finite; [exact Hs|reflexivity]).
    split; [|intros _; exact Hf]. split.
    + intros E. rewrite E in Hf. discriminate.
    + intros Fa. apply Hn in Fa. discriminate.
Qed.

End NaNEstimates.

(** ** The instances meet the assumptions *)

Module InstanceFacts.

Import Instances.

Lemma Qabs_minus_sym (x y : Q) : Qabs (x - y) = Qabs (y - x).
Proof.
  destruct x as [xn xd], y as [yn yd].
  unfold Qabs, Qminus, Qplus, Qopp; simpl.
  f_equal; [lia|apply Pos.mul_comm].
Qed.

Lemma chebyshev_symmetric (a b : list Q) : chebyshev a b = chebyshev b a.
Proof.
  revert b; induction a as [|x a IH]; intros [|y b]; cbn [chebyshev]; auto.
  rewrite (IH b), (Qabs_minus_sym x y). reflexivity.
Qed.

Lemma chebyshev_nonneg (a b : list Q) : (0 <= chebyshev a b)%Q.
Proof.
  revert b; induction a as [|x a IH]; intros [|y b]; cbn [chebyshev];
    try apply Qle_refl.
  destruct (Qle_bool (Qabs (x - y)) (chebyshev a b)); [apply IH|].
  apply Qabs_nonneg.
Qed.

Lemma chebyshev_self (a : list Q) : (chebyshev a a == 0)%Q.
Proof.
  induction a as [|x a IH]; cbn [chebyshev]; [reflexivity|].
  destruct (Qle_bool (Qabs (x - x)) (chebyshev a a)); [exact IH|].
  assert (x - x == 0)%Q as E by ring. rewrite E. reflexivity.
Qed.

Lemma least_squares_orthogonal_length (A : list (list Q)) (y : list Q) :
  length (least_squares_orthogonal A y) = length A.
Proof. apply length_map. Qed.

(** The toy generator rearranges the array. *)
Lemma rotate_permutation (g : nat) (y : list Q) :
  Permutation (fst (rotate g y)) y.
Proof.
  unfold rotate. cbn [fst].
  set (r := (g + 1) mod Nat.max 1 (length y)).
  rewrite <- (firstn_skipn r y) at 3. apply Permutation_app_comm.
Qed.

Lemma rotate_length (g : nat) (y : list Q) :
  length (fst (rotate g y)) = length y.
Proof. apply Permutation_length, rotate_permutation. Qed.

Lemma digamma_pole : F.isfinite (digamma 0) = false.
Proof. reflexivity. Qed.

Lemma digamma_finite (z : Z) : (0 < z)%Z -> F.isfinite (digamma z) = true.
Proof. destruct z; [lia|reflexivity|lia]. Qed.

End InstanceFacts.

(** ** Runs on the example data *)

Module Runs.

Import Instances Examples InstanceFacts.

(** Backward elimination on the three columns of [R_two]. *)
Lemma backward_removes_at_least_one_witness :
  (forall r, er_backward fresh R_two y_two [0; 1; 2] = Return r ->
             length r < length [0; 1; 2] /\ r <> [] /\ incl r [0; 1; 2])
  /\ ((forall a b c, exists v, cmi_knn 1 a b c = Return v) ->
      exists r, er_backward fresh R_two y_two [0; 1; 2] = Return r)
  /\ (forall i, er_backward fresh R_two y_two [i] = Return [i]).
Proof.
  apply (@backward_removes_at_least_one nat (cmi_knn 1) lstsq_project
           fresh R_two y_two [0; 1; 2]).
  - discriminate.
  - simpl. lia.
Defined.

(** Forward selection on [R_late] picks column 1, the constant and column
    2, and stops with success. *)
Lemma forward_selection_rule_witness :
  round_rule (mi_knn 1) (cmi_knn 1) lstsq_project (Fin (-19 # 180))
             ksg_max_late R_late y_late [1; 0; 2] (Stop true)
  /\ (forall p a rest,
        [1; 0; 2] = p ++ a :: rest ->
        length ([] ++ @nil nat) <= length p ->
        round_rule (mi_knn 1) (cmi_knn 1) lstsq_project (Fin (-19 # 180))
                   ksg_max_late R_late y_late p (Continue a)).
Proof.
  apply (@forward_selection_rule (mi_knn 1) (cmi_knn 1) lstsq_project 14
           (Fin (-19 # 180)) ksg_max_late R_late y_late [] None [1; 0; 2] true).
  vm_compute. reflexivity.
Defined.

(** C4, counterexample.  On a constant target every permutation estimate is
    NaN, so the tolerance is NaN and neither stop test can hold; with the
    single column selected in the first round, every later round appends
    column 0 again although it is selected already, until the size limit
    ends the loop. *)
Lemma forward_repeats_a_selected_column :
  er_forward fresh R_ramp y_constant
  = Return ([0; 0; 0; 0; 0; 0; 0; 0; 0], false, mk_state NaN 1)
  /\ forward_round (mi_knn 1) (cmi_knn 1) lstsq_project NaN NaN
                   R_ramp y_constant [0]
     = Return (Continue 0).
Proof. split; vm_compute; reflexivity. Qed.

(** [fit] on the target without bias. *)
Lemma fit_model_never_empty_witness :
  let y := skipn 0 y_no_bias in
  exists ests g1 selected0 success kept final0 final p,
    permutation_estimates rotate (mi_knn 1) 1 (gen fresh) y
    = Return (ests, g1)
    /\ quantile ests (Fin 1) = Return (estimated_tolerance fit_no_bias)
    /\ (if negb false
        then entropic_regression_forward rotate (mi_knn 1) (cmi_knn 1)
               lstsq_project 1 (Fin 1)
               (mk_state (estimated_tolerance fit_no_bias) g1) R_no_bias y
        else Return ([], false, mk_state (estimated_tolerance fit_no_bias) g1))
       = Return (selected0, success, state fit_no_bias)
    /\ (let selected := if negb success || false
                        then seq 0 (length R_no_bias) else selected0 in
        entropic_regression_backward (cmi_knn 1) lstsq_project
                                     (state fit_no_bias)
                                     (columns R_no_bias selected) y
                                     (seq 0 (length selected))
        = Return kept
        /\ index_by selected kept = Return final0)
    /\ final = recheck_constant final0
    /\ (In 0 final0 -> final = final0)
    /\ (~ In 0 final0 -> final = 0 :: final0)
    /\ In 0 final
    /\ prune_condition
         (Fin (1 # 100))
         (least_squares_orthogonal (columns R_no_bias final) y_no_bias)
       = Return p
    /\ pivv fit_no_bias = (if p then tl final else final)
    /\ theta fit_no_bias
       = (if p
          then tl (least_squares_orthogonal (columns R_no_bias final)
                                            y_no_bias)
          else least_squares_orthogonal (columns R_no_bias final) y_no_bias)
    /\ (exists fm,
          code_rows codes final = Return fm
          /\ final_model fit_no_bias = if p then tl fm else fm)
    /\ (pivv fit_no_bias = final \/ pivv fit_no_bias = tl final)
    /\ pivv fit_no_bias <> [] /\ theta fit_no_bias <> []
    /\ final_model fit_no_bias <> []
    /\ length (theta fit_no_bias) = length (pivv fit_no_bias)
    /\ length (final_model fit_no_bias) = length (pivv fit_no_bias)
    /\ n_terms fit_no_bias = length (theta fit_no_bias).
Proof.
  apply (@fit_model_never_empty nat (list Z) rotate (mi_knn 1) (cmi_knn 1)
           lstsq_project least_squares_orthogonal 1 (Fin 1) (Fin (1 # 100))
           false fresh R_no_bias codes y_no_bias 0 fit_no_bias).
  - exact least_squares_orthogonal_length.
  - vm_compute. reflexivity.
Defined.

(** C1, counterexample.  The target has no bias: elimination leaves out the
    constant, the re-check prepends it, its coefficient comes out as zero
    with two other coefficients not zero, and the pruning drops it again;
    the fitted index set is [[1; 2]]. *)
Lemma fit_can_drop_the_constant :
  exists r,
    er_fit false fresh R_no_bias codes (Some y_no_bias) 0 = Return r
    /\ pivv r = [1; 2]
    /\ ~ In 0 (pivv r).
Proof.
  exists fit_no_bias. split; [vm_compute; reflexivity|].
  split; [reflexivity|]. simpl. intros [H|[H|[]]]; discriminate.
Qed.

(** [fit] on [R_two]. *)
Lemma fit_tolerance_flow_witness :
  let y := skipn 0 y_two in
  exists ests g1 selected kept final0 p,
    permutation_estimates rotate (mi_knn 1) 1 (gen fresh) y = Return (ests, g1)
    /\ quantile ests (Fin 1) = Return (estimated_tolerance fit_two)
    /\ (false = true ->
        state fit_two = mk_state (estimated_tolerance fit_two) g1
        /\ selected = seq 0 (length R_two))
    /\ (false = false ->
        exists ests2 ksg_max s b,
          permutation_estimates rotate (mi_knn 1) 1 g1 y
          = Return (ests2, gen (state fit_two))
          /\ quantile ests2 (Fin 1) = Return (tol (state fit_two))
          /\ mi_knn 1 y (lstsq_project R_two y) = Return ksg_max
          /\ forward_loop (mi_knn 1) (cmi_knn 1) lstsq_project
                          (length R_two + 11) (tol (state fit_two)) ksg_max
                          R_two y [] None
             = Return (s, b)
          /\ selected = if b then s else seq 0 (length R_two))
    /\ backward_loop (cmi_knn 1) lstsq_project (length selected)
                     (tol (state fit_two)) (columns R_two selected) y NegInf
                     (seq 0 (length selected))
       = Return kept
    /\ index_by selected kept = Return final0
    /\ prune_condition
         (Fin (1 # 100))
         (least_squares_orthogonal
            (columns R_two (recheck_constant final0)) y_two)
       = Return p
    /\ pivv fit_two = (if p then tl (recheck_constant final0)
                       else recheck_constant final0).
Proof.
  apply (@fit_tolerance_flow nat (list Z) rotate (mi_knn 1) (cmi_knn 1)
           lstsq_project least_squares_orthogonal 1 (Fin 1) (Fin (1 # 100))
           false fresh R_two codes y_two 0 fit_two).
  vm_compute. reflexivity.
Defined.

(** C2, counterexample.  On [R_two] the tolerance stored as
    [estimated_tolerance] is 1/5, while the forward selector recomputes the
    tolerance from a fresh permutation as 1/180, and that is the value the
    eliminator compares against. *)
Lemma fit_uses_a_second_tolerance :
  exists r,
    er_fit false fresh R_two codes (Some y_two) 0 = Return r
    /\ estimated_tolerance r = Fin (1 # 5)
    /\ tol (state r) = Fin (1 # 180)
    /\ estimated_tolerance r <> tol (state r).
Proof.
  exists fit_two. split; [vm_compute; reflexivity|].
  split; [reflexivity|]. split; [reflexivity|]. discriminate.
Qed.

(** [fit] on [R_late]. *)
Lemma fit_pruning_drops_first_entry_witness :
  exists final0 fm p,
    let final := recheck_constant final0 in
    let th := least_squares_orthogonal (columns R_late final) y_late in
    code_rows codes final = Return fm
    /\ prune_condition (Fin (1 # 100)) th = Return p
    /\ (p = true ->
        theta fit_late = tl th /\ final_model fit_late = tl fm
        /\ pivv fit_late = tl final)
    /\ (p = false ->
        theta fit_late = th /\ final_model fit_late = fm
        /\ pivv fit_late = final)
    /\ (~ In 0 final0 -> hd 0 final = 0)
    /\ (In 0 final0 -> hd 0 final0 <> 0 -> p = true ->
        hd 0 final <> 0 /\ In 0 (pivv fit_late)).
Proof.
  apply (@fit_pruning_drops_first_entry nat (list Z) rotate (mi_knn 1)
           (cmi_knn 1) lstsq_project least_squares_orthogonal 1 (Fin 1)
           (Fin (1 # 100)) false fresh R_late codes y_late 0 fit_late).
  vm_compute. reflexivity.
Defined.

(** On [R_late] forward selection returns the columns in the order 1, 0, 2;
    elimination keeps columns 1 and 0 in this order; the coefficient of
    column 1 is below [h], and the pruning drops column 1 and leaves the
    constant as the whole model. *)
Lemma pruning_can_drop_a_selected_column :
  er_forward (mk_state (Fin (13 # 90)) 1) R_late y_late
  = Return ([1; 0; 2], true, mk_state (Fin (-19 # 180)) 2)
  /\ er_backward (mk_state (Fin (-19 # 180)) 2) (columns R_late [1; 0; 2])
                 y_late [0; 1; 2]
     = Return [0; 1]
  /\ least_squares_orthogonal (columns R_late [1; 0]) y_late
     = [Fin (-9 # 3100); Fin 2]
  /\ er_fit false fresh R_late codes (Some y_late) 0 = Return fit_late
  /\ pivv fit_late = [0]
  /\ theta fit_late = [Fin 2].
Proof. repeat split; vm_compute; reflexivity. Qed.

(** Two generators in different states that deliver the same
    permutations of the six samples: the second is six draws ahead, and
    holds a stale tolerance. *)
Lemma fit_deterministic_given_seed_witness :
  map_outcome fitted_values
    (er_fit false (mk_state (Fin 0) 0) R_two codes (Some y_two) 0)
  = map_outcome fitted_values
      (er_fit false (mk_state NaN 6) R_two codes (Some y_two) 0).
Proof.
  apply (@fit_deterministic_given_seed nat (list Z) rotate (mi_knn 1)
           (cmi_knn 1) lstsq_project least_squares_orthogonal 1 (Fin 1)
           (Fin (1 # 100)) false (mk_state (Fin 0) 0) (mk_state NaN 6)
           R_two codes y_two 0).
  vm_compute. reflexivity.
Defined.


(** The conditional estimate on samples without repeated points. *)
Lemma cmi_counts_within_radius_witness :
  conditional_mutual_information chebyshev argpartition_sorted digamma 1
                                 y_two y_late zeros6
  = cmi_formula chebyshev argpartition_sorted digamma 1
                (radius_counts chebyshev) y_two y_late zeros6
  /\ (forall joint eps,
        concatenate [y_two; y_late; zeros6] = Return joint ->
        epsilon chebyshev argpartition_sorted 1 joint = Return eps ->
        Forall (fun e => 0 < e)%Q eps ->
        conditional_mutual_information chebyshev argpartition_sorted digamma 1
                                       y_two y_late zeros6
        = cmi_spec chebyshev argpartition_sorted digamma 1
                   y_two y_late zeros6).
Proof.
  apply (@cmi_counts_within_radius chebyshev argpartition_sorted digamma 1
           chebyshev_self chebyshev_nonneg y_two y_late zeros6).
Defined.

(** C5, counterexample.  The first four samples come in two pairs of equal
    points, so their radius is zero; the code counts [-1] there and drops
    the four terms from the mean, and returns 137/60, while the estimate
    over counts of other points keeps them and is 137/180. *)
Lemma cmi_differs_on_repeated_points :
  conditional_mutual_information chebyshev argpartition_sorted digamma 1
                                 y_repeated y_repeated zeros6
  = Return (Fin (137 # 60))
  /\ cmi_spec chebyshev argpartition_sorted digamma 1
              y_repeated y_repeated zeros6
     = Return (Fin (137 # 180))
  /\ conditional_mutual_information chebyshev argpartition_sorted digamma 1
                                    y_repeated y_repeated zeros6
     <> cmi_spec chebyshev argpartition_sorted digamma 1
                 y_repeated y_repeated zeros6.
Proof.
  assert (conditional_mutual_information chebyshev argpartition_sorted
            digamma 1 y_repeated y_repeated zeros6
          = Return (Fin (137 # 60))) as E1 by (vm_compute; reflexivity).
  assert (cmi_spec chebyshev argpartition_sorted digamma 1
                   y_repeated y_repeated zeros6
          = Return (Fin (137 # 180))) as E2 by (vm_compute; reflexivity).
  split; [exact E1|]. split; [exact E2|]. rewrite E1, E2. discriminate.
Qed.

(** The radius vector of four points on a line, with the partition that a
    full stable sort gives. *)
Lemma epsilon_within_kth_neighbour_witness :
  let last_row := last (sorted_distances chebyshev X_line) [] in
  let idx := argpartition_sorted last_row (1 + 1) in
  exists eps j,
    epsilon chebyshev argpartition_sorted 1 X_line = Return eps
    /\ j = last (firstn (1 + 1) idx) 0
    /\ j <= 1
    /\ length eps = length X_line
    /\ (forall i, i < length X_line ->
          nth i eps 0%Q
          = nth j (sort_row (map (fun b => chebyshev (nth i X_line []) b)
                                 X_line)) 0%Q
          /\ (nth i eps 0
              <= nth i (kth_neighbour_distance chebyshev 1 X_line) 0)%Q)
    /\ (j = 1 -> eps = kth_neighbour_distance chebyshev 1 X_line).
Proof.
  apply (@epsilon_within_kth_neighbour chebyshev argpartition_sorted 1
           chebyshev_symmetric X_line).
  - simpl. lia.
  - split; [vm_compute; apply Permutation_refl|].
    split; intros i Hi.
    + destruct i as [|[|i]]; [vm_compute; discriminate..|lia].
    + intros Hn. destruct i as [|[|[|[|i]]]]; try lia;
        [vm_compute; discriminate|simpl in Hn; lia].
  - vm_compute. reflexivity.
Defined.

(** C3 at a failing input: ten points on a line and [k = 6].  The partition
    that exchanges the indices at positions 5 and 6 of the sorted last row
    keeps the contract of [np.argpartition] at [kth = 7]; with it the last
    of the first seven indices is 5, and the radius of every point is its
    distance to the fifth nearest neighbour, not to the sixth. *)
Lemma epsilon_misses_kth_neighbour :
  let last_row := last (sorted_distances chebyshev X_ten) [] in
  partition_contract last_row 7 (argpartition_exchanged last_row 7)
  /\ firstn 7 (argpartition_exchanged last_row 7) = [0; 1; 2; 3; 4; 6; 5]
  /\ epsilon chebyshev argpartition_exchanged 6 X_ten
     = Return (column_of [31; 30; 28; 24; 16; 31; 62; 124; 248; 496]%Z)
  /\ kth_neighbour_distance chebyshev 6 X_ten
     = column_of [63; 62; 60; 56; 48; 32; 63; 126; 252; 504]%Z
  /\ epsilon chebyshev argpartition_exchanged 6 X_ten
     <> Return (kth_neighbour_distance chebyshev 6 X_ten).
Proof.
  assert (epsilon chebyshev argpartition_exchanged 6 X_ten
          = Return (column_of [31; 30; 28; 24; 16; 31; 62; 124; 248; 496]%Z))
    as E1 by (vm_compute; reflexivity).
  assert (kth_neighbour_distance chebyshev 6 X_ten
          = column_of [63; 62; 60; 56; 48; 32; 63; 126; 252; 504]%Z)
    as E2 by (vm_compute; reflexivity).
  split; [|split; [vm_compute; reflexivity|]; split; [exact E1|];
           split; [exact E2|]].
  - split; [vm_compute|split; intros i Hi].
    + do 5 apply perm_skip. apply perm_swap.
    + do 7 (destruct i as [|i]; [vm_compute; discriminate|]). lia.
    + intros Hn. do 8 (destruct i as [|i]; [lia|]).
      do 2 (destruct i as [|i]; [vm_compute; discriminate|]).
      simpl in Hn. lia.
  - rewrite E1, E2. vm_compute. discriminate.
Qed.

(** The same on four points and [k = 1]: with the two leading indices
    exchanged every radius is the distance of the point to itself. *)
Lemma epsilon_depends_on_partition_order :
  let last_row := last (sorted_distances chebyshev X_line) [] in
  partition_contract last_row 2 (argpartition_exchanged last_row 2)
  /\ epsilon chebyshev argpartition_exchanged 1 X_line
     = Return (column_of [0; 0; 0; 0]%Z)
  /\ kth_neighbour_distance chebyshev 1 X_line = column_of [1; 1; 2; 4]%Z.
Proof.
  split; [|split; vm_compute; reflexivity].
  split; [vm_compute|split; intros i Hi].
  - apply perm_swap.
  - destruct i as [|[|i]]; [vm_compute; discriminate..|lia].
  - intros Hn. destruct i as [|[|[|[|i]]]]; try lia;
      [vm_compute; discriminate|simpl in Hn; lia].
Qed.

(** C7, counterexample.  A second [fit] on the same instance and the same
    data starts from the generator as the first call left it, draws other
    permutations and arrives at other tolerances; on [R_again] the first
    call selects the columns 0 and 2 and the second the columns 0, 1 and
    2. *)
Lemma refit_can_select_another_model :
  er_fit false fresh R_again codes (Some y_again) 0 = Return fit_again_first
  /\ er_fit false (state fit_again_first) R_again codes (Some y_again) 0
     = Return fit_again_second
  /\ pivv fit_again_first = [0; 2]
  /\ pivv fit_again_second = [0; 1; 2]
  /\ final_model fit_again_first <> final_model fit_again_second
  /\ theta fit_again_first <> theta fit_again_second.
Proof.
  split; [vm_compute; reflexivity|]. split; [vm_compute; reflexivity|].
  split; [reflexivity|]. split; [reflexivity|]. split; discriminate.
Qed.

(** ** Runs for the further properties *)

(** A string for [k]. *)
Lemma validate_type_error_witness :
  Config._validate_params (Config.k_as_text) = Raise TypeError.
Proof.
  refine (proj1 (@ValidationFacts.validate_type_error
                   Config.k_as_text _ _) _).
  - simpl. lia.
  - simpl. lia.
  - reflexivity.
Defined.

(** Six samples and one neighbour. *)
Lemma mutual_information_knn_domain_witness :
  exists v,
    mutual_information_knn chebyshev argpartition_sorted digamma 1
                           y_two y_late = Return v.
Proof.
  refine (proj2 (proj2 (@mutual_information_knn_domain
                          chebyshev argpartition_sorted digamma 1
                          y_two y_late)) _ _).
  - reflexivity.
  - simpl. lia.
Defined.

(** Two samples are too few for one neighbour. *)
Lemma conditional_mutual_information_domain_witness :
  exists e,
    conditional_mutual_information chebyshev argpartition_sorted digamma 1
                                   (column_of [1; 2]%Z) (column_of [3; 4]%Z)
                                   (column_of [0; 0]%Z) = Raise e
    /\ (column_of [1; 2]%Z <> [] -> e = ValueError).
Proof.
  refine (proj1 (proj2 (@conditional_mutual_information_domain
                          chebyshev argpartition_sorted digamma 1
                          (column_of [1; 2]%Z) (column_of [3; 4]%Z)
                          (column_of [0; 0]%Z))) _ _ _).
  - reflexivity.
  - reflexivity.
  - simpl. lia.
Defined.

(** Elimination on a NaN tolerance. *)
Lemma backward_unchanged_iff_witness :
  [0; 1; 2] = [0; 1; 2]
  <-> tol (mk_state NaN 0) = NaN \/ length [0; 1; 2] <= 1.
Proof.
  apply (@backward_unchanged_iff nat (cmi_knn 1) lstsq_project
           (mk_state NaN 0) R_two y_two [0; 1; 2] [0; 1; 2]).
  reflexivity.
Defined.

(** Elimination on the three columns of [R_two] leaves column 1. *)
Lemma backward_keeps_order_witness :
  (NoDup [0; 1; 2] -> NoDup [1])
  /\ (StronglySorted lt [0; 1; 2] -> StronglySorted lt [1]).
Proof.
  apply (@backward_keeps_order nat (cmi_knn 1) lstsq_project
           fresh R_two y_two [0; 1; 2] [1]).
  vm_compute. reflexivity.
Defined.

Lemma backward_gains_score_deletions_witness :
  backward_gains (cmi_knn 1) lstsq_project R_two y_two [0; 1; 2]
  = sequence
      (map (fun i =>
              cmi_knn 1 y_two (lstsq_project (columns R_two [0; 1; 2]) y_two)
                      (lstsq_project
                         (columns R_two (delete_at i [0; 1; 2])) y_two))
           (seq 0 (length [0; 1; 2]))).
Proof.
  apply (@backward_gains_score_deletions (cmi_knn 1) lstsq_project
           R_two y_two [0; 1; 2]).
  repeat constructor.
Defined.

(** On the constant target the gain of leaving out the ramp is NaN. *)
Lemma backward_drops_first_nan_gain_witness :
  er_backward fresh R_flat y_constant [0; 1]
  = Return (delete_at (length [Fin 0]) [0; 1]).
Proof.
  apply (@backward_drops_first_nan_gain nat (cmi_knn 1) lstsq_project
           fresh R_flat y_constant [0; 1] [Fin 0] []).
  - discriminate.
  - simpl. lia.
  - vm_compute. reflexivity.
  - repeat constructor. discriminate.
Defined.

(** Forward selection on the constant target. *)
Lemma forward_nan_tolerance_fails_witness :
  false = false
  /\ 8 < length [0; 0; 0; 0; 0; 0; 0; 0; 0]
  /\ length R_ramp < 2 * length [0; 0; 0; 0; 0; 0; 0; 0; 0].
Proof.
  apply (@forward_nan_tolerance_fails nat rotate (mi_knn 1) (cmi_knn 1)
           lstsq_project 1 (Fin 1) fresh R_ramp y_constant
           [0; 0; 0; 0; 0; 0; 0; 0; 0] false (mk_state NaN 1)).
  - vm_compute. reflexivity.
  - reflexivity.
Defined.

(** Forward selection on [R_late]. *)
Lemma forward_selection_bounds_witness :
  (length [1; 0; 2] <= 9 \/ 2 * (length [1; 0; 2] - 1) <= length R_late)
  /\ (tol (mk_state (Fin (-19 # 180)) 2) <> NaN ->
      NoDup [1; 0; 2] /\ Forall (fun j => j < length R_late) [1; 0; 2]
      /\ length [1; 0; 2] <= length R_late).
Proof.
  apply (@forward_selection_bounds nat rotate (mi_knn 1) (cmi_knn 1)
           lstsq_project 1 (Fin 1) (mk_state (Fin (13 # 90)) 1) R_late y_late
           [1; 0; 2] true (mk_state (Fin (-19 # 180)) 2)).
  vm_compute. reflexivity.
Defined.

(** [fit] on [R_two] draws twice. *)
Lemma fit_draws_witness :
  gen (state fit_two) = draws rotate (1 + 1) (gen fresh) (skipn 0 y_two).
Proof.
  apply (@fit_draws nat (list Z) rotate (mi_knn 1) (cmi_knn 1) lstsq_project
           least_squares_orthogonal 1 (Fin 1) (Fin (1 # 100)) false fresh
           R_two codes y_two 0 fit_two).
  vm_compute. reflexivity.
Defined.

(** [fit] on the target without bias, where the pruning fires. *)
Lemma fit_model_rows_follow_pivv_witness :
  code_rows codes (pivv fit_no_bias) = Return (final_model fit_no_bias).
Proof.
  apply (@fit_model_rows_follow_pivv nat (list Z) rotate (mi_knn 1)
           (cmi_knn 1) lstsq_project least_squares_orthogonal 1 (Fin 1)
           (Fin (1 # 100)) false fresh R_no_bias codes y_no_bias 0
           fit_no_bias).
  vm_compute. reflexivity.
Defined.

(** On [R_none] the first forward round stops with success. *)
Lemma fit_fails_on_empty_selection_witness :
  er_fit false fresh R_none codes (Some y_none) 0 = Raise IndexError.
Proof.
  apply (@fit_fails_on_empty_selection nat (list Z) rotate (mi_knn 1)
           (cmi_knn 1) lstsq_project least_squares_orthogonal 1 (Fin 1)
           (Fin (1 # 100)) false fresh R_none codes y_none 0
           [Fin (41 # 60)] 1 (Fin (41 # 60)) (mk_state (Fin (41 # 60)) 2)).
  - reflexivity.
  - vm_compute. reflexivity.
  - vm_compute. reflexivity.
  - vm_compute. reflexivity.
Defined.

(** [fit] on [R_late]. *)
Lemma fit_indices_distinct_witness :
  NoDup (pivv fit_late) /\ Forall (fun j => j < length R_late) (pivv fit_late).
Proof.
  apply (@fit_indices_distinct nat (list Z) rotate (mi_knn 1) (cmi_knn 1)
           lstsq_project least_squares_orthogonal 1 (Fin 1) (Fin (1 # 100))
           false fresh R_late codes y_late 0 fit_late).
  vm_compute. reflexivity.
Defined.

(** Two samples are too few for [fit] with one neighbour. *)
Lemma fit_needs_samples_witness :
  exists e,
    fit (code := list Z) rotate
        (mutual_information_knn chebyshev argpartition_sorted digamma 1)
        (cmi_knn 1) lstsq_project least_squares_orthogonal 1 (Fin 1)
        (Fin (1 # 100)) false fresh R_ramp codes
        (Some (column_of [1; 2]%Z)) 0 = Raise e
    /\ (0 < length (column_of [1; 2]%Z) -> e = ValueError).
Proof.
  apply (@fit_needs_samples nat (list Z) rotate chebyshev argpartition_sorted
           digamma 1 (cmi_knn 1) lstsq_project least_squares_orthogonal 1
           (Fin 1) (Fin (1 # 100)) false fresh R_ramp codes
           (column_of [1; 2]%Z) 0).
  - lia.
  - exact rotate_length.
  - simpl. lia.
Defined.

(** The constant target and its first permutation. *)
Lemma mutual_information_constant_witness :
  mutual_information_knn chebyshev argpartition_sorted digamma 1 y_constant
                         (fst (rotate 0 y_constant)) = Return NaN.
Proof.
  apply (@mutual_information_constant nat rotate chebyshev
           argpartition_sorted digamma 1 chebyshev_self digamma_pole
           rotate_permutation 1%Q 0 y_constant).
  - repeat constructor.
  - simpl. lia.
Defined.

Lemma tolerance_of_constant_target_witness :
  tolerance_estimator
    rotate (mutual_information_knn chebyshev argpartition_sorted digamma 1)
    3 (Fin (1 # 2)) 0 y_constant
  = Return (NaN, draws rotate 3 0 y_constant).
Proof.
  apply (@tolerance_of_constant_target nat rotate chebyshev
           argpartition_sorted digamma 1 3 chebyshev_self digamma_pole
           rotate_permutation 1%Q (1 # 2) 0 y_constant).
  - repeat constructor.
  - simpl. lia.
  - lia.
  - unfold Qle; simpl; lia.
  - unfold Qle; simpl; lia.
Defined.

(** [fit] on the constant target and the ramp. *)
Lemma fit_constant_target_witness :
  estimated_tolerance fit_constant = NaN
  /\ tol (state fit_constant) = NaN
  /\ (pivv fit_constant = seq 0 (length R_ramp)
      \/ pivv fit_constant = seq 1 (length R_ramp - 1)).
Proof.
  apply (@fit_constant_target nat (list Z) rotate chebyshev
           argpartition_sorted digamma 1 (cmi_knn 1) lstsq_project
           least_squares_orthogonal 1 (Fin (1 # 100)) false chebyshev_self
           digamma_pole rotate_permutation 1%Q 1%Q fresh R_ramp codes
           y_constant 0 fit_constant).
  - repeat constructor.
  - simpl. lia.
  - lia.
  - unfold Qle; simpl; lia.
  - unfold Qle; simpl; lia.
  - vm_compute. reflexivity.
Defined.

(** The estimate between two of the example targets. *)
Lemma mutual_information_nan_iff_witness :
  exists J eps,
    concatenate [y_two; y_late] = Return J
    /\ epsilon chebyshev argpartition_sorted 1 J = Return eps
    /\ (Fin (-13 # 60) = NaN <-> Forall (fun e => e <= 0)%Q eps)
    /\ (Fin (-13 # 60) <> NaN -> finite (Fin (-13 # 60))).
Proof.
  apply (@mutual_information_nan_iff chebyshev argpartition_sorted digamma 1
           chebyshev_self chebyshev_nonneg digamma_pole digamma_finite
           y_two y_late (Fin (-13 # 60))).
  - lia.
  - vm_compute. reflexivity.
Defined.

(** The conditional estimate on the samples with repeated points. *)
Lemma conditional_mutual_information_nan_iff_witness :
  exists J eps,
    concatenate [y_repeated; y_repeated; zeros6] = Return J
    /\ epsilon chebyshev argpartition_sorted 1 J = Return eps
    /\ (Fin (137 # 60) = NaN <-> Forall (fun e => e <= 0)%Q eps)
    /\ (Fin (137 # 60) <> NaN -> finite (Fin (137 # 60))).
Proof.
  apply (@conditional_mutual_information_nan_iff chebyshev
           argpartition_sorted digamma 1 chebyshev_self chebyshev_nonneg
           digamma_pole digamma_finite y_repeated y_repeated zeros6
           (Fin (137 # 60))).
  - lia.
  - vm_compute. reflexivity.
Defined.

End Runs.
